(** * Bet settlement engine of the sportsbook demo

    A shallow embedding of the settlement path of the server storage module
    ([MemStorage.updateMatchStatus], [resolveBetsForMatch], [resolveBet],
    [updateUserBalance], with the evaluator functions [isBetWinner] and
    [isBetPush] nested in [resolveBetsForMatch]) and of the evaluator exported
    by the client module [client/src/lib/utils.ts].

    Modelling decisions, all read off the source:

    - Scores are integers ([integer] columns of [shared/schema.ts]) held in
      JavaScript numbers, that is in doubles.  The model keeps the integer in
      [Z]; comparisons of two scores are exact, and every sum and difference
      that the evaluator takes is rounded as a double rounds it ([Js.sum],
      [Js.difference]).  The goal-line thresholds [1.5], [2.5], ... are kept
      as rationals and compared with the totals in [Q].
    - Money ([real] columns: balance, stake, odds, potential win) is a
      JavaScript number.  The settlement path only ever adds two such numbers,
      so the storage model is parametric in the number type [num] and its
      addition [add]; concrete scenarios instantiate it with [Q].
    - A JavaScript [Map] iterates in insertion order; it is modelled by an
      insertion-ordered association list ([JsMap]).
    - [resolveBet] is an [async] method and [resolveBetsForMatch] calls it
      WITHOUT [await] ([this.resolveBet(bet.id, "WON")]).  An async function
      runs synchronously up to its first [await]; the rest runs later, from
      the job (microtask) queue, in first-in first-out order.  With "PUSH" or
      "LOST" the body of [resolveBet] meets no [await] and runs at once; with
      "WON" it stops at [await this.getUser(...)], after the user has been
      read, and the loop of [resolveBetsForMatch] goes on to the next bet.
      The model keeps the queue explicit: a storage method returns the store
      after its synchronous part together with the jobs it has scheduled, and
      [settle] runs the queue empty.  A caller that does [await] a method and
      does nothing else to the store in between sees the same drained state.
    - "The state afterwards" is, throughout, the drained state: the state any
      later request observes.  The continuation of an awaiting caller
      ([updateMatchStatus] after [await this.resolveBetsForMatch(id)], a route
      handler after [await storage.resolveBet(...)]) only returns a value and
      is not part of the queue. *)

From Stdlib Require Import ZArith QArith String List Bool Lia.
Import ListNotations.

Local Open Scope string_scope.
Local Open Scope list_scope.
Local Open Scope Z_scope.

(* ================================================================== *)
(** ** JavaScript helpers *)

Module Js.

(** [switch (x) { case l1: return b1; ... default: return d }] where every
    case returns (no fall-through). *)
Fixpoint switch {A : Type} (scrutinee : string) (cases : list (string * A))
         (default : A) : A :=
  match cases with
  | [] => default
  | (label, body) :: rest =>
      if String.eqb scrutinee label then body else switch scrutinee rest default
  end.

(** [x > q] and [x < q] for an integer-valued number [x] and a decimal
    literal [q]. *)
Definition Qltb (p q : Q) : bool :=
  (Qnum p * QDen q <? Qnum q * QDen p)%Z.

Definition gt_lit (x : Z) (q : Q) : bool := Qltb q (inject_Z x).
Definition lt_lit (x : Z) (q : Q) : bool := Qltb (inject_Z x) q.

(** A score is a finite double that holds an integer.  The sum or the
    difference of two such doubles is the exact result rounded to 53
    significant bits, ties going to the even significand, and an infinity
    beyond the largest double.
    [infinity] stands for the positive infinity: no finite double reaches it,
    so [<], [>] and [===] order it as JavaScript orders [Infinity]. *)
Definition round (x : Z) : Z :=
  let m := Z.abs x in
  if m <? 2 ^ 53 then x
  else
    let ulp := 2 ^ (Z.log2 m - 52) in
    let q := m / ulp in
    let r := m mod ulp in
    let q' :=
      if (ulp <? 2 * r) || ((ulp =? 2 * r) && Z.odd q) then q + 1 else q in
    Z.sgn x * (q' * ulp).

Definition infinity : Z := 2 ^ 1024.

Definition to_double (x : Z) : Z :=
  let r := round x in
  if infinity <=? r then infinity
  else if r <=? - infinity then - infinity
  else r.

(** [x + y] and [x - y] *)
Definition sum (x y : Z) : Z := to_double (x + y).
Definition difference (x y : Z) : Z := to_double (x - y).

(** Whether an integer is the value of a finite double, and
    [Number.MAX_SAFE_INTEGER]. *)
Definition is_double (x : Z) : bool :=
  (Z.abs x <? infinity) && (round x =? x).

Definition MAX_SAFE_INTEGER : Z := 9007199254740991.

(** [v || 0] for a nullable integer [v]. *)
Definition or_zero (v : option Z) : Z :=
  match v with
  | Some n => n
  | None => 0
  end.

(** [v !== undefined ? v : old] for an optional argument [v]. *)
Definition if_defined {A : Type} (v : option A) (old : A) : A :=
  match v with
  | Some x => x
  | None => old
  end.

End Js.
Arguments Js.round : simpl never.
Arguments Js.to_double : simpl never.
Arguments Js.sum : simpl never.
Arguments Js.difference : simpl never.

(* ================================================================== *)
(** ** [Map<number, V>]: insertion-ordered, keyed by numeric id *)

Module JsMap.

Definition t (V : Type) : Type := list (Z * V).

Section Ops.
Context {V : Type}.

Fixpoint get (k : Z) (m : t V) : option V :=
  match m with
  | [] => None
  | (k', v) :: rest => if k' =? k then Some v else get k rest
  end.

(** [m.set(k, v)]: an existing key keeps its position, a new key goes to
    the end. *)
Fixpoint set (k : Z) (v : V) (m : t V) : t V :=
  match m with
  | [] => [(k, v)]
  | (k', v') :: rest =>
      if k' =? k then (k', v) :: rest else (k', v') :: set k v rest
  end.

(** [Array.from(m.values())] and [Array.from(m.keys())]. *)
Definition values (m : t V) : list V := map snd m.
Definition keys (m : t V) : list Z := map fst m.

(** A well-formed map never holds one key twice. *)
Fixpoint nodup_keys (m : t V) : bool :=
  match m with
  | [] => true
  | (k, _) :: rest =>
      negb (existsb (Z.eqb k) (keys rest)) && nodup_keys rest
  end.

(** Every record is stored under its own [id] field. *)
Definition keyed_by (id_of : V -> Z) (m : t V) : bool :=
  forallb (fun kv => fst kv =? id_of (snd kv)) m.

End Ops.

End JsMap.

(* ================================================================== *)
(** ** Evaluator exported by the client ([client/src/lib/utils.ts]) *)

Module ClientUtils.
Import Js.

Definition isBetWinner (marketType : string)
           (homeScore awayScore htHomeScore htAwayScore : Z) : bool :=
  let totalGoals := sum homeScore awayScore in
  let htTotalGoals := sum htHomeScore htAwayScore in
  switch marketType
    [ ("1", homeScore >? awayScore);
      ("X", homeScore =? awayScore);
      ("2", awayScore >? homeScore);
      ("OVER_1_5", gt_lit totalGoals 1.5);
      ("UNDER_1_5", lt_lit totalGoals 1.5);
      ("OVER_2_5", gt_lit totalGoals 2.5);
      ("UNDER_2_5", lt_lit totalGoals 2.5);
      ("OVER_3_5", gt_lit totalGoals 3.5);
      ("UNDER_3_5", lt_lit totalGoals 3.5);
      ("BTTS_YES", (homeScore >? 0) && (awayScore >? 0));
      ("BTTS_NO", (homeScore =? 0) || (awayScore =? 0));
      ("DNB_1", homeScore >? awayScore);
      ("DNB_2", awayScore >? homeScore);
      ("DC_1X", homeScore >=? awayScore);
      ("DC_12", negb (homeScore =? awayScore));
      ("DC_X2", awayScore >=? homeScore);
      ("HT_1", htHomeScore >? htAwayScore);
      ("HT_X", htHomeScore =? htAwayScore);
      ("HT_2", htAwayScore >? htHomeScore);
      ("HT_OVER_0_5", gt_lit htTotalGoals 0.5);
      ("HT_UNDER_0_5", lt_lit htTotalGoals 0.5);
      ("HT_OVER_1_5", gt_lit htTotalGoals 1.5);
      ("HT_UNDER_1_5", lt_lit htTotalGoals 1.5);
      ("HT_BTTS_YES", (htHomeScore >? 0) && (htAwayScore >? 0));
      ("HT_BTTS_NO", (htHomeScore =? 0) || (htAwayScore =? 0));
      ("HANDICAP_1_MINUS_1", (difference homeScore 1) >? awayScore);
      ("HANDICAP_1_MINUS_2", (difference homeScore 2) >? awayScore);
      ("HANDICAP_2_MINUS_1", homeScore <? (difference awayScore 1));
      ("HANDICAP_2_MINUS_2", homeScore <? (difference awayScore 2));
      ("WIN_BOTH_HALVES_1",
        (htHomeScore >? htAwayScore)
        && ((difference homeScore htHomeScore)
            >? (difference awayScore htAwayScore)));
      ("WIN_BOTH_HALVES_2",
        (htAwayScore >? htHomeScore)
        && ((difference awayScore htAwayScore)
            >? (difference homeScore htHomeScore)));
      ("WIN_EITHER_HALF_1",
        (htHomeScore >? htAwayScore)
        || ((difference homeScore htHomeScore)
            >? (difference awayScore htAwayScore)));
      ("WIN_EITHER_HALF_2",
        (htAwayScore >? htHomeScore)
        || ((difference awayScore htAwayScore)
            >? (difference homeScore htHomeScore))) ]
    false.

Definition isBetPush (marketType : string) (homeScore awayScore : Z) : bool :=
  switch marketType
    [ ("DNB_1", homeScore =? awayScore);
      ("DNB_2", homeScore =? awayScore) ]
    false.

End ClientUtils.

(* ================================================================== *)
(** ** Records of [shared/schema.ts]

  Free-text and timestamp columns that settlement never reads (team names
  and logos, start time, creation time) are left out. *)

Module User.
Record t (num : Type) : Type := mk
  { id : Z; username : string; password : string; balance : num }.
Arguments mk {num}.
Arguments id {num}.
Arguments username {num}.
Arguments password {num}.
Arguments balance {num}.

(** [{ ...user, balance }] *)
Definition with_balance {num} (u : t num) (b : num) : t num :=
  mk (id u) (username u) (password u) b.
End User.

Module Match.
Record t : Type := mk
  { id : Z;
    homeTeamId : option Z;
    awayTeamId : option Z;
    leagueId : Z;
    homeScore : option Z;
    awayScore : option Z;
    htHomeScore : option Z;
    htAwayScore : option Z;
    status : string;
    isCustom : bool }.
End Match.

Module Market.
Record t (num : Type) : Type := mk
  { id : Z; matchId : Z; type : string; odds : num; isLocked : bool }.
Arguments mk {num}.
Arguments id {num}.
Arguments matchId {num}.
Arguments type {num}.
Arguments odds {num}.
Arguments isLocked {num}.
End Market.

Module Bet.
Record t (num : Type) : Type := mk
  { id : Z;
    userId : Z;
    stake : num;
    totalOdds : num;
    potentialWin : num;
    status : string }.
Arguments mk {num}.
Arguments id {num}.
Arguments userId {num}.
Arguments stake {num}.
Arguments totalOdds {num}.
Arguments potentialWin {num}.
Arguments status {num}.

(** [{ ...bet, status }] *)
Definition with_status {num} (b : t num) (s : string) : t num :=
  mk (id b) (userId b) (stake b) (totalOdds b) (potentialWin b) s.
End Bet.

Module BetSelection.
Record t (num : Type) : Type := mk
  { id : Z; betId : Z; marketId : Z; odds : num }.
Arguments mk {num}.
Arguments id {num}.
Arguments betId {num}.
Arguments marketId {num}.
Arguments odds {num}.
End BetSelection.


(* ================================================================== *)
(** ** In-memory storage ([MemStorage]) and its job queue *)

(** The five maps of [MemStorage] that settlement touches.  The id counters
and the league and team maps are never read or written on this path. *)
Record MemStorage (num : Type) : Type := mkStorage
  { users : JsMap.t (User.t num);
    matches : JsMap.t Match.t;
    markets : JsMap.t (Market.t num);
    bets : JsMap.t (Bet.t num);
    betSelections : JsMap.t (BetSelection.t num) }.
Arguments mkStorage {num}.
Arguments users {num}.
Arguments matches {num}.
Arguments markets {num}.
Arguments bets {num}.
Arguments betSelections {num}.

(** A job is the rest of an [async] method after one of its [await]s, with the
local variables it has captured.
- [AfterGetUser]: [resolveBet] after [await this.getUser(bet.userId)]; the
  promise of [getUser] was settled with [user] when the call was made.
- [AfterInnerGetUser]: [updateUserBalance] after its own
  [await this.getUser(id)], called from the [resolveBet] that continues with
  [betId] and [status] once the update returns.
- [AfterUpdateUserBalance]: [resolveBet] after
  [await this.updateUserBalance(...)]. *)
Inductive job (num : Type) : Type :=
| AfterGetUser (betId : Z) (status : string) (bet : Bet.t num)
               (user : option (User.t num))
| AfterInnerGetUser (id : Z) (balance : num) (user : option (User.t num))
                    (betId : Z) (status : string)
| AfterUpdateUserBalance (betId : Z) (status : string).
Arguments AfterGetUser {num}.
Arguments AfterInnerGetUser {num}.
Arguments AfterUpdateUserBalance {num}.

Module Storage.
Import Js.

Section Methods.
Variable num : Type.
Variable add : num -> num -> num.

Definition set_users (s : MemStorage num) (m : JsMap.t (User.t num))
  : MemStorage num :=
  mkStorage m (matches s) (markets s) (bets s) (betSelections s).

Definition set_matches (s : MemStorage num) (m : JsMap.t Match.t)
  : MemStorage num :=
  mkStorage (users s) m (markets s) (bets s) (betSelections s).

Definition set_bets (s : MemStorage num) (m : JsMap.t (Bet.t num))
  : MemStorage num :=
  mkStorage (users s) (matches s) (markets s) m (betSelections s).

(** [getUser(id)]: the body has no [await]; the value is read at call time. *)
Definition getUser (id : Z) (s : MemStorage num) : option (User.t num) :=
  JsMap.get id (users s).

Definition getMatch (id : Z) (s : MemStorage num) : option Match.t :=
  JsMap.get id (matches s).

(** [updateUserBalance(id, balance)] up to its [await]: it calls [getUser]
and suspends.  [betId] and [status] belong to the [resolveBet] that awaits
the call and goes on when it returns. *)
Definition updateUserBalance (id : Z) (balance : num) (betId : Z)
           (status : string) (s : MemStorage num)
  : MemStorage num * list (job num) :=
  (s, [AfterInnerGetUser id balance (getUser id s) betId status]).

(** Second half of [resolveBet]:
[const bet = this.bets.get(betId); if (bet) this.bets.set(betId, {...bet, status})] *)
Definition resolveBet_store (betId : Z) (status : string) (s : MemStorage num)
  : MemStorage num :=
  match JsMap.get betId (bets s) with
  | Some bet => set_bets s (JsMap.set betId (Bet.with_status bet status) (bets s))
  | None => s
  end.

(** [resolveBet(betId, status)] up to its first [await]. *)
Definition resolveBet (betId : Z) (status : string) (s : MemStorage num)
  : MemStorage num * list (job num) :=
  if String.eqb status "WON" then
    match JsMap.get betId (bets s) with
    | Some bet => (s, [AfterGetUser betId status bet (getUser (Bet.userId bet) s)])
    | None => (resolveBet_store betId status s, [])
    end
  else (resolveBet_store betId status s, []).

(** One job taken from the queue: the store it leaves and the jobs it
schedules. *)
Definition run_job (j : job num) (s : MemStorage num)
  : MemStorage num * list (job num) :=
  match j with
  | AfterGetUser betId status bet user =>
      match user with
      | Some u =>
          updateUserBalance (User.id u) (add (User.balance u) (Bet.potentialWin bet))
                            betId status s
      | None => (resolveBet_store betId status s, [])
      end
  | AfterInnerGetUser id balance user betId status =>
      match user with
      | None => (s, [AfterUpdateUserBalance betId status])
      | Some u =>
          (set_users s (JsMap.set id (User.with_balance u balance) (users s)),
           [AfterUpdateUserBalance betId status])
      end
  | AfterUpdateUserBalance betId status => (resolveBet_store betId status s, [])
  end.

(** The job queue is first-in first-out; [drain] runs at most [fuel] jobs and
returns the store with the jobs still waiting. *)
Fixpoint drain (fuel : nat) (q : list (job num)) (s : MemStorage num)
  : MemStorage num * list (job num) :=
  match q with
  | [] => (s, [])
  | j :: rest =>
      match fuel with
      | O => (s, q)
      | S fuel' =>
          let '(s', new) := run_job j s in
          drain fuel' (rest ++ new) s'
      end
  end.

(** Number of jobs a job can still give rise to, itself included. *)
Definition job_weight (j : job num) : nat :=
  match j with
  | AfterGetUser _ _ _ _ => 3
  | AfterInnerGetUser _ _ _ _ _ => 2
  | AfterUpdateUserBalance _ _ => 1
  end%nat.

Definition queue_weight (q : list (job num)) : nat :=
  fold_right (fun j n => (job_weight j + n)%nat) O q.

(** The store once every scheduled job has run, [None] should any job be
left. *)
Definition settle (r : MemStorage num * list (job num))
  : option (MemStorage num) :=
  match drain (queue_weight (snd r)) (snd r) (fst r) with
  | (s', []) => Some s'
  | (_, _ :: _) => None
  end.

(** The evaluator nested in [resolveBetsForMatch] ("we'll need to duplicate
these functions here since we can't import from client"). *)
Definition isBetWinner (marketType : string)
           (homeScore awayScore htHomeScore htAwayScore : Z) : bool :=
  let totalGoals := sum homeScore awayScore in
  let htTotalGoals := sum htHomeScore htAwayScore in
  switch marketType
    [ ("1", homeScore >? awayScore);
      ("X", homeScore =? awayScore);
      ("2", awayScore >? homeScore);
      ("OVER_1_5", gt_lit totalGoals 1.5);
      ("UNDER_1_5", lt_lit totalGoals 1.5);
      ("OVER_2_5", gt_lit totalGoals 2.5);
      ("UNDER_2_5", lt_lit totalGoals 2.5);
      ("OVER_3_5", gt_lit totalGoals 3.5);
      ("UNDER_3_5", lt_lit totalGoals 3.5);
      ("BTTS_YES", (homeScore >? 0) && (awayScore >? 0));
      ("BTTS_NO", (homeScore =? 0) || (awayScore =? 0));
      ("DNB_1", homeScore >? awayScore);
      ("DNB_2", awayScore >? homeScore);
      ("DC_1X", homeScore >=? awayScore);
      ("DC_12", negb (homeScore =? awayScore));
      ("DC_X2", awayScore >=? homeScore);
      ("HT_1", htHomeScore >? htAwayScore);
      ("HT_X", htHomeScore =? htAwayScore);
      ("HT_2", htAwayScore >? htHomeScore);
      ("HT_OVER_0_5", gt_lit htTotalGoals 0.5);
      ("HT_UNDER_0_5", lt_lit htTotalGoals 0.5);
      ("HT_OVER_1_5", gt_lit htTotalGoals 1.5);
      ("HT_UNDER_1_5", lt_lit htTotalGoals 1.5);
      ("HT_BTTS_YES", (htHomeScore >? 0) && (htAwayScore >? 0));
      ("HT_BTTS_NO", (htHomeScore =? 0) || (htAwayScore =? 0));
      ("HANDICAP_1_MINUS_1", (difference homeScore 1) >? awayScore);
      ("HANDICAP_1_MINUS_2", (difference homeScore 2) >? awayScore);
      ("HANDICAP_2_MINUS_1", homeScore <? (difference awayScore 1));
      ("HANDICAP_2_MINUS_2", homeScore <? (difference awayScore 2));
      ("WIN_BOTH_HALVES_1",
        let secondHalfHome := difference homeScore htHomeScore in
        let secondHalfAway := difference awayScore htAwayScore in
        (htHomeScore >? htAwayScore) && (secondHalfHome >? secondHalfAway));
      ("WIN_BOTH_HALVES_2",
        let secondHalfHome := difference homeScore htHomeScore in
        let secondHalfAway := difference awayScore htAwayScore in
        (htAwayScore >? htHomeScore) && (secondHalfAway >? secondHalfHome));
      ("WIN_EITHER_HALF_1",
        let secondHalfHome := difference homeScore htHomeScore in
        let secondHalfAway := difference awayScore htAwayScore in
        (htHomeScore >? htAwayScore) || (secondHalfHome >? secondHalfAway));
      ("WIN_EITHER_HALF_2",
        let secondHalfHome := difference homeScore htHomeScore in
        let secondHalfAway := difference awayScore htAwayScore in
        (htAwayScore >? htHomeScore) || (secondHalfAway >? secondHalfHome)) ]
    false.

Definition isBetPush (marketType : string) (homeScore awayScore : Z) : bool :=
  switch marketType
    [ ("DNB_1", homeScore =? awayScore);
      ("DNB_2", homeScore =? awayScore) ]
    false.

(** The inner [for] loop over a bet's selections, given the flags so far;
returns [(allSelectionsWon, hasAnyPush)].  [continue] skips a selection whose
market is missing, [break] leaves the loop at the first selection on this
match that neither pushes nor wins. *)
Fixpoint scanSelections (s : MemStorage num) (matchId : Z) (mt : Match.t)
         (homeScore awayScore : Z)
         (selections : list (BetSelection.t num)) (hasAnyPush : bool)
  : bool * bool :=
  match selections with
  | [] => (true, hasAnyPush)
  | selection :: rest =>
      match JsMap.get (BetSelection.marketId selection) (markets s) with
      | None => scanSelections s matchId mt homeScore awayScore rest hasAnyPush
      | Some market =>
          if Market.matchId market =? matchId then
            let isWinner :=
              isBetWinner (Market.type market) homeScore awayScore
                          (or_zero (Match.htHomeScore mt))
                          (or_zero (Match.htAwayScore mt)) in
            let isPush := isBetPush (Market.type market) homeScore awayScore in
            if isPush then
              scanSelections s matchId mt homeScore awayScore rest true
            else if negb isWinner then (false, hasAnyPush)
            else scanSelections s matchId mt homeScore awayScore rest hasAnyPush
          else scanSelections s matchId mt homeScore awayScore rest hasAnyPush
      end
  end.

(** [Array.from(this.betSelections.values()).filter(s => s.betId === bet.id)] *)
Definition selectionsOf (s : MemStorage num) (betId : Z) : list (BetSelection.t num) :=
  filter (fun selection => BetSelection.betId selection =? betId)
         (JsMap.values (betSelections s)).

(** The status the outer loop passes to [resolveBet] for one pending bet. *)
Definition verdict (s : MemStorage num) (matchId : Z) (mt : Match.t)
           (homeScore awayScore : Z) (betId : Z) : string :=
  let '(allSelectionsWon, hasAnyPush) :=
    scanSelections s matchId mt homeScore awayScore (selectionsOf s betId) false in
  if allSelectionsWon then
    if hasAnyPush then "PUSH" else "WON"
  else "LOST".

(** Body of the outer loop for one bet of the snapshot: the call of
[resolveBet] is not awaited, so only its synchronous part runs here and its
jobs join the queue. *)
Definition settleBet (matchId : Z) (mt : Match.t) (homeScore awayScore : Z)
           (acc : MemStorage num * list (job num)) (bet : Bet.t num)
  : MemStorage num * list (job num) :=
  let '(s, q) := acc in
  if String.eqb (Bet.status bet) "PENDING" then
    let '(s', new) :=
      resolveBet (Bet.id bet) (verdict s matchId mt homeScore awayScore (Bet.id bet)) s in
    (s', q ++ new)
  else (s, q).

(** [matchesArray.find((match) => match.id === matchId)] *)
Definition findMatch (matchId : Z) (s : MemStorage num) : option Match.t :=
  let matchesArray := JsMap.values (matches s) in
  find (fun mt => Match.id mt =? matchId) matchesArray.

(** [resolveBetsForMatch(matchId)] up to its return. *)
Definition resolveBetsForMatch (matchId : Z) (s : MemStorage num)
  : MemStorage num * list (job num) :=
  match findMatch matchId s with
  | None => (s, [])
  | Some mt =>
      if negb (String.eqb (Match.status mt) "FINISHED") then (s, [])
      else
        match Match.homeScore mt, Match.awayScore mt with
        | Some homeScore, Some awayScore =>
            fold_left (settleBet matchId mt homeScore awayScore)
                      (JsMap.values (bets s)) (s, [])
        | _, _ => (s, [])
        end
  end.

(** [updateMatchStatus(id, status, homeScore?, awayScore?, htHomeScore?,
htAwayScore?)]: the returned match, the store and the jobs left behind by the
awaited [resolveBetsForMatch].  An omitted argument is [None]; the half-time
arguments may also be an explicit [null], [Some None]. *)
Definition updateMatchStatus (id : Z) (status : string)
           (homeScore awayScore : option Z)
           (htHomeScore htAwayScore : option (option Z)) (s : MemStorage num)
  : option Match.t * (MemStorage num * list (job num)) :=
  match getMatch id s with
  | None => (None, (s, []))
  | Some mt =>
      let updatedMatch :=
        Match.mk (Match.id mt) (Match.homeTeamId mt) (Match.awayTeamId mt)
                 (Match.leagueId mt)
                 (match homeScore with Some h => Some h | None => Match.homeScore mt end)
                 (match awayScore with Some a => Some a | None => Match.awayScore mt end)
                 (if_defined htHomeScore (Match.htHomeScore mt))
                 (if_defined htAwayScore (Match.htAwayScore mt))
                 status
                 (Match.isCustom mt) in
      let s' := set_matches s (JsMap.set id updatedMatch (matches s)) in
      if String.eqb status "FINISHED" then
        (Some updatedMatch, resolveBetsForMatch id s')
      else (Some updatedMatch, (s', []))
  end.

(** Whether the pass resolves [bet] to WON on behalf of user [uid]: the bet is
pending, belongs to [uid] and the loop over its selections says WON. *)
Definition wonFor (s : MemStorage num) (matchId : Z) (mt : Match.t)
           (homeScore awayScore : Z) (uid : Z) (bet : Bet.t num) : bool :=
  String.eqb (Bet.status bet) "PENDING"
  && (Bet.userId bet =? uid)
  && String.eqb (verdict s matchId mt homeScore awayScore (Bet.id bet)) "WON".

End Methods.

Arguments wonFor {num}.
Arguments set_users {num}.
Arguments set_matches {num}.
Arguments set_bets {num}.
Arguments getUser {num}.
Arguments getMatch {num}.
Arguments updateUserBalance {num}.
Arguments resolveBet_store {num}.
Arguments resolveBet {num}.
Arguments run_job {num}.
Arguments drain {num}.
Arguments job_weight {num}.
Arguments queue_weight {num}.
Arguments settle {num}.
Arguments scanSelections {num}.
Arguments selectionsOf {num}.
Arguments verdict {num}.
Arguments settleBet {num}.
Arguments findMatch {num}.
Arguments resolveBetsForMatch {num}.
Arguments updateMatchStatus {num}.

End Storage.

(* ================================================================== *)
(** ** Invariants of the maps and bookkeeping on jobs *)

Section WellFormed.
Variable num : Type.

(** [createUser], [createMatch] and [createBet] store every record under its
own fresh id, and every later [set] rewrites a record found under that key
with its id untouched. *)
Definition well_formed (s : MemStorage num) : bool :=
  JsMap.nodup_keys (bets s)
  && JsMap.keyed_by Bet.id (bets s)
  && JsMap.keyed_by User.id (users s)
  && JsMap.keyed_by Match.id (matches s).

(** The bet whose status a job is going to write, and the status. *)
Definition job_betId (j : job num) : Z :=
  match j with
  | AfterGetUser betId _ _ _ => betId
  | AfterInnerGetUser _ _ _ betId _ => betId
  | AfterUpdateUserBalance betId _ => betId
  end.

Definition job_status (j : job num) : string :=
  match j with
  | AfterGetUser _ status _ _ => status
  | AfterInnerGetUser _ _ _ _ status => status
  | AfterUpdateUserBalance _ status => status
  end.

(** Whether a job is going to write the balance stored under [uid]. *)
Definition credits (uid : Z) (j : job num) : bool :=
  match j with
  | AfterGetUser _ _ _ (Some u) => User.id u =? uid
  | AfterGetUser _ _ _ None => false
  | AfterInnerGetUser id _ _ _ _ => id =? uid
  | AfterUpdateUserBalance _ _ => false
  end.

(** Whether a job is the rest of an [updateUserBalance] call. *)
Definition is_update (j : job num) : bool :=
  match j with
  | AfterInnerGetUser _ _ _ _ _ => true
  | _ => false
  end.

(** Where bet [k] stands while the pass and the queue run.  It is on course
for status [st] when every job heading for it carries [st] and the bet is
either still as it was ([v0]) or already carries [st]; it is under way when
a job is heading for it or it already carries [st]. *)
Definition on_course (k : Z) (st : string) (v0 : option (Bet.t num))
           (s : MemStorage num) (q : list (job num)) : Prop :=
  (forall j, In j q -> job_betId j = k -> job_status j = st)
  /\ (JsMap.get k (bets s) = v0
      \/ JsMap.get k (bets s) = option_map (fun b => Bet.with_status b st) v0).

Definition under_way (k : Z) (st : string) (v0 : option (Bet.t num))
           (s : MemStorage num) (q : list (job num)) : Prop :=
  (exists j, In j q /\ job_betId j = k)
  \/ JsMap.get k (bets s) = option_map (fun b => Bet.with_status b st) v0.

(** Bet [k] is idle when it is as it was ([v0]) and no job is heading for
it. *)
Definition idle (k : Z) (v0 : option (Bet.t num))
           (s : MemStorage num) (q : list (job num)) : Prop :=
  JsMap.get k (bets s) = v0 /\ forall j, In j q -> job_betId j <> k.

End WellFormed.
Arguments well_formed {num}.
Arguments idle {num}.
Arguments on_course {num}.
Arguments under_way {num}.
Arguments job_betId {num}.
Arguments job_status {num}.
Arguments credits {num}.
Arguments is_update {num}.

(* ================================================================== *)
(** ** The specification's wording *)

Module Spec.

(** The market types of the rule table of section 4.1. *)
Definition market_types : list string :=
  [ "1"; "X"; "2";
    "OVER_1_5"; "UNDER_1_5"; "OVER_2_5"; "UNDER_2_5"; "OVER_3_5"; "UNDER_3_5";
    "BTTS_YES"; "BTTS_NO"; "DNB_1"; "DNB_2"; "DC_1X"; "DC_12"; "DC_X2";
    "HT_1"; "HT_X"; "HT_2";
    "HT_OVER_0_5"; "HT_UNDER_0_5"; "HT_OVER_1_5"; "HT_UNDER_1_5";
    "HT_BTTS_YES"; "HT_BTTS_NO";
    "HANDICAP_1_MINUS_1"; "HANDICAP_1_MINUS_2";
    "HANDICAP_2_MINUS_1"; "HANDICAP_2_MINUS_2";
    "WIN_BOTH_HALVES_1"; "WIN_BOTH_HALVES_2";
    "WIN_EITHER_HALF_1"; "WIN_EITHER_HALF_2" ].

(** The WIN column of the rule table, one constructor per row; [home], [away]
are the full-time and [htHome], [htAway] the half-time scores. *)
Inductive Win (home away htHome htAway : Z) : string -> Prop :=
| Win_1 : home > away -> Win home away htHome htAway "1"
| Win_X : home = away -> Win home away htHome htAway "X"
| Win_2 : away > home -> Win home away htHome htAway "2"
| Win_OVER_1_5 : (inject_Z (home + away) > 1.5)%Q ->
    Win home away htHome htAway "OVER_1_5"
| Win_UNDER_1_5 : (inject_Z (home + away) < 1.5)%Q ->
    Win home away htHome htAway "UNDER_1_5"
| Win_OVER_2_5 : (inject_Z (home + away) > 2.5)%Q ->
    Win home away htHome htAway "OVER_2_5"
| Win_UNDER_2_5 : (inject_Z (home + away) < 2.5)%Q ->
    Win home away htHome htAway "UNDER_2_5"
| Win_OVER_3_5 : (inject_Z (home + away) > 3.5)%Q ->
    Win home away htHome htAway "OVER_3_5"
| Win_UNDER_3_5 : (inject_Z (home + away) < 3.5)%Q ->
    Win home away htHome htAway "UNDER_3_5"
| Win_BTTS_YES : home > 0 /\ away > 0 -> Win home away htHome htAway "BTTS_YES"
| Win_BTTS_NO : home = 0 \/ away = 0 -> Win home away htHome htAway "BTTS_NO"
| Win_DNB_1 : home > away -> Win home away htHome htAway "DNB_1"
| Win_DNB_2 : away > home -> Win home away htHome htAway "DNB_2"
| Win_DC_1X : home >= away -> Win home away htHome htAway "DC_1X"
| Win_DC_12 : home <> away -> Win home away htHome htAway "DC_12"
| Win_DC_X2 : away >= home -> Win home away htHome htAway "DC_X2"
| Win_HT_1 : htHome > htAway -> Win home away htHome htAway "HT_1"
| Win_HT_X : htHome = htAway -> Win home away htHome htAway "HT_X"
| Win_HT_2 : htAway > htHome -> Win home away htHome htAway "HT_2"
| Win_HT_OVER_0_5 : (inject_Z (htHome + htAway) > 0.5)%Q ->
    Win home away htHome htAway "HT_OVER_0_5"
| Win_HT_UNDER_0_5 : (inject_Z (htHome + htAway) < 0.5)%Q ->
    Win home away htHome htAway "HT_UNDER_0_5"
| Win_HT_OVER_1_5 : (inject_Z (htHome + htAway) > 1.5)%Q ->
    Win home away htHome htAway "HT_OVER_1_5"
| Win_HT_UNDER_1_5 : (inject_Z (htHome + htAway) < 1.5)%Q ->
    Win home away htHome htAway "HT_UNDER_1_5"
| Win_HT_BTTS_YES : htHome > 0 /\ htAway > 0 ->
    Win home away htHome htAway "HT_BTTS_YES"
| Win_HT_BTTS_NO : htHome = 0 \/ htAway = 0 ->
    Win home away htHome htAway "HT_BTTS_NO"
| Win_HANDICAP_1_MINUS_1 : home - 1 > away ->
    Win home away htHome htAway "HANDICAP_1_MINUS_1"
| Win_HANDICAP_1_MINUS_2 : home - 2 > away ->
    Win home away htHome htAway "HANDICAP_1_MINUS_2"
| Win_HANDICAP_2_MINUS_1 : home < away - 1 ->
    Win home away htHome htAway "HANDICAP_2_MINUS_1"
| Win_HANDICAP_2_MINUS_2 : home < away - 2 ->
    Win home away htHome htAway "HANDICAP_2_MINUS_2"
| Win_BOTH_HALVES_1 :
    htHome > htAway /\ home - htHome > away - htAway ->
    Win home away htHome htAway "WIN_BOTH_HALVES_1"
| Win_BOTH_HALVES_2 :
    htAway > htHome /\ away - htAway > home - htHome ->
    Win home away htHome htAway "WIN_BOTH_HALVES_2"
| Win_EITHER_HALF_1 :
    htHome > htAway \/ home - htHome > away - htAway ->
    Win home away htHome htAway "WIN_EITHER_HALF_1"
| Win_EITHER_HALF_2 :
    htAway > htHome \/ away - htAway > home - htHome ->
    Win home away htHome htAway "WIN_EITHER_HALF_2".

(** The push rule: only [DNB_1] and [DNB_2], exactly on a draw. *)
Definition Push (marketType : string) (home away : Z) : Prop :=
  (marketType = "DNB_1" \/ marketType = "DNB_2") /\ home = away.

(** The aggregation rule over the outcomes [(isWinner, isPush)] of the
selections that count: LOST if one of them is neither a winner nor a push,
otherwise PUSH if one of them is a push, otherwise WON. *)
Definition aggregate (outcomes : list (bool * bool)) : string :=
  if existsb (fun o => negb (fst o) && negb (snd o)) outcomes then "LOST"
  else if existsb snd outcomes then "PUSH"
  else "WON".

(** A half-time score as the rules read it: a score that was never entered
counts as 0. *)
Definition halfTime (score : option Z) : Z :=
  match score with
  | Some goals => goals
  | None => 0
  end.

(** The scores for which the rule table is claimed: non-negative integers
that doubles hold exactly together with their sums and differences. *)
Definition safe (score : Z) : Prop := 0 <= score <= Js.MAX_SAFE_INTEGER.

Section Aggregation.
Variable num : Type.

(** The markets of the selections that count for bet [betId] and match
[matchId]: the selection names the bet as its own, its market exists and the
market belongs to that match. *)
Definition countedMarkets (s : MemStorage num) (matchId betId : Z)
  : list (Market.t num) :=
  flat_map
    (fun selection =>
       match JsMap.get (BetSelection.marketId selection) (markets s) with
       | Some market => if Market.matchId market =? matchId then [market] else []
       | None => []
       end)
    (filter (fun selection => BetSelection.betId selection =? betId)
            (JsMap.values (betSelections s))).

(** The status the claim assigns to a pending bet once match [mt] has
finished [homeScore]-[awayScore]; the half-time markets are judged on the
half-time score of the match, a side without one having scored 0 by then. *)
Definition expectedStatus (s : MemStorage num) (mt : Match.t)
           (homeScore awayScore : Z) (betId : Z) : string :=
  aggregate
    (map (fun market =>
            (Storage.isBetWinner (Market.type market) homeScore awayScore
                                 (halfTime (Match.htHomeScore mt))
                                 (halfTime (Match.htAwayScore mt)),
             Storage.isBetPush (Market.type market) homeScore awayScore))
         (countedMarkets s (Match.id mt) betId)).

End Aggregation.

Arguments countedMarkets {num}.
Arguments expectedStatus {num}.

End Spec.

(* ================================================================== *)
(** ** Concrete stores, with money in [Q] *)

Module Scenario.

(** The default user of [initializeDefaultData], after placing bets. *)
Definition user1 : User.t Q := User.mk 1 "user" "password" 1000%Q.

Definition upcoming (id : Z) : Match.t :=
  Match.mk id (Some 1) (Some 2) 1 None None None None "UPCOMING" false.

Definition finished (id home away : Z) : Match.t :=
  Match.mk id (Some 1) (Some 2) 1 (Some home) (Some away) None None "FINISHED" false.

(** Scenario 1 of the specification: one bet of stake 10 with a single
selection on the home-win market of match 1 at odds 1.85. *)
Definition single : MemStorage Q :=
  mkStorage
    [ (1, user1) ]
    [ (1, upcoming 1) ]
    [ (1, Market.mk 1 1 "1" 1.85%Q false) ]
    [ (1, Bet.mk 1 1 10%Q 1.85%Q 18.5%Q "PENDING") ]
    [ (1, BetSelection.mk 1 1 1 1.85%Q) ].

(** Match 1 has finished 2-1; match 2 has not been played.  Both pending
bets belong to user 1 and neither has a leg on match 1: bet 1 backs the away
side of match 2, bet 2 points at a market that no longer exists. *)
Definition unrelated : MemStorage Q :=
  mkStorage
    [ (1, user1) ]
    [ (1, finished 1 2 1); (2, upcoming 2) ]
    [ (7, Market.mk 7 2 "2" 2.5%Q false) ]
    [ (1, Bet.mk 1 1 10%Q 2.5%Q 25%Q "PENDING");
      (2, Bet.mk 2 1 4%Q 3%Q 12%Q "PENDING") ]
    [ (1, BetSelection.mk 1 1 7 2.5%Q);
      (2, BetSelection.mk 2 2 99 3%Q) ].

(** Match 1 has finished 2-1 and bet 1, a home win at 1.85, has already been
settled as WON and paid (balance 1000 + 18.5). *)
Definition settled : MemStorage Q :=
  mkStorage
    [ (1, User.mk 1 "user" "password" 1018.5%Q) ]
    [ (1, finished 1 2 1) ]
    [ (1, Market.mk 1 1 "1" 1.85%Q false) ]
    [ (1, Bet.mk 1 1 10%Q 1.85%Q 18.5%Q "WON") ]
    [ (1, BetSelection.mk 1 1 1 1.85%Q) ].

(** An accumulator over match 1 (finished 1-1) and match 2 (not played):
draw-no-bet on the home side of match 1, home win of match 2. *)
Definition accumulator : MemStorage Q :=
  mkStorage
    [ (1, user1) ]
    [ (1, finished 1 1 1); (2, upcoming 2) ]
    [ (1, Market.mk 1 1 "DNB_1" 1.4%Q false);
      (2, Market.mk 2 2 "1" 2%Q false) ]
    [ (1, Bet.mk 1 1 10%Q 2.8%Q 28%Q "PENDING") ]
    [ (1, BetSelection.mk 1 1 1 1.4%Q);
      (2, BetSelection.mk 2 1 2 2%Q) ].

(** Match 1 has finished 2-1 after 1-0 at half time.  Bet 1 backs the home
side at half time, bet 2 the away side at full time; both are pending. *)
Definition half_time : MemStorage Q :=
  mkStorage
    [ (1, user1) ]
    [ (1, Match.mk 1 (Some 1) (Some 2) 1 (Some 2) (Some 1) (Some 1) (Some 0)
                   "FINISHED" false) ]
    [ (1, Market.mk 1 1 "HT_1" 2.1%Q false);
      (2, Market.mk 2 1 "2" 4.2%Q false) ]
    [ (1, Bet.mk 1 1 10%Q 2.1%Q 21%Q "PENDING");
      (2, Bet.mk 2 1 5%Q 4.2%Q 21%Q "PENDING") ]
    [ (1, BetSelection.mk 1 1 1 2.1%Q);
      (2, BetSelection.mk 2 2 2 4.2%Q) ].


End Scenario.

(* ================================================================== *)
(** ** The rest of the storage module

    The other methods of [MemStorage] that read or write the five maps.
    They take their ids from counters ([this.currentBetID++], ...), so the
    store is paired with the counters.  Each of these methods awaits every
    call it makes and leaves no job behind; run on its own it is a function
    of the store. *)

Module JsMapMore.

(** [m.delete(k)]. *)
Definition delete {V : Type} (k : Z) (m : JsMap.t V) : JsMap.t V :=
  filter (fun kv => negb (fst kv =? k)) m.

(** Every key is below [bound]: [bound] has not been handed out yet. *)
Definition keys_below {V : Type} (bound : Z) (m : JsMap.t V) : bool :=
  forallb (fun kv => fst kv <? bound) m.

(** [m'] holds the keys of [m] in the same order, with values related by
[R]. *)
Definition related {V : Type} (R : V -> V -> Prop) (m m' : JsMap.t V) : Prop :=
  Forall2 (fun kv kv' => fst kv = fst kv' /\ R (snd kv) (snd kv')) m m'.

End JsMapMore.

Record Ids : Type := mkIds
  { currentUserID : Z;
    currentMatchID : Z;
    currentMarketID : Z;
    currentBetID : Z;
    currentBetSelectionID : Z }.

Record Server (num : Type) : Type := mkServer
  { store : MemStorage num;
    ids : Ids }.
Arguments mkServer {num}.
Arguments store {num}.
Arguments ids {num}.

(** The insert types of [shared/schema.ts]; an optional field that may be
left out is an [option]. *)
Module InsertMatch.
Record t : Type := mk
  { homeTeamId : option Z;
    awayTeamId : option Z;
    leagueId : Z;
    homeScore : option Z;
    awayScore : option Z;
    htHomeScore : option Z;
    htAwayScore : option Z;
    status : option string;
    isCustom : option bool }.
End InsertMatch.

Module InsertMarket.
Record t (num : Type) : Type := mk
  { matchId : Z; type : string; odds : num; isLocked : option bool }.
Arguments mk {num}.
Arguments matchId {num}.
Arguments type {num}.
Arguments odds {num}.
Arguments isLocked {num}.
End InsertMarket.

Module InsertBet.
Record t (num : Type) : Type := mk
  { userId : Z;
    stake : num;
    totalOdds : num;
    potentialWin : num;
    status : option string }.
Arguments mk {num}.
Arguments userId {num}.
Arguments stake {num}.
Arguments totalOdds {num}.
Arguments potentialWin {num}.
Arguments status {num}.
End InsertBet.

Module InsertBetSelection.
Record t (num : Type) : Type := mk
  { betId : Z; marketId : Z; odds : num }.
Arguments mk {num}.
Arguments betId {num}.
Arguments marketId {num}.
Arguments odds {num}.
End InsertBetSelection.

Module Crud.
Import Js.

(** [v || null] for an optional integer: 0 is falsy. *)
Definition or_null (v : option Z) : option Z :=
  match v with
  | Some 0 => None
  | _ => v
  end.

(** [v || d] for an optional string: the empty string is falsy. *)
Definition or_string (v : option string) (d : string) : string :=
  match v with
  | Some EmptyString => d
  | Some s => s
  | None => d
  end.

(** [v || false] for an optional boolean. *)
Definition or_false (v : option bool) : bool :=
  match v with
  | Some b => b
  | None => false
  end.

Section Methods.
Variable num : Type.

Definition set_markets (s : MemStorage num) (m : JsMap.t (Market.t num))
  : MemStorage num :=
  mkStorage (users s) (matches s) m (bets s) (betSelections s).

Definition set_betSelections (s : MemStorage num)
           (m : JsMap.t (BetSelection.t num)) : MemStorage num :=
  mkStorage (users s) (matches s) (markets s) (bets s) m.

Definition next_match (i : Ids) : Ids :=
  mkIds (currentUserID i) (currentMatchID i + 1) (currentMarketID i)
        (currentBetID i) (currentBetSelectionID i).

Definition next_market (i : Ids) : Ids :=
  mkIds (currentUserID i) (currentMatchID i) (currentMarketID i + 1)
        (currentBetID i) (currentBetSelectionID i).

Definition next_bet (i : Ids) : Ids :=
  mkIds (currentUserID i) (currentMatchID i) (currentMarketID i)
        (currentBetID i + 1) (currentBetSelectionID i).

Definition with_selection_id (i : Ids) (n : Z) : Ids :=
  mkIds (currentUserID i) (currentMatchID i) (currentMarketID i)
        (currentBetID i) n.

(** [updateUserBalance(id, balance)] awaited by its caller: the user as
updated, or [undefined] and no change when the id is unknown. *)
Definition updateUserBalance (id : Z) (balance : num) (s : MemStorage num)
  : option (User.t num) * MemStorage num :=
  match Storage.getUser id s with
  | None => (None, s)
  | Some user =>
      let updatedUser := User.with_balance user balance in
      (Some updatedUser, Storage.set_users s (JsMap.set id updatedUser (users s)))
  end.

(** [createMatch(insertMatch)] *)
Definition createMatch (insertMatch : InsertMatch.t) (sv : Server num)
  : Match.t * Server num :=
  let id := currentMatchID (ids sv) in
  let mt :=
    Match.mk id
             (or_null (InsertMatch.homeTeamId insertMatch))
             (or_null (InsertMatch.awayTeamId insertMatch))
             (InsertMatch.leagueId insertMatch)
             (or_null (InsertMatch.homeScore insertMatch))
             (or_null (InsertMatch.awayScore insertMatch))
             (InsertMatch.htHomeScore insertMatch)
             (InsertMatch.htAwayScore insertMatch)
             (or_string (InsertMatch.status insertMatch) "UPCOMING")
             (or_false (InsertMatch.isCustom insertMatch)) in
  (mt,
   mkServer (Storage.set_matches (store sv) (JsMap.set id mt (matches (store sv))))
            (next_match (ids sv))).

(** [getMarketsByMatchId(matchId)] *)
Definition getMarketsByMatchId (matchId : Z) (s : MemStorage num)
  : list (Market.t num) :=
  filter (fun market => Market.matchId market =? matchId)
         (JsMap.values (markets s)).

Definition getMarket (id : Z) (s : MemStorage num) : option (Market.t num) :=
  JsMap.get id (markets s).

(** [deleteMatch(id)]: the markets of the match go first, then the match. *)
Definition deleteMatch (id : Z) (s : MemStorage num) : bool * MemStorage num :=
  match Storage.getMatch id s with
  | None => (false, s)
  | Some _ =>
      let markets' :=
        fold_left (fun m market => JsMapMore.delete (Market.id market) m)
                  (getMarketsByMatchId id s) (markets s) in
      (true,
       Storage.set_matches (set_markets s markets')
                           (JsMapMore.delete id (matches s)))
  end.

(** [createMarket(insertMarket)] *)
Definition createMarket (insertMarket : InsertMarket.t num) (sv : Server num)
  : Market.t num * Server num :=
  let id := currentMarketID (ids sv) in
  let market :=
    Market.mk id (InsertMarket.matchId insertMarket)
              (InsertMarket.type insertMarket) (InsertMarket.odds insertMarket)
              (or_false (InsertMarket.isLocked insertMarket)) in
  (market,
   mkServer (set_markets (store sv) (JsMap.set id market (markets (store sv))))
            (next_market (ids sv))).

(** [toggleMarketLock(id, isLocked)] *)
Definition toggleMarketLock (id : Z) (isLocked : bool) (s : MemStorage num)
  : option (Market.t num) * MemStorage num :=
  match getMarket id s with
  | None => (None, s)
  | Some market =>
      let updatedMarket :=
        Market.mk (Market.id market) (Market.matchId market)
                  (Market.type market) (Market.odds market) isLocked in
      (Some updatedMarket,
       set_markets s (JsMap.set id updatedMarket (markets s)))
  end.

(** [getBetsByUserId(userId)] *)
Definition getBetsByUserId (userId : Z) (s : MemStorage num)
  : list (Bet.t num) :=
  filter (fun bet => Bet.userId bet =? userId) (JsMap.values (bets s)).

Definition getBet (id : Z) (s : MemStorage num) : option (Bet.t num) :=
  JsMap.get id (bets s).

(** The loop of [createBet] over [selectionInserts]: every selection gets the
next selection id and the id of the new bet, whatever [betId] it came with. *)
Definition createSelection (betId : Z)
           (acc : JsMap.t (BetSelection.t num) * Z)
           (selectionInsert : InsertBetSelection.t num)
  : JsMap.t (BetSelection.t num) * Z :=
  let '(selections, selectionId) := acc in
  let selection :=
    BetSelection.mk selectionId betId
                    (InsertBetSelection.marketId selectionInsert)
                    (InsertBetSelection.odds selectionInsert) in
  (JsMap.set selectionId selection selections, selectionId + 1).

(** The selections the loop stores for bet [betId] when the next selection
id is [selectionId]. *)
Fixpoint selectionsFrom (betId selectionId : Z)
         (selectionInserts : list (InsertBetSelection.t num))
  : list (BetSelection.t num) :=
  match selectionInserts with
  | [] => []
  | selectionInsert :: rest =>
      BetSelection.mk selectionId betId
                      (InsertBetSelection.marketId selectionInsert)
                      (InsertBetSelection.odds selectionInsert)
      :: selectionsFrom betId (selectionId + 1) rest
  end.

(** [createBet(insertBet, selectionInserts)] *)
Definition createBet (insertBet : InsertBet.t num)
           (selectionInserts : list (InsertBetSelection.t num))
           (sv : Server num) : Bet.t num * Server num :=
  let id := currentBetID (ids sv) in
  let bet :=
    Bet.mk id (InsertBet.userId insertBet) (InsertBet.stake insertBet)
           (InsertBet.totalOdds insertBet) (InsertBet.potentialWin insertBet)
           (or_string (InsertBet.status insertBet) "PENDING") in
  let s1 := Storage.set_bets (store sv) (JsMap.set id bet (bets (store sv))) in
  let '(selections, nextSelectionId) :=
    fold_left (createSelection id) selectionInserts
              (betSelections s1, currentBetSelectionID (ids sv)) in
  (bet,
   mkServer (set_betSelections s1 selections)
            (with_selection_id (next_bet (ids sv)) nextSelectionId)).

(** [deleteBet(id)]: the bet goes, its selections stay. *)
Definition deleteBet (id : Z) (s : MemStorage num) : bool * MemStorage num :=
  match JsMap.get id (bets s) with
  | None => (false, s)
  | Some _ => (true, Storage.set_bets s (JsMapMore.delete id (bets s)))
  end.

(** What the constructors and every later write keep: each map holds a key
once, each record sits under its own id, no key has reached its counter, and
no selection names a bet id that is still to be handed out. *)
Definition consistent (sv : Server num) : bool :=
  let s := store sv in
  JsMap.nodup_keys (users s) && JsMap.keyed_by User.id (users s)
  && JsMap.nodup_keys (matches s) && JsMap.keyed_by Match.id (matches s)
  && JsMap.nodup_keys (markets s) && JsMap.keyed_by Market.id (markets s)
  && JsMap.nodup_keys (bets s) && JsMap.keyed_by Bet.id (bets s)
  && JsMap.nodup_keys (betSelections s)
  && JsMap.keyed_by BetSelection.id (betSelections s)
  && JsMapMore.keys_below (currentMatchID (ids sv)) (matches s)
  && JsMapMore.keys_below (currentMarketID (ids sv)) (markets s)
  && JsMapMore.keys_below (currentBetID (ids sv)) (bets s)
  && JsMapMore.keys_below (currentBetSelectionID (ids sv)) (betSelections s)
  && forallb (fun selection =>
                BetSelection.betId selection <? currentBetID (ids sv))
             (JsMap.values (betSelections s)).

End Methods.

Arguments set_markets {num}.
Arguments set_betSelections {num}.
Arguments updateUserBalance {num}.
Arguments createMatch {num}.
Arguments getMarketsByMatchId {num}.
Arguments getMarket {num}.
Arguments deleteMatch {num}.
Arguments createMarket {num}.
Arguments toggleMarketLock {num}.
Arguments getBetsByUserId {num}.
Arguments getBet {num}.
Arguments createSelection {num}.
Arguments selectionsFrom {num}.
Arguments createBet {num}.
Arguments deleteBet {num}.
Arguments consistent {num}.

End Crud.

(** What settlement leaves of a user and of a bet: everything but the
balance, everything but the status. *)
Definition same_account {num : Type} (u u' : User.t num) : Prop :=
  User.id u = User.id u'
  /\ User.username u = User.username u'
  /\ User.password u = User.password u'.

Definition same_wager {num : Type} (b b' : Bet.t num) : Prop :=
  Bet.id b = Bet.id b'
  /\ Bet.userId b = Bet.userId b'
  /\ Bet.stake b = Bet.stake b'
  /\ Bet.totalOdds b = Bet.totalOdds b'
  /\ Bet.potentialWin b = Bet.potentialWin b'.

(** The second half of an [updateUserBalance] call fits the store when the
user it has read is still stored under the id it is going to write, whatever
the balance has become since. *)
Definition job_fits {num : Type} (s : MemStorage num) (j : job num) : Prop :=
  match j with
  | AfterInnerGetUser id _ (Some u) _ _ =>
      exists u', JsMap.get id (users s) = Some u' /\ same_account u' u
  | _ => True
  end.

(** A store [s'] that settlement can make of [s]: the same matches, markets
and selections, the same users up to their balances and the same bets up to
their statuses. *)
Definition settled_from {num : Type} (s s' : MemStorage num) : Prop :=
  matches s' = matches s /\ markets s' = markets s
  /\ betSelections s' = betSelections s
  /\ JsMapMore.related same_account (users s) (users s')
  /\ JsMapMore.related same_wager (bets s) (bets s').

(* ================================================================== *)
(** ** The route that places a bet ([POST /api/bets])

    The handler after [insertBetSchema.omit({ userId: true }).parse(req.body)]
    has succeeded: [betData] is the parsed body and [selections] the market
    ids of [req.body.selections].  Every storage call of the handler is
    awaited.  [sub] is the subtraction and [ltb] the comparison [<] of
    JavaScript numbers. *)

Module BetData.
Record t (num : Type) : Type := mk
  { stake : num; totalOdds : num; potentialWin : num; status : option string }.
Arguments mk {num}.
Arguments stake {num}.
Arguments totalOdds {num}.
Arguments potentialWin {num}.
Arguments status {num}.
End BetData.

Module Routes.

(** The answers of the handler: 201 with the bet, 400 "At least one selection
is required", 404 "User not found", 400 "Insufficient balance" and 400
"Market with ID ... not found". *)
Inductive placeBetResponse (num : Type) : Type :=
| Created (bet : Bet.t num)
| SelectionRequired
| UserNotFound
| InsufficientBalance
| MarketNotFound (marketId : Z).
Arguments Created {num}.
Arguments SelectionRequired {num}.
Arguments UserNotFound {num}.
Arguments InsufficientBalance {num}.
Arguments MarketNotFound {num}.

Section Handlers.
Variable num : Type.
Variable sub : num -> num -> num.
Variable ltb : num -> num -> bool.

(** The loop that validates the selections: it stops at the first market id
without a market; a valid selection takes its odds from the market. *)
Fixpoint validateSelections (selections : list Z) (s : MemStorage num)
  : Z + list (InsertBetSelection.t num) :=
  match selections with
  | [] => inr []
  | marketId :: rest =>
      match Crud.getMarket marketId s with
      | None => inl marketId
      | Some market =>
          match validateSelections rest s with
          | inl missing => inl missing
          | inr validSelections =>
              inr (InsertBetSelection.mk 0 (Market.id market) (Market.odds market)
                   :: validSelections)
          end
      end
  end.

Definition placeBet (betData : BetData.t num) (selections : list Z)
           (sv : Server num) : placeBetResponse num * Server num :=
  match selections with
  | [] => (SelectionRequired, sv)
  | _ :: _ =>
      match Storage.getUser 1 (store sv) with
      | None => (UserNotFound, sv)
      | Some user =>
          if ltb (User.balance user) (BetData.stake betData) then
            (InsufficientBalance, sv)
          else
            match validateSelections selections (store sv) with
            | inl marketId => (MarketNotFound marketId, sv)
            | inr validSelections =>
                let '(bet, sv1) :=
                  Crud.createBet
                    (InsertBet.mk (User.id user) (BetData.stake betData)
                                  (BetData.totalOdds betData)
                                  (BetData.potentialWin betData)
                                  (BetData.status betData))
                    validSelections sv in
                let '(_, s2) :=
                  Crud.updateUserBalance
                    (User.id user)
                    (sub (User.balance user) (BetData.stake betData))
                    (store sv1) in
                (Created bet, mkServer s2 (ids sv1))
            end
      end
  end.

End Handlers.

Arguments validateSelections {num}.
Arguments placeBet {num}.

End Routes.

(* ================================================================== *)
(** ** Calls one after the other

    The calls the routes make on the storage, each run until the jobs it
    leaves behind are done before the next one starts. *)

Module Api.
Section Calls.
Variable num : Type.
Variables (add sub : num -> num -> num) (ltb : num -> num -> bool).

(** The store once the jobs a call has left behind have all run. *)
Definition settled (r : MemStorage num * list (job num)) : MemStorage num :=
  fst (Storage.drain add (Storage.queue_weight (snd r)) (snd r) (fst r)).

Inductive call : Type :=
| CreateMatch (insertMatch : InsertMatch.t)
| UpdateMatchStatus (id : Z) (status : string) (homeScore awayScore : option Z)
                    (htHomeScore htAwayScore : option (option Z))
| DeleteMatch (id : Z)
| CreateMarket (insertMarket : InsertMarket.t num)
| ToggleMarketLock (id : Z) (isLocked : bool)
| CreateBet (insertBet : InsertBet.t num)
            (selectionInserts : list (InsertBetSelection.t num))
| ResolveBet (betId : Z) (status : string)
| DeleteBet (id : Z)
| UpdateUserBalance (id : Z) (balance : num)
| PlaceBet (betData : BetData.t num) (selections : list Z).

Definition run_call (c : call) (sv : Server num) : Server num :=
  match c with
  | CreateMatch insertMatch => snd (Crud.createMatch insertMatch sv)
  | UpdateMatchStatus id status homeScore awayScore htHomeScore htAwayScore =>
      mkServer
        (settled (snd (Storage.updateMatchStatus id status homeScore awayScore
                                                 htHomeScore htAwayScore (store sv))))
        (ids sv)
  | DeleteMatch id => mkServer (snd (Crud.deleteMatch id (store sv))) (ids sv)
  | CreateMarket insertMarket => snd (Crud.createMarket insertMarket sv)
  | ToggleMarketLock id isLocked =>
      mkServer (snd (Crud.toggleMarketLock id isLocked (store sv))) (ids sv)
  | CreateBet insertBet selectionInserts =>
      snd (Crud.createBet insertBet selectionInserts sv)
  | ResolveBet betId status =>
      mkServer (settled (Storage.resolveBet betId status (store sv))) (ids sv)
  | DeleteBet id => mkServer (snd (Crud.deleteBet id (store sv))) (ids sv)
  | UpdateUserBalance id balance =>
      mkServer (snd (Crud.updateUserBalance id balance (store sv))) (ids sv)
  | PlaceBet betData selections =>
      snd (Routes.placeBet sub ltb betData selections sv)
  end.

Definition run_calls (cs : list call) (sv : Server num) : Server num :=
  fold_left (fun sv c => run_call c sv) cs sv.

End Calls.
Arguments settled {num}.
Arguments run_call {num}.
Arguments run_calls {num}.
Arguments CreateMatch {num}.
Arguments UpdateMatchStatus {num}.
Arguments DeleteMatch {num}.
Arguments CreateMarket {num}.
Arguments ToggleMarketLock {num}.
Arguments CreateBet {num}.
Arguments ResolveBet {num}.
Arguments DeleteBet {num}.
Arguments UpdateUserBalance {num}.
Arguments PlaceBet {num}.
End Api.

(* ================================================================== *)
(** ** The rest of the client

    [getMarketLabel] of [client/src/lib/utils.ts], the betting slip of
    [client/src/lib/betting-store.ts] with the [handleToggleBet] of the market
    lists, and the [checkBetResult] and [handleResolveBet] of the bet
    history page. *)

Module ClientLabels.
Import Js.

Definition getMarketLabel (marketType : string) : string :=
  switch marketType
    [ ("1", "Casa");
      ("X", "Empate");
      ("2", "Fora");
      ("OVER_1_5", "Mais de 1.5 Golos");
      ("UNDER_1_5", "Menos de 1.5 Golos");
      ("OVER_2_5", "Mais de 2.5 Golos");
      ("UNDER_2_5", "Menos de 2.5 Golos");
      ("OVER_3_5", "Mais de 3.5 Golos");
      ("UNDER_3_5", "Menos de 3.5 Golos");
      ("BTTS_YES", "Ambas Marcam - Sim");
      ("BTTS_NO", "Ambas Marcam - Não");
      ("DNB_1", "Casa (Empate Anula)");
      ("DNB_2", "Fora (Empate Anula)");
      ("DC_1X", "Casa ou Empate");
      ("DC_12", "Casa ou Fora");
      ("DC_X2", "Empate ou Fora");
      ("HT_1", "1º Tempo - Casa");
      ("HT_X", "1º Tempo - Empate");
      ("HT_2", "1º Tempo - Fora");
      ("HT_OVER_0_5", "1º Tempo - Mais de 0.5");
      ("HT_UNDER_0_5", "1º Tempo - Menos de 0.5");
      ("HT_OVER_1_5", "1º Tempo - Mais de 1.5");
      ("HT_UNDER_1_5", "1º Tempo - Menos de 1.5");
      ("HT_BTTS_YES", "1º Tempo - Ambas Marcam");
      ("HT_BTTS_NO", "1º Tempo - Nem Ambas Marcam");
      ("HANDICAP_1_MINUS_1", "Casa (-1)");
      ("HANDICAP_1_MINUS_2", "Casa (-2)");
      ("HANDICAP_2_MINUS_1", "Fora (-1)");
      ("HANDICAP_2_MINUS_2", "Fora (-2)");
      ("WIN_BOTH_HALVES_1", "Casa Vence Ambas as Partes");
      ("WIN_BOTH_HALVES_2", "Fora Vence Ambas as Partes");
      ("WIN_EITHER_HALF_1", "Casa Vence Pelo Menos Uma Parte");
      ("WIN_EITHER_HALF_2", "Fora Vence Pelo Menos Uma Parte") ]
    marketType.

End ClientLabels.

Module SlipSelection.
Record t (num : Type) : Type := mk
  { id : Z;
    matchId : Z;
    homeTeam : string;
    awayTeam : string;
    marketType : string;
    odds : num }.
Arguments mk {num}.
Arguments id {num}.
Arguments matchId {num}.
Arguments homeTeam {num}.
Arguments awayTeam {num}.
Arguments marketType {num}.
Arguments odds {num}.
End SlipSelection.

Module BettingStore.
Section Slip.
Variable num : Type.

(** [bets: [...state.bets, bet]] *)
Definition addBet (bet : SlipSelection.t num) (bets : list (SlipSelection.t num))
  : list (SlipSelection.t num) :=
  bets ++ [bet].

(** [bets: state.bets.filter(bet => bet.id !== id)] *)
Definition removeBet (id : Z) (bets : list (SlipSelection.t num))
  : list (SlipSelection.t num) :=
  filter (fun bet => negb (SlipSelection.id bet =? id)) bets.

(** [get().bets.some(bet => bet.id === id)] *)
Definition hasBet (id : Z) (bets : list (SlipSelection.t num)) : bool :=
  existsb (fun bet => SlipSelection.id bet =? id) bets.

(** [handleToggleBet(market)] of the market lists: a locked market only raises
a toast; otherwise the market leaves the slip if it is on it and joins it if
it is not. *)
Definition handleToggleBet (market : Market.t num) (matchId : Z)
           (homeTeam awayTeam : string) (bets : list (SlipSelection.t num))
  : list (SlipSelection.t num) :=
  if Market.isLocked market then bets
  else if hasBet (Market.id market) bets then removeBet (Market.id market) bets
  else addBet (SlipSelection.mk (Market.id market) matchId homeTeam awayTeam
                                (Market.type market) (Market.odds market))
              bets.

End Slip.
Arguments addBet {num}.
Arguments removeBet {num}.
Arguments hasBet {num}.
Arguments handleToggleBet {num}.
End BettingStore.

Module BetHistory.
Import Js.

(** A score as the page holds it: [undefined] once the input has been
cleared, [null] as long as the server has none, a number, or [NaN] when
[parseInt] finds no digit at the start of what was typed. *)
Inductive score : Type :=
| Undefined
| Null
| NotANumber
| Score (n : Z).





(** A selection as the page sees it: the type of its market and the scores of
the market's match. *)
Record selection : Type := mkSelection
  { marketType : string; homeScore : score; awayScore : score }.




End BetHistory.

(* ================================================================== *)
(** ** A concrete server, with money in [Q] *)

Module ScenarioMore.

(** The store of scenario 1 before the bet is placed: user 1 with 1000, match
1 not played, its home-win market at 1.85 and a locked away-win market. *)
Definition open_server : Server Q :=
  mkServer
    (mkStorage
       [ (1, Scenario.user1) ]
       [ (1, Scenario.upcoming 1) ]
       [ (1, Market.mk 1 1 "1" 1.85%Q false);
         (2, Market.mk 2 1 "2" 4.2%Q true) ]
       []
       [])
    (mkIds 2 2 3 1 1).

Definition Qltb (p q : Q) : bool := Js.Qltb p q.

(** The request of scenario 1: stake 10 on market 1 at total odds 1.85. *)
Definition bet_request : BetData.t Q :=
  BetData.mk 10%Q 1.85%Q 18.5%Q (Some "PENDING").

(** The bet that request creates, and the server once it has been accepted. *)
Definition placed_bet : Bet.t Q := Bet.mk 1 1 10%Q 1.85%Q 18.5%Q "PENDING".

Definition placed_server : Server Q :=
  snd (Routes.placeBet Qminus Qltb bet_request [1] open_server).

Definition home_market : Market.t Q := Market.mk 1 1 "1" 1.85%Q false.

(** A second bet, on the away side. *)
Definition away_bet : InsertBet.t Q := InsertBet.mk 1 5%Q 4.2%Q 21%Q None.

Definition away_selection : InsertBetSelection.t Q :=
  InsertBetSelection.mk 0 2 4.2%Q.

Definition empty_slip : list (SlipSelection.t Q) := [].

(** A match entered as finished 0-0. *)
Definition goalless : InsertMatch.t :=
  InsertMatch.mk (Some 1) (Some 2) 1 (Some 0) (Some 0) None None
                 (Some "FINISHED") None.

End ScenarioMore.

(* ================================================================== *)
(** * Proofs *)

(** ** Facts about [JsMap] *)

Module JsMapFacts.
Import JsMap.
Section Facts.
Context {V : Type}.
Implicit Types (m : JsMap.t V) (k : Z) (v : V).

Lemma get_set_same k v m : get k (set k v m) = Some v.
Proof.
  induction m as [|[k' v'] rest IH]; simpl.
  - now rewrite Z.eqb_refl.
  - destruct (Z.eqb_spec k' k) as [->|Hne]; simpl.
    + now rewrite Z.eqb_refl.
    + destruct (Z.eqb_spec k' k); [contradiction|exact IH].
Qed.

Lemma get_set_other k k' v m : k <> k' -> get k (set k' v m) = get k m.
Proof.
  intros Hne. induction m as [|[k0 v0] rest IH]; simpl.
  - destruct (Z.eqb_spec k' k); [congruence|reflexivity].
  - destruct (Z.eqb_spec k0 k') as [->|Hne0]; simpl.
    + destruct (Z.eqb_spec k' k); [congruence|reflexivity].
    + now rewrite IH.
Qed.

Lemma set_get_id k v m : get k m = Some v -> set k v m = m.
Proof.
  induction m as [|[k0 v0] rest IH]; simpl; [discriminate|].
  destruct (Z.eqb_spec k0 k) as [->|Hne]; intros H.
  - congruence.
  - now rewrite IH.
Qed.

Lemma keys_set_present k v v0 m : get k m = Some v0 -> keys (set k v m) = keys m.
Proof.
  induction m as [|[k0 v1] rest IH]; simpl; [discriminate|].
  destruct (Z.eqb_spec k0 k) as [->|Hne]; intros H; simpl.
  - reflexivity.
  - f_equal. now apply IH.
Qed.

Lemma get_In k v m : get k m = Some v -> In (k, v) m.
Proof.
  induction m as [|[k0 v0] rest IH]; simpl; [discriminate|].
  destruct (Z.eqb_spec k0 k) as [->|Hne]; intros H.
  - left. congruence.
  - right. now apply IH.
Qed.

Lemma get_None_keys k m : get k m = None <-> ~ In k (keys m).
Proof.
  induction m as [|[k0 v0] rest IH]; simpl.
  - tauto.
  - destruct (Z.eqb_spec k0 k) as [->|Hne].
    + split; [discriminate|]. intros H. exfalso. apply H. now left.
    + rewrite IH. split; intros H; [intros [E|E]; [contradiction|now apply H]|].
      intros E. apply H. now right.
Qed.

Lemma existsb_keys k m : existsb (Z.eqb k) (keys m) = true <-> In k (keys m).
Proof.
  rewrite existsb_exists. split.
  - intros [x [Hin E]]. apply Z.eqb_eq in E. now subst.
  - intros Hin. exists k. split; [exact Hin|apply Z.eqb_refl].
Qed.

Lemma In_get_nodup k v m : nodup_keys m = true -> In (k, v) m -> get k m = Some v.
Proof.
  induction m as [|[k0 v0] rest IH]; simpl; [tauto|].
  intros Hnd Hin. apply andb_true_iff in Hnd. destruct Hnd as [Hfresh Hnd].
  apply negb_true_iff in Hfresh.
  destruct Hin as [E|Hin].
  - inversion E; subst. now rewrite Z.eqb_refl.
  - destruct (Z.eqb_spec k0 k) as [->|Hne].
    + exfalso. assert (Hk : In k (keys rest)).
      { unfold keys. change k with (fst (k, v)). now apply in_map. }
      apply existsb_keys in Hk. congruence.
    + now apply IH.
Qed.

Lemma nodup_keys_ext m m' : keys m = keys m' -> nodup_keys m = nodup_keys m'.
Proof.
  revert m'. induction m as [|[k v] rest IH]; intros [|[k' v'] rest']; simpl;
    try discriminate; [reflexivity|].
  intros E. inversion E; subst. unfold keys in *. rewrite H1.
  f_equal. now apply IH.
Qed.

Lemma In_values m v : In v (values m) <-> exists k, In (k, v) m.
Proof.
  unfold values. rewrite in_map_iff. split.
  - intros [[k v'] [E Hin]]. simpl in E. subst. now exists k.
  - intros [k Hin]. now exists (k, v).
Qed.

Lemma keyed_by_In (id_of : V -> Z) m k v :
  keyed_by id_of m = true -> In (k, v) m -> id_of v = k.
Proof.
  unfold keyed_by. rewrite forallb_forall. intros H Hin.
  specialize (H _ Hin). simpl in H. apply Z.eqb_eq in H. now symmetry.
Qed.

Lemma keyed_by_set (id_of : V -> Z) m k v :
  keyed_by id_of m = true -> id_of v = k -> keyed_by id_of (set k v m) = true.
Proof.
  intros H E. induction m as [|[k0 v0] rest IH]; simpl in *.
  - now rewrite E, Z.eqb_refl.
  - apply andb_true_iff in H. destruct H as [H0 H].
    destruct (Z.eqb_spec k0 k) as [->|Hne]; simpl.
    + rewrite E, Z.eqb_refl. exact H.
    + rewrite H0. now apply IH.
Qed.

(** In a map keyed by id, looking a record up by its id field finds the
    record stored under that key. *)
Lemma find_keyed_by (id_of : V -> Z) m k :
  keyed_by id_of m = true ->
  find (fun v => id_of v =? k) (values m) = get k m.
Proof.
  induction m as [|[k0 v0] rest IH]; simpl; [reflexivity|].
  intros H. apply andb_true_iff in H. destruct H as [H0 H].
  apply Z.eqb_eq in H0. simpl in H0. rewrite <- H0.
  destruct (Z.eqb_spec k0 k); [reflexivity|now apply IH].
Qed.

End Facts.
End JsMapFacts.

(** ** The evaluator *)

Lemma Qltb_lt p q : Js.Qltb p q = true <-> (p < q)%Q.
Proof. unfold Js.Qltb, Qlt. apply Z.ltb_lt. Qed.

Lemma switch_default {A : Type} (x : string) (cases : list (string * A)) (d : A) :
  ~ In x (map fst cases) -> Js.switch x cases d = d.
Proof.
  induction cases as [|[l b] rest IH]; simpl; intros Hn; [reflexivity|].
  destruct (String.eqb_spec x l) as [->|_].
  - exfalso. apply Hn. now left.
  - apply IH. intros H. apply Hn. now right.
Qed.

Ltac bool_to_prop :=
  repeat first
    [ rewrite andb_true_iff | rewrite orb_true_iff | rewrite negb_true_iff
    | rewrite Z.gtb_ltb | rewrite Z.geb_leb
    | rewrite Z.ltb_lt | rewrite Z.leb_le | rewrite Z.eqb_eq | rewrite Z.eqb_neq ].

(** The two copies of the evaluator are the same function. *)
Lemma evaluators_coincide :
  Storage.isBetWinner = ClientUtils.isBetWinner
  /\ Storage.isBetPush = ClientUtils.isBetPush.
Proof. split; reflexivity. Qed.

(** *** Doubles that hold integers *)

Lemma round_small x : Z.abs x < 2 ^ 53 -> Js.round x = x.
Proof.
  intros H. unfold Js.round. cbv zeta.
  apply Z.ltb_lt in H. now rewrite H.
Qed.

Lemma infinity_large : 2 ^ 53 < Js.infinity.
Proof. reflexivity. Qed.

Lemma to_double_exact x : Z.abs x <= 2 ^ 53 -> Js.to_double x = x.
Proof.
  intros H. pose proof infinity_large as Hinf.
  assert (Hr : Js.round x = x).
  { destruct (Z.eq_dec (Z.abs x) (2 ^ 53)) as [E|E].
    - change (2 ^ 53) with 9007199254740992 in E.
      assert (Hx : x = 9007199254740992 \/ x = - 9007199254740992) by lia.
      destruct Hx as [-> | ->]; reflexivity.
    - apply round_small. lia. }
  unfold Js.to_double. cbv zeta. rewrite Hr.
  destruct (Z.leb_spec Js.infinity x); [lia|].
  destruct (Z.leb_spec x (- Js.infinity)); [lia|reflexivity].
Qed.

Lemma round_large x : 2 ^ 53 <= x -> 2 ^ 53 <= Js.round x.
Proof.
  intros H. unfold Js.round. cbv zeta.
  assert (Hpos : 0 < x) by (assert (0 < 2 ^ 53) by reflexivity; lia).
  rewrite (Z.abs_eq x) by lia.
  destruct (Z.ltb_spec x (2 ^ 53)) as [Hlt|_]; [lia|].
  rewrite (Z.sgn_pos x Hpos), Z.mul_1_l.
  pose proof (Z.log2_spec x Hpos) as [Hlo _].
  assert (Hlog : 53 <= Z.log2 x).
  { change 53 with (Z.log2 (2 ^ 53)). now apply Z.log2_le_mono. }
  set (e := Z.log2 x - 52) in *.
  assert (He : 1 <= e) by (unfold e; lia).
  assert (Hsplit : 2 ^ Z.log2 x = 2 ^ 52 * 2 ^ e).
  { rewrite <- Z.pow_add_r by lia. f_equal. unfold e. lia. }
  assert (Hulp : 2 <= 2 ^ e).
  { change 2 with (2 ^ 1) at 1. apply Z.pow_le_mono_r; lia. }
  assert (Hq : 2 ^ 52 <= x / 2 ^ e).
  { apply Z.div_le_lower_bound; lia. }
  set (q := x / 2 ^ e) in *. set (ulp := 2 ^ e) in *.
  assert (H52 : 0 < 2 ^ 52) by reflexivity.
  set (q' := if (ulp <? 2 * (x mod ulp))
                || ((ulp =? 2 * (x mod ulp)) && Z.odd q)
             then q + 1 else q).
  assert (Hq' : q <= q').
  { unfold q'.
    destruct ((ulp <? 2 * (x mod ulp))
              || ((ulp =? 2 * (x mod ulp)) && Z.odd q)); lia. }
  clearbody q' q ulp.
  change (2 ^ 53) with (2 ^ 52 * 2). nia.
Qed.

Lemma to_double_large x : 2 ^ 53 <= x -> 2 ^ 53 <= Js.to_double x.
Proof.
  intros H. pose proof (round_large x H) as Hr. pose proof infinity_large.
  unfold Js.to_double. cbv zeta.
  destruct (Z.leb_spec Js.infinity (Js.round x)); [lia|].
  destruct (Z.leb_spec (Js.round x) (- Js.infinity)); lia.
Qed.

(** The sum of two safe scores is exact or, beyond 2 ^ 53, still beyond it;
their difference is exact. *)
Lemma sum_safe x y :
  Spec.safe x -> Spec.safe y ->
  Js.sum x y = x + y
  \/ (9007199254740992 <= x + y /\ 9007199254740992 <= Js.sum x y).
Proof.
  unfold Spec.safe, Js.MAX_SAFE_INTEGER, Js.sum. intros Hx Hy.
  destruct (Z_le_gt_dec (x + y) 9007199254740992) as [Hle|Hgt].
  - left. apply to_double_exact. change (2 ^ 53) with 9007199254740992. lia.
  - right. split; [lia|].
    change 9007199254740992 with (2 ^ 53). apply to_double_large.
    change (2 ^ 53) with 9007199254740992. lia.
Qed.

Lemma difference_safe x y :
  Spec.safe x -> Spec.safe y -> Js.difference x y = x - y.
Proof.
  unfold Spec.safe, Js.MAX_SAFE_INTEGER, Js.difference. intros Hx Hy.
  apply to_double_exact. change (2 ^ 53) with 9007199254740992. lia.
Qed.

(** *** The rule table *)

Ltac table_arith :=
  unfold Js.gt_lit, Js.lt_lit, Js.Qltb, Qlt; cbn [Qnum Qden inject_Z];
  bool_to_prop; lia.

Lemma isBetWinner_iff_Win mt h a hh ha :
  Spec.safe h -> Spec.safe a -> Spec.safe hh -> Spec.safe ha ->
  Storage.isBetWinner mt h a hh ha = true <-> Spec.Win h a hh ha mt.
Proof.
  intros Hh Ha Hhh Hha.
  pose proof (sum_safe h a Hh Ha) as Hsum.
  pose proof (sum_safe hh ha Hhh Hha) as Hhtsum.
  assert (D1 : Js.difference h 1 = h - 1 /\ Js.difference h 2 = h - 2
               /\ Js.difference a 1 = a - 1 /\ Js.difference a 2 = a - 2
               /\ Js.difference h hh = h - hh /\ Js.difference a ha = a - ha).
  { repeat split; apply difference_safe; try assumption;
      unfold Spec.safe, Js.MAX_SAFE_INTEGER; lia. }
  destruct D1 as (D1 & D2 & D3 & D4 & D5 & D6).
  unfold Spec.safe, Js.MAX_SAFE_INTEGER in *.
  split.
  - intros Hw.
    destruct (in_dec string_dec mt Spec.market_types) as [Hin|Hout].
    + unfold Spec.market_types in Hin. simpl in Hin.
      repeat (destruct Hin as [<-|Hin]; [ | ]); try contradiction.
      all: cbn in Hw; rewrite ?D1, ?D2, ?D3, ?D4, ?D5, ?D6 in Hw.
      all: constructor.
      all: revert Hw; table_arith.
    + unfold Storage.isBetWinner in Hw.
      rewrite switch_default in Hw by exact Hout. discriminate.
  - intros Hw. destruct Hw; cbn; rewrite ?D1, ?D2, ?D3, ?D4, ?D5, ?D6;
      revert H; table_arith.
Qed.

Lemma isBetWinner_unlisted mt h a hh ha :
  ~ In mt Spec.market_types -> Storage.isBetWinner mt h a hh ha = false.
Proof. intros Hout. unfold Storage.isBetWinner. now apply switch_default. Qed.

Lemma isBetPush_iff_Push mt h a :
  Storage.isBetPush mt h a = true <-> Spec.Push mt h a.
Proof.
  unfold Storage.isBetPush, Spec.Push. simpl.
  destruct (String.eqb_spec mt "DNB_1") as [->|H1].
  - rewrite Z.eqb_eq. intuition.
  - destruct (String.eqb_spec mt "DNB_2") as [->|H2].
    + rewrite Z.eqb_eq. intuition.
    + split; [discriminate|]. intros [[E|E] _]; contradiction.
Qed.

(** C1, as amended.  For every market type of the rule table of section 4.1
and all scores that are non-negative integers up to
[Number.MAX_SAFE_INTEGER], [isBetWinner] (the copy nested in
[resolveBetsForMatch] and the copy exported by the client) returns true
exactly when the WIN condition of the table holds; for every market type that
is not in the table it returns false, whatever the scores. *)
Theorem isBetWinner_rule_table (marketType : string)
        (homeScore awayScore htHomeScore htAwayScore : Z) :
  (Spec.safe homeScore -> Spec.safe awayScore ->
   Spec.safe htHomeScore -> Spec.safe htAwayScore ->
   (Storage.isBetWinner marketType homeScore awayScore htHomeScore htAwayScore
    = true
    <-> Spec.Win homeScore awayScore htHomeScore htAwayScore marketType)
   /\ (ClientUtils.isBetWinner marketType homeScore awayScore
                               htHomeScore htAwayScore = true
       <-> Spec.Win homeScore awayScore htHomeScore htAwayScore marketType))
  /\ (~ In marketType Spec.market_types ->
      Storage.isBetWinner marketType homeScore awayScore htHomeScore htAwayScore
      = false
      /\ ClientUtils.isBetWinner marketType homeScore awayScore
                                 htHomeScore htAwayScore = false).
Proof.
  destruct evaluators_coincide as [<- _].
  split.
  - intros Hh Ha Hhh Hha. split; now apply isBetWinner_iff_Win.
  - intros Hout. split; now apply isBetWinner_unlisted.
Qed.

Lemma isBetWinner_rule_table_witness :
  Spec.safe 3 /\ Spec.safe 1 /\ Spec.safe 2 /\ Spec.safe 0
  /\ ~ In "FOOBAR" Spec.market_types
  /\ (Storage.isBetWinner "HANDICAP_1_MINUS_1" 3 1 2 0 = true
      <-> Spec.Win 3 1 2 0 "HANDICAP_1_MINUS_1")
  /\ (ClientUtils.isBetWinner "WIN_BOTH_HALVES_1" 3 1 2 0 = true
      <-> Spec.Win 3 1 2 0 "WIN_BOTH_HALVES_1")
  /\ Storage.isBetWinner "FOOBAR" 3 1 2 0 = false
  /\ ClientUtils.isBetWinner "FOOBAR" 3 1 2 0 = false.
Proof.
  assert (S3 : Spec.safe 3) by (split; discriminate).
  assert (S1 : Spec.safe 1) by (split; discriminate).
  assert (S2 : Spec.safe 2) by (split; discriminate).
  assert (S0 : Spec.safe 0) by (split; discriminate).
  assert (H : ~ In "FOOBAR" Spec.market_types).
  { simpl. intros H. repeat (destruct H as [H|H]; [discriminate H|]). exact H. }
  repeat (split; [assumption|]).
  split; [exact (proj1 (proj1 (isBetWinner_rule_table "HANDICAP_1_MINUS_1" 3 1 2 0)
                          S3 S1 S2 S0))|].
  split; [exact (proj2 (proj1 (isBetWinner_rule_table "WIN_BOTH_HALVES_1" 3 1 2 0)
                          S3 S1 S2 S0))|].
  exact (proj2 (isBetWinner_rule_table "FOOBAR" 3 1 2 0) H).
Defined.

(** C1, as the claim states it, fails above 2 ^ 53.  The scores
9007199254740994 and 9007199254740992 are non-negative integers and doubles;
a home side that leads by two covers a handicap of one by the rule table.
In the code [homeScore - 1] is 9007199254740993, which no double holds: it
rounds to 9007199254740992, which is not above the away score, and both
copies of [isBetWinner] answer false. *)
Lemma isBetWinner_rounds_above_2_53 :
  0 <= 9007199254740994 /\ 0 <= 9007199254740992
  /\ Js.is_double 9007199254740994 = true
  /\ Js.is_double 9007199254740992 = true
  /\ In "HANDICAP_1_MINUS_1" Spec.market_types
  /\ Spec.Win 9007199254740994 9007199254740992 0 0 "HANDICAP_1_MINUS_1"
  /\ Js.difference 9007199254740994 1 = 9007199254740992
  /\ Storage.isBetWinner "HANDICAP_1_MINUS_1"
                         9007199254740994 9007199254740992 0 0 = false
  /\ ClientUtils.isBetWinner "HANDICAP_1_MINUS_1"
                             9007199254740994 9007199254740992 0 0 = false.
Proof.
  split; [discriminate|]. split; [discriminate|].
  split; [vm_compute; reflexivity|]. split; [vm_compute; reflexivity|].
  split; [simpl; tauto|].
  split; [constructor; reflexivity|].
  repeat split; vm_compute; reflexivity.
Qed.

(** C5. [isBetPush] (both copies) returns true exactly when the market type
is DNB_1 or DNB_2 and the full-time scores are level; for every other market
type, and for every score that is not level, it returns false. *)
Theorem isBetPush_only_draw_no_bet (marketType : string) (homeScore awayScore : Z) :
  (Storage.isBetPush marketType homeScore awayScore = true
   <-> (marketType = "DNB_1" \/ marketType = "DNB_2") /\ homeScore = awayScore)
  /\ (ClientUtils.isBetPush marketType homeScore awayScore = true
      <-> (marketType = "DNB_1" \/ marketType = "DNB_2") /\ homeScore = awayScore)
  /\ Storage.isBetPush marketType homeScore awayScore
     = (String.eqb marketType "DNB_1" || String.eqb marketType "DNB_2")
       && (homeScore =? awayScore).
Proof.
  destruct evaluators_coincide as [_ <-].
  split; [apply isBetPush_iff_Push|].
  split; [apply isBetPush_iff_Push|].
  unfold Storage.isBetPush. simpl.
  destruct (String.eqb marketType "DNB_1"), (String.eqb marketType "DNB_2");
    reflexivity.
Qed.

(** C8. The win and push rules are implemented twice and the two
implementations agree on every input: the functions nested in
[resolveBetsForMatch] return what the functions exported by the client
return. *)
Theorem evaluators_agree (marketType : string)
        (homeScore awayScore htHomeScore htAwayScore : Z) :
  Storage.isBetWinner marketType homeScore awayScore htHomeScore htAwayScore
  = ClientUtils.isBetWinner marketType homeScore awayScore htHomeScore htAwayScore
  /\ Storage.isBetPush marketType homeScore awayScore
     = ClientUtils.isBetPush marketType homeScore awayScore.
Proof. destruct evaluators_coincide as [-> ->]. split; reflexivity. Qed.

(** ** The job queue *)

Section QueueFacts.
Variable num : Type.
Variable add : num -> num -> num.
Implicit Types (s : MemStorage num) (q : list (job num)) (j : job num).

Lemma with_status_idem (b : Bet.t num) st :
  Bet.with_status (Bet.with_status b st) st = Bet.with_status b st.
Proof. reflexivity. Qed.

Lemma with_status_same (b : Bet.t num) : Bet.with_status b (Bet.status b) = b.
Proof. now destruct b. Qed.

Lemma resolveBet_store_frame betId st s :
  users (Storage.resolveBet_store betId st s) = users s
  /\ matches (Storage.resolveBet_store betId st s) = matches s
  /\ markets (Storage.resolveBet_store betId st s) = markets s
  /\ betSelections (Storage.resolveBet_store betId st s) = betSelections s.
Proof.
  unfold Storage.resolveBet_store.
  destruct (JsMap.get betId (bets s)); simpl; auto.
Qed.

Lemma resolveBet_store_same betId st s :
  JsMap.get betId (bets (Storage.resolveBet_store betId st s))
  = option_map (fun b => Bet.with_status b st) (JsMap.get betId (bets s)).
Proof.
  unfold Storage.resolveBet_store.
  destruct (JsMap.get betId (bets s)) eqn:E; simpl.
  - apply JsMapFacts.get_set_same.
  - exact E.
Qed.

Lemma resolveBet_store_other k betId st s :
  k <> betId ->
  JsMap.get k (bets (Storage.resolveBet_store betId st s)) = JsMap.get k (bets s).
Proof.
  intros Hne. unfold Storage.resolveBet_store.
  destruct (JsMap.get betId (bets s)); simpl; [|reflexivity].
  now apply JsMapFacts.get_set_other.
Qed.

Lemma resolveBet_store_keys betId st s :
  JsMap.keys (bets (Storage.resolveBet_store betId st s)) = JsMap.keys (bets s).
Proof.
  unfold Storage.resolveBet_store.
  destruct (JsMap.get betId (bets s)) eqn:E; simpl; [|reflexivity].
  eapply JsMapFacts.keys_set_present; eassumption.
Qed.

Lemma queue_weight_app q1 q2 :
  Storage.queue_weight (q1 ++ q2)
  = (Storage.queue_weight q1 + Storage.queue_weight q2)%nat.
Proof.
  induction q1 as [|j q1 IH]; simpl; [reflexivity|]. rewrite IH. lia.
Qed.

Lemma run_job_weight j s :
  (Storage.queue_weight (snd (Storage.run_job add j s))
   < Storage.job_weight j)%nat.
Proof.
  destruct j as [betId st bet [u|]|id bal [u|] betId st|betId st]; simpl; lia.
Qed.

(** With fuel for every job that can still arise, the queue runs empty. *)
Lemma drain_empties fuel : forall q s,
  (Storage.queue_weight q <= fuel)%nat ->
  snd (Storage.drain add fuel q s) = [].
Proof.
  induction fuel as [|fuel IH]; intros [|j rest] s Hw; simpl; try reflexivity.
  - simpl in Hw. destruct j; simpl in Hw; lia.
  - pose proof (run_job_weight j s) as Hj.
    destruct (Storage.run_job add j s) as [s1 new]. simpl in Hj.
    apply IH. rewrite queue_weight_app. simpl in Hw. lia.
Qed.

Lemma settle_drain s q :
  Storage.settle add (s, q)
  = Some (fst (Storage.drain add (Storage.queue_weight q) q s)).
Proof.
  unfold Storage.settle. simpl.
  pose proof (drain_empties (Storage.queue_weight q) q s (le_n _)) as H.
  destruct (Storage.drain add (Storage.queue_weight q) q s) as [s' q'].
  simpl in *. now subst.
Qed.

Lemma settle_inv s q s' :
  Storage.settle add (s, q) = Some s' ->
  Storage.drain add (Storage.queue_weight q) q s = (s', []).
Proof.
  rewrite settle_drain. intros E.
  pose proof (drain_empties (Storage.queue_weight q) q s (le_n _)) as H.
  destruct (Storage.drain add (Storage.queue_weight q) q s) as [s1 q1].
  simpl in *. congruence.
Qed.

(** More fuel than the queue needs changes nothing. *)
Lemma drain_enough_fuel fuel : forall fuel' q s,
  (Storage.queue_weight q <= fuel)%nat ->
  (Storage.queue_weight q <= fuel')%nat ->
  Storage.drain add fuel q s = Storage.drain add fuel' q s.
Proof.
  induction fuel as [|fuel IH]; intros [|fuel'] [|j rest] s H1 H2; simpl;
    try reflexivity;
    try (simpl in H1, H2; destruct j; simpl in H1, H2; lia).
  pose proof (run_job_weight j s) as Hj.
  destruct (Storage.run_job add j s) as [s1 new]. simpl in Hj.
  apply IH; rewrite queue_weight_app; simpl in H1, H2; lia.
Qed.

(** A job passes its bet and status on to the job it schedules. *)
Lemma run_job_passes_on j s j' :
  In j' (snd (Storage.run_job add j s)) ->
  job_betId j' = job_betId j /\ job_status j' = job_status j.
Proof.
  destruct j as [betId st bet [u|]|id bal [u|] betId st|betId st]; simpl;
    intros H; try contradiction; destruct H as [<-|[]]; simpl; auto.
Qed.

Lemma run_job_frame j s :
  matches (fst (Storage.run_job add j s)) = matches s
  /\ markets (fst (Storage.run_job add j s)) = markets s
  /\ betSelections (fst (Storage.run_job add j s)) = betSelections s.
Proof.
  destruct j as [betId st bet [u|]|id bal [u|] betId st|betId st]; simpl; auto;
    destruct (resolveBet_store_frame betId st s) as (_ & ? & ? & ?); auto.
Qed.

Lemma run_job_keys j s :
  JsMap.keys (bets (fst (Storage.run_job add j s))) = JsMap.keys (bets s).
Proof.
  destruct j as [betId st bet [u|]|id bal [u|] betId st|betId st]; simpl; auto;
    apply resolveBet_store_keys.
Qed.

Lemma run_job_other_bet k j s :
  job_betId j <> k ->
  JsMap.get k (bets (fst (Storage.run_job add j s))) = JsMap.get k (bets s).
Proof.
  intros Hne.
  destruct j as [betId st bet [u|]|id bal [u|] betId st|betId st]; simpl in *; auto;
    apply resolveBet_store_other; congruence.
Qed.

(** A job either hands its bet on to a later job, leaving the bet as it is, or
writes its status to the bet and ends. *)
Lemma run_job_own_bet j s :
  (snd (Storage.run_job add j s) <> []
   /\ JsMap.get (job_betId j) (bets (fst (Storage.run_job add j s)))
      = JsMap.get (job_betId j) (bets s))
  \/ (snd (Storage.run_job add j s) = []
      /\ JsMap.get (job_betId j) (bets (fst (Storage.run_job add j s)))
         = option_map (fun b => Bet.with_status b (job_status j))
                      (JsMap.get (job_betId j) (bets s))).
Proof.
  destruct j as [betId st bet [u|]|id bal [u|] betId st|betId st]; simpl;
    try (left; split; [discriminate|reflexivity]);
    right; (split; [reflexivity|apply resolveBet_store_same]).
Qed.

Lemma drain_untouched_bet k fuel : forall q s s',
  Storage.drain add fuel q s = (s', []) ->
  (forall j, In j q -> job_betId j <> k) ->
  JsMap.get k (bets s') = JsMap.get k (bets s).
Proof.
  induction fuel as [|fuel IH]; intros [|j rest] s s' Hd Hq; simpl in Hd;
    try (inversion Hd; subst; reflexivity); try discriminate.
  pose proof (run_job_other_bet k j s (Hq j (or_introl eq_refl))) as Hs.
  pose proof (run_job_passes_on j s) as Hp.
  destruct (Storage.run_job add j s) as [s1 new]. simpl in *.
  rewrite <- Hs. apply (IH _ _ _ Hd).
  intros j' Hin. apply in_app_or in Hin. destruct Hin as [Hin|Hin].
  - apply Hq. now right.
  - destruct (Hp j' Hin) as [-> _]. apply Hq. now left.
Qed.

(** Once the queue has run empty, a bet that some job was heading for carries
the status the jobs agreed on; its other fields are as before. *)
Lemma drain_touched_bet k st fuel : forall q s s',
  Storage.drain add fuel q s = (s', []) ->
  (forall j, In j q -> job_betId j = k -> job_status j = st) ->
  (exists j, In j q /\ job_betId j = k) ->
  JsMap.get k (bets s')
  = option_map (fun b => Bet.with_status b st) (JsMap.get k (bets s)).
Proof.
  induction fuel as [|fuel IH]; intros [|j rest] s s' Hd Hq Hex; simpl in Hd;
    try discriminate.
  1, 2: now destruct Hex as [? [[] _]].
  pose proof (run_job_other_bet k j s) as Hother.
  pose proof (run_job_own_bet j s) as Hown.
  pose proof (run_job_passes_on j s) as Hp.
  destruct (Storage.run_job add j s) as [s1 new]. simpl in *.
  assert (Hq' : forall j', In j' (rest ++ new) -> job_betId j' = k -> job_status j' = st).
  { intros j' Hin Hk. apply in_app_or in Hin. destruct Hin as [Hin|Hin].
    - apply Hq; auto.
    - destruct (Hp j' Hin) as [Eb Es]. rewrite Es. apply Hq; [now left|congruence]. }
  destruct (Z.eq_dec (job_betId j) k) as [Ek|Hne].
  - destruct Hown as [[Hnew Hget]|[Hnew Hget]].
    + rewrite Ek in Hget. rewrite <- Hget. apply (IH _ _ _ Hd Hq').
      destruct new as [|j' new']; [congruence|].
      exists j'. split; [apply in_or_app; right; now left|].
      destruct (Hp j' (or_introl eq_refl)) as [Eb _]. congruence.
    + subst new. rewrite app_nil_r in *. rewrite Ek in Hget.
      rewrite (Hq j (or_introl eq_refl) Ek) in Hget.
      destruct (existsb (fun j' => job_betId j' =? k) rest) eqn:Et.
      * apply existsb_exists in Et. destruct Et as [j' [Hin E]].
        apply Z.eqb_eq in E.
        rewrite (IH _ _ _ Hd Hq' (ex_intro _ j' (conj Hin E))), Hget.
        now destruct (JsMap.get k (bets s)).
      * rewrite <- Hget. apply (drain_untouched_bet k fuel _ _ _ Hd).
        intros j' Hin E.
        assert (Ht : existsb (fun j' => job_betId j' =? k) rest = true).
        { apply existsb_exists. exists j'. split; [exact Hin|now apply Z.eqb_eq]. }
        congruence.
  - rewrite <- (Hother Hne). apply (IH _ _ _ Hd Hq').
    destruct Hex as [j' [[->|Hin] E]]; [contradiction|].
    exists j'. split; [apply in_or_app; now left|exact E].
Qed.

Lemma drain_frame fuel : forall q s s',
  Storage.drain add fuel q s = (s', []) ->
  matches s' = matches s /\ markets s' = markets s
  /\ betSelections s' = betSelections s
  /\ JsMap.keys (bets s') = JsMap.keys (bets s).
Proof.
  induction fuel as [|fuel IH]; intros [|j rest] s s' Hd; simpl in Hd;
    try (inversion Hd; subst; auto); try discriminate.
  pose proof (run_job_frame j s) as (H1 & H2 & H3).
  pose proof (run_job_keys j s) as H4.
  destruct (Storage.run_job add j s) as [s1 new]. simpl in *.
  destruct (IH _ _ _ Hd) as (E1 & E2 & E3 & E4). repeat split; congruence.
Qed.

End QueueFacts.

(** ** The synchronous pass of [resolveBetsForMatch] *)

Section PassFacts.
Variable num : Type.
Implicit Types (s : MemStorage num) (q : list (job num)) (j : job num).

(** The loop over a bet's selections computes the aggregation rule over the
selections that count. *)
Lemma scanSelections_spec s matchId mt h a : forall sels p,
  let outcomes :=
    map (fun market =>
           (Storage.isBetWinner (Market.type market) h a
                                (Js.or_zero (Match.htHomeScore mt))
                                (Js.or_zero (Match.htAwayScore mt)),
            Storage.isBetPush (Market.type market) h a))
        (flat_map
           (fun selection =>
              match JsMap.get (BetSelection.marketId selection) (markets s) with
              | Some market => if Market.matchId market =? matchId then [market] else []
              | None => []
              end) sels) in
  fst (Storage.scanSelections s matchId mt h a sels p)
  = negb (existsb (fun o => negb (fst o) && negb (snd o)) outcomes)
  /\ (fst (Storage.scanSelections s matchId mt h a sels p) = true ->
      snd (Storage.scanSelections s matchId mt h a sels p)
      = p || existsb snd outcomes).
Proof.
  induction sels as [|sel rest IH]; intros p; simpl.
  - split; [reflexivity|]. intros _. now rewrite orb_false_r.
  - destruct (JsMap.get (BetSelection.marketId sel) (markets s)) as [market|];
      [|apply IH].
    destruct (Market.matchId market =? matchId); [|apply IH].
    simpl.
    destruct (Storage.isBetPush (Market.type market) h a) eqn:Ep.
    + rewrite andb_false_r. simpl.
      destruct (IH true) as [H1 H2]. split; [exact H1|].
      intros H. rewrite (H2 H). now rewrite orb_true_r.
    + destruct (Storage.isBetWinner (Market.type market) h a _ _) eqn:Ew; simpl.
      * apply IH.
      * split; [reflexivity|discriminate].
Qed.

Lemma verdict_expected s mt h a betId :
  Storage.verdict s (Match.id mt) mt h a betId
  = Spec.expectedStatus s mt h a betId.
Proof.
  unfold Storage.verdict, Spec.expectedStatus, Spec.aggregate, Spec.countedMarkets.
  change Spec.halfTime with Js.or_zero.
  change (filter (fun selection => BetSelection.betId selection =? betId)
                 (JsMap.values (betSelections s)))
    with (Storage.selectionsOf s betId).
  pose proof (scanSelections_spec s (Match.id mt) mt h a
                (Storage.selectionsOf s betId) false) as [H1 H2].
  destruct (Storage.scanSelections s (Match.id mt) mt h a
              (Storage.selectionsOf s betId) false) as [allWon anyPush].
  simpl in H1, H2.
  destruct allWon.
  - symmetry in H1. apply negb_true_iff in H1. rewrite H1.
    rewrite (H2 eq_refl). simpl. reflexivity.
  - symmetry in H1. apply negb_false_iff in H1. now rewrite H1.
Qed.

Lemma verdict_is_final s matchId mt h a betId :
  Storage.verdict s matchId mt h a betId = "WON"
  \/ Storage.verdict s matchId mt h a betId = "PUSH"
  \/ Storage.verdict s matchId mt h a betId = "LOST".
Proof.
  unfold Storage.verdict.
  destruct (Storage.scanSelections s matchId mt h a _ false) as [[|] [|]]; auto.
Qed.

Lemma scanSelections_frame s s' matchId mt h a :
  markets s' = markets s ->
  forall sels p,
    Storage.scanSelections s' matchId mt h a sels p
    = Storage.scanSelections s matchId mt h a sels p.
Proof.
  intros Hm. induction sels as [|sel rest IH]; intros p; simpl; [reflexivity|].
  rewrite Hm.
  destruct (JsMap.get (BetSelection.marketId sel) (markets s)) as [market|]; [|apply IH].
  destruct (Market.matchId market =? matchId); [|apply IH].
  rewrite !IH. reflexivity.
Qed.

Lemma verdict_frame s s' matchId mt h a betId :
  markets s' = markets s -> betSelections s' = betSelections s ->
  Storage.verdict s' matchId mt h a betId
  = Storage.verdict s matchId mt h a betId.
Proof.
  intros Hm Hb. unfold Storage.verdict, Storage.selectionsOf.
  rewrite Hb, (scanSelections_frame s s' matchId mt h a Hm). reflexivity.
Qed.

(** *** One call of [resolveBet], up to its first [await] *)

Lemma resolveBet_frame betId st s :
  users (fst (Storage.resolveBet betId st s)) = users s
  /\ matches (fst (Storage.resolveBet betId st s)) = matches s
  /\ markets (fst (Storage.resolveBet betId st s)) = markets s
  /\ betSelections (fst (Storage.resolveBet betId st s)) = betSelections s
  /\ JsMap.keys (bets (fst (Storage.resolveBet betId st s))) = JsMap.keys (bets s).
Proof.
  pose proof (resolveBet_store_frame num betId st s) as (H1 & H2 & H3 & H4).
  pose proof (resolveBet_store_keys num betId st s) as H5.
  unfold Storage.resolveBet.
  destruct (String.eqb st "WON"); [|simpl; auto 6].
  destruct (JsMap.get betId (bets s)); simpl; auto 6.
Qed.

Lemma resolveBet_jobs betId st s j :
  In j (snd (Storage.resolveBet betId st s)) ->
  exists bet,
    JsMap.get betId (bets s) = Some bet /\ st = "WON"
    /\ j = AfterGetUser betId st bet (Storage.getUser (Bet.userId bet) s).
Proof.
  unfold Storage.resolveBet.
  destruct (String.eqb_spec st "WON") as [->|Hne]; [|simpl; tauto].
  destruct (JsMap.get betId (bets s)) as [bet|]; simpl; [|tauto].
  intros [<-|[]]. now exists bet.
Qed.

Lemma resolveBet_other_bet k betId st s :
  k <> betId ->
  JsMap.get k (bets (fst (Storage.resolveBet betId st s))) = JsMap.get k (bets s).
Proof.
  intros Hne. unfold Storage.resolveBet.
  destruct (String.eqb st "WON");
    [destruct (JsMap.get betId (bets s))|]; simpl;
    try reflexivity; now apply resolveBet_store_other.
Qed.

Lemma resolveBet_own_bet betId st s :
  (snd (Storage.resolveBet betId st s) <> []
   /\ JsMap.get betId (bets (fst (Storage.resolveBet betId st s)))
      = JsMap.get betId (bets s))
  \/ (snd (Storage.resolveBet betId st s) = []
      /\ JsMap.get betId (bets (fst (Storage.resolveBet betId st s)))
         = option_map (fun b => Bet.with_status b st) (JsMap.get betId (bets s))).
Proof.
  unfold Storage.resolveBet.
  destruct (String.eqb st "WON");
    [destruct (JsMap.get betId (bets s)) eqn:E|]; simpl.
  - left. split; [discriminate|exact E].
  - right. split; [reflexivity|]. rewrite resolveBet_store_same. now rewrite E.
  - right. split; [reflexivity|apply resolveBet_store_same].
Qed.

End PassFacts.

(** *** The loop over the snapshot of bets *)

Section PassLoop.
Variable num : Type.
Variables (matchId : Z) (mt : Match.t) (h a : Z).
Implicit Types (s : MemStorage num) (q : list (job num)) (j : job num).

Lemma settleBet_unfold s q bet :
  Storage.settleBet matchId mt h a (s, q) bet
  = if String.eqb (Bet.status bet) "PENDING" then
      (fst (Storage.resolveBet (Bet.id bet)
              (Storage.verdict s matchId mt h a (Bet.id bet)) s),
       q ++ snd (Storage.resolveBet (Bet.id bet)
                   (Storage.verdict s matchId mt h a (Bet.id bet)) s))
    else (s, q).
Proof.
  unfold Storage.settleBet.
  destruct (String.eqb (Bet.status bet) "PENDING"); [|reflexivity].
  now destruct (Storage.resolveBet _ _ s).
Qed.

Lemma pass_frame : forall l s q,
  let r := fold_left (Storage.settleBet matchId mt h a) l (s, q) in
  users (fst r) = users s /\ matches (fst r) = matches s
  /\ markets (fst r) = markets s /\ betSelections (fst r) = betSelections s
  /\ JsMap.keys (bets (fst r)) = JsMap.keys (bets s).
Proof.
  induction l as [|bet l IH]; intros s q; cbn [fold_left]; [simpl; auto 6|].
  rewrite settleBet_unfold.
  destruct (String.eqb (Bet.status bet) "PENDING"); [|apply IH].
  pose proof (resolveBet_frame num (Bet.id bet)
                (Storage.verdict s matchId mt h a (Bet.id bet)) s)
    as (H1 & H2 & H3 & H4 & H5).
  specialize (IH (fst (Storage.resolveBet (Bet.id bet)
                         (Storage.verdict s matchId mt h a (Bet.id bet)) s))
                 (q ++ snd (Storage.resolveBet (Bet.id bet)
                         (Storage.verdict s matchId mt h a (Bet.id bet)) s))).
  simpl in IH. destruct IH as (E1 & E2 & E3 & E4 & E5).
  repeat split; congruence.
Qed.

Section OneBet.
Variables (k : Z) (st : string) (v0 : option (Bet.t num)).

Lemma option_map_with_status_idem (v : option (Bet.t num)) :
  option_map (fun b => Bet.with_status b st)
             (option_map (fun b => Bet.with_status b st) v)
  = option_map (fun b => Bet.with_status b st) v.
Proof. now destruct v. Qed.

Lemma settleBet_on_course s q bet :
  Storage.verdict s matchId mt h a k = st ->
  on_course k st v0 s q ->
  on_course k st v0 (fst (Storage.settleBet matchId mt h a (s, q) bet))
            (snd (Storage.settleBet matchId mt h a (s, q) bet)).
Proof.
  intros Hv [Hq Hget]. rewrite settleBet_unfold.
  destruct (String.eqb (Bet.status bet) "PENDING"); [|now split].
  simpl. split.
  - intros j Hin Hk. apply in_app_or in Hin. destruct Hin as [Hin|Hin]; [auto|].
    apply resolveBet_jobs in Hin. destruct Hin as (b & _ & _ & ->).
    simpl in *. now subst k.
  - destruct (Z.eq_dec k (Bet.id bet)) as [->|Hne].
    + rewrite Hv.
      destruct (resolveBet_own_bet num (Bet.id bet) st s) as [[_ E]|[_ E]];
        rewrite E; [exact Hget|].
      right. destruct Hget as [->| ->];
        [reflexivity|apply option_map_with_status_idem].
    + rewrite resolveBet_other_bet by exact Hne. exact Hget.
Qed.

Lemma settleBet_under_way s q bet :
  Storage.verdict s matchId mt h a k = st ->
  on_course k st v0 s q ->
  under_way k st v0 s q \/ (Bet.status bet = "PENDING" /\ Bet.id bet = k) ->
  under_way k st v0 (fst (Storage.settleBet matchId mt h a (s, q) bet))
            (snd (Storage.settleBet matchId mt h a (s, q) bet)).
Proof.
  intros Hv [Hq Hget] Hu. rewrite settleBet_unfold.
  destruct (String.eqb_spec (Bet.status bet) "PENDING") as [Ep|Hnp]; simpl.
  - destruct (Z.eq_dec k (Bet.id bet)) as [->|Hne].
    + rewrite Hv.
      destruct (resolveBet_own_bet num (Bet.id bet) st s) as [[Hn E]|[_ E]].
      * left.
        destruct (snd (Storage.resolveBet (Bet.id bet) st s)) as [|j new] eqn:En;
          [congruence|].
        exists j. split; [apply in_or_app; right; now left|].
        assert (Hin : In j (snd (Storage.resolveBet (Bet.id bet) st s)))
          by (rewrite En; now left).
        apply resolveBet_jobs in Hin. now destruct Hin as (b & _ & _ & ->).
      * right. rewrite E. destruct Hget as [->| ->];
          [reflexivity|apply option_map_with_status_idem].
    + destruct Hu as [[[j [Hin Hk]]|Hdone]|[_ E]]; [| |congruence].
      * left. exists j. split; [apply in_or_app; now left|exact Hk].
      * right. now rewrite resolveBet_other_bet by exact Hne.
  - destruct Hu as [Hu|[E _]]; [exact Hu|contradiction].
Qed.

Lemma pass_on_course : forall l s q,
  Storage.verdict s matchId mt h a k = st ->
  on_course k st v0 s q ->
  let r := fold_left (Storage.settleBet matchId mt h a) l (s, q) in
  on_course k st v0 (fst r) (snd r).
Proof.
  induction l as [|bet l IH]; intros s q Hv Hc; cbn [fold_left]; [exact Hc|].
  pose proof (settleBet_on_course s q bet Hv Hc) as Hc'.
  pose proof (pass_frame [bet] s q) as (_ & _ & Hm & Hb & _).
    cbn [fold_left] in Hm, Hb.
  destruct (Storage.settleBet matchId mt h a (s, q) bet) as [s1 q1].
  simpl in *. apply IH; [|exact Hc'].
  now rewrite (verdict_frame num s s1 matchId mt h a k Hm Hb).
Qed.

Lemma pass_under_way : forall l s q,
  Storage.verdict s matchId mt h a k = st ->
  on_course k st v0 s q ->
  under_way k st v0 s q
  \/ (exists bet, In bet l /\ Bet.status bet = "PENDING" /\ Bet.id bet = k) ->
  let r := fold_left (Storage.settleBet matchId mt h a) l (s, q) in
  under_way k st v0 (fst r) (snd r).
Proof.
  induction l as [|bet l IH]; intros s q Hv Hc Hu; cbn [fold_left].
  - destruct Hu as [Hu|[bet [[] _]]]. exact Hu.
  - pose proof (settleBet_on_course s q bet Hv Hc) as Hc'.
    pose proof (settleBet_under_way s q bet Hv Hc) as Hu'.
    pose proof (pass_frame [bet] s q) as (_ & _ & Hm & Hb & _).
    cbn [fold_left] in Hm, Hb.
    destruct (Storage.settleBet matchId mt h a (s, q) bet) as [s1 q1].
    simpl in *. apply IH; [|exact Hc'|].
    + now rewrite (verdict_frame num s s1 matchId mt h a k Hm Hb).
    + destruct Hu as [Hu|[b [[->|Hin] [Ep Ek]]]].
      * left. apply Hu'. now left.
      * left. apply Hu'. right. now split.
      * right. now exists b.
Qed.

(** Once the queue has run empty, a bet that is on course and under way
carries [st]. *)
Lemma drain_under_way (add : num -> num -> num) fuel q s s' :
  Storage.drain add fuel q s = (s', []) ->
  on_course k st v0 s q -> under_way k st v0 s q ->
  JsMap.get k (bets s') = option_map (fun b => Bet.with_status b st) v0.
Proof.
  intros Hd [Hq Hget] Hu.
  destruct (existsb (fun j => job_betId j =? k) q) eqn:Et.
  - apply existsb_exists in Et. destruct Et as [j [Hin E]]. apply Z.eqb_eq in E.
    rewrite (drain_touched_bet num add k st fuel q s s' Hd Hq (ex_intro _ j (conj Hin E))).
    destruct Hget as [->| ->]; [reflexivity|apply option_map_with_status_idem].
  - assert (Hno : forall j, In j q -> job_betId j <> k).
    { intros j Hin E.
      assert (Ht : existsb (fun j => job_betId j =? k) q = true).
      { apply existsb_exists. exists j. split; [exact Hin|now apply Z.eqb_eq]. }
      congruence. }
    rewrite (drain_untouched_bet num add k fuel q s s' Hd Hno).
    destruct Hu as [[j [Hin E]]|Hdone]; [now elim (Hno j Hin)|exact Hdone].
Qed.

(** A bet that no pending bet of the snapshot names is left alone by the
pass, and no job is scheduled for it. *)
Lemma pass_untouched : forall l s q,
  (forall bet, In bet l -> Bet.status bet = "PENDING" -> Bet.id bet <> k) ->
  let r := fold_left (Storage.settleBet matchId mt h a) l (s, q) in
  JsMap.get k (bets (fst r)) = JsMap.get k (bets s)
  /\ (forall j, In j (snd r) -> job_betId j = k -> In j q).
Proof.
  induction l as [|bet l IH]; intros s q Hl; cbn [fold_left]; [simpl; auto|].
  rewrite settleBet_unfold.
  destruct (String.eqb_spec (Bet.status bet) "PENDING") as [Ep|Hnp].
  - assert (Hne : k <> Bet.id bet).
    { intros E. apply (Hl bet (or_introl eq_refl) Ep). now symmetry. }
    match goal with
    | |- context [fold_left _ l (?s1, ?q1)] =>
        destruct (IH s1 q1 (fun b Hb => Hl b (or_intror Hb))) as [E1 E2]
    end.
    split.
    + rewrite E1. now apply resolveBet_other_bet.
    + intros j Hin Hk. specialize (E2 j Hin Hk). apply in_app_or in E2.
      destruct E2 as [E2|E2]; [exact E2|].
      apply resolveBet_jobs in E2. destruct E2 as (b & _ & _ & ->).
      simpl in Hk. congruence.
  - apply IH. intros b Hb. apply Hl. now right.
Qed.

End OneBet.
End PassLoop.

(** ** Balances *)

Section CreditFacts.
Variable num : Type.
Variable add : num -> num -> num.
Implicit Types (s : MemStorage num) (q : list (job num)) (j : job num).

Lemma run_job_no_credit uid j s :
  credits uid j = false ->
  JsMap.get uid (users (fst (Storage.run_job add j s))) = JsMap.get uid (users s)
  /\ forall j', In j' (snd (Storage.run_job add j s)) -> credits uid j' = false.
Proof.
  destruct j as [betId st bet [u|]|id bal [u|] betId st|betId st]; simpl; intros Hc.
  - split; [reflexivity|]. intros j' [<-|[]]. exact Hc.
  - destruct (resolveBet_store_frame num betId st s) as (-> & _). now split.
  - apply Z.eqb_neq in Hc. split.
    + apply JsMapFacts.get_set_other. congruence.
    + intros j' [<-|[]]. reflexivity.
  - split; [reflexivity|]. intros j' [<-|[]]. reflexivity.
  - destruct (resolveBet_store_frame num betId st s) as (-> & _). now split.
Qed.

Lemma filter_nil_forall {A : Type} (f : A -> bool) (l : list A) :
  filter f l = [] <-> forall x, In x l -> f x = false.
Proof.
  induction l as [|x l IH]; simpl; [tauto|].
  destruct (f x) eqn:E; split.
  - discriminate.
  - intros H. specialize (H x (or_introl eq_refl)). congruence.
  - intros H y [<-|Hin]; [exact E|]. now apply IH.
  - intros H. apply IH. intros y Hin. apply H. now right.
Qed.

(** A job that does not write the balance of [uid] leaves the list of the
jobs that do as it is. *)
Lemma run_job_other_credits uid j s rest :
  credits uid j = false ->
  filter (credits uid) (rest ++ snd (Storage.run_job add j s))
  = filter (credits uid) rest.
Proof.
  intros Hc. destruct (run_job_no_credit uid j s Hc) as [_ Hnew].
  apply filter_nil_forall in Hnew. now rewrite filter_app, Hnew, app_nil_r.
Qed.

(** A balance that no job is going to write stays as it is. *)
Lemma drain_no_credit uid fuel : forall q s s',
  Storage.drain add fuel q s = (s', []) ->
  filter (credits uid) q = [] ->
  JsMap.get uid (users s') = JsMap.get uid (users s).
Proof.
  induction fuel as [|fuel IH]; intros [|j rest] s s' Hd Hq; simpl in Hd;
    try (inversion Hd; subst; reflexivity); try discriminate.
  simpl in Hq. destruct (credits uid j) eqn:Ec; [discriminate|].
  destruct (run_job_no_credit uid j s Ec) as [Hu _].
  pose proof (run_job_other_credits uid j s rest Ec) as Hf.
  destruct (Storage.run_job add j s) as [s1 new]. simpl in *.
  rewrite <- Hu. apply (IH _ _ _ Hd). congruence.
Qed.

(** Among the jobs about to write the balance of [uid], all of them
[updateUserBalance] calls past their [await], the last one in the queue
decides: the balance it carries is the final one. *)
Lemma drain_last_write uid bal u2 betId st fuel : forall q s s' k2s,
  Storage.drain add fuel q s = (s', []) ->
  filter (credits uid) q = k2s ++ [AfterInnerGetUser uid bal (Some u2) betId st] ->
  Forall (fun j => is_update j = true) k2s ->
  JsMap.get uid (users s') = Some (User.with_balance u2 bal).
Proof.
  induction fuel as [|fuel IH]; intros [|j rest] s s' k2s Hd Hq Hk2; simpl in Hd;
    try discriminate; try (now destruct k2s).
  simpl in Hq. destruct (credits uid j) eqn:Ec.
  - destruct k2s as [|j2 k2s]; simpl in Hq; injection Hq as Ej Hrest.
    + subst j. simpl in Hd.
      rewrite (drain_no_credit uid fuel _ _ _ Hd).
      * simpl. apply JsMapFacts.get_set_same.
      * rewrite filter_app, Hrest. reflexivity.
    + subst j2. inversion Hk2 as [|? ? Hj Hk2']; subst.
      destruct j as [| id' bal' v' betId' st' |]; try discriminate.
      assert (Hnew : snd (Storage.run_job add
                            (AfterInnerGetUser id' bal' v' betId' st') s)
                     = [AfterUpdateUserBalance betId' st']) by now destruct v'.
      destruct (Storage.run_job add (AfterInnerGetUser id' bal' v' betId' st') s)
        as [s1 new].
      simpl in Hnew. subst new.
      apply (IH _ _ _ k2s Hd); [|exact Hk2'].
      rewrite filter_app, Hrest. simpl. apply app_nil_r.
  - pose proof (run_job_other_credits uid j s rest Ec) as Hf.
    destruct (Storage.run_job add j s) as [s1 new]. simpl in *.
    apply (IH _ _ _ k2s Hd); [congruence|exact Hk2].
Qed.

(** Among the jobs about to write the balance of [uid], the [resolveBet]
calls past their first [await] come first in the queue.  They all read the
balance before any of them writes it, so only the last one counts: the final
balance is the balance it read plus the potential win of its bet. *)
Lemma drain_last_credit uid betId st bet u u2 fuel : forall q s s' k1s k2s,
  Storage.drain add fuel q s = (s', []) ->
  filter (credits uid) q = k1s ++ AfterGetUser betId st bet (Some u) :: k2s ->
  Forall (fun j => is_update j = false) k1s ->
  Forall (fun j => is_update j = true) k2s ->
  JsMap.get uid (users s) = Some u2 ->
  JsMap.get uid (users s')
  = Some (User.with_balance u2 (add (User.balance u) (Bet.potentialWin bet))).
Proof.
  induction fuel as [|fuel IH]; intros [|j rest] s s' k1s k2s Hd Hq Hk1 Hk2 Hu2;
    simpl in Hd; try discriminate; try (now destruct k1s).
  simpl in Hq. destruct (credits uid j) eqn:Ec.
  - destruct k1s as [|j1 k1s]; simpl in Hq; injection Hq as Ej Hrest.
    + subst j. simpl in Ec. apply Z.eqb_eq in Ec.
      simpl in Hd. unfold Storage.getUser in Hd. rewrite Ec, Hu2 in Hd.
      apply (drain_last_write uid _ _ betId st fuel _ _ _ k2s Hd); [|exact Hk2].
      rewrite filter_app, Hrest. simpl. now rewrite Z.eqb_refl.
    + subst j1. inversion Hk1 as [|? ? Hj Hk1']; subst.
      destruct j as [betId1 st1 bet1 [u1|] | |]; try discriminate.
      simpl in Ec. apply Z.eqb_eq in Ec. simpl in Hd.
      apply (IH _ _ _ k1s (k2s ++ [AfterInnerGetUser (User.id u1)
                                     (add (User.balance u1) (Bet.potentialWin bet1))
                                     (Storage.getUser (User.id u1) s) betId1 st1])
                Hd); auto.
      * rewrite filter_app, Hrest. simpl. rewrite Ec, Z.eqb_refl.
        now rewrite <- app_assoc.
      * apply Forall_app. split; [exact Hk2|]. now constructor.
  - destruct (run_job_no_credit uid j s Ec) as [Hu _].
    pose proof (run_job_other_credits uid j s rest Ec) as Hf.
    destruct (Storage.run_job add j s) as [s1 new]. simpl in *.
    apply (IH _ _ _ k1s k2s Hd); auto; congruence.
Qed.

End CreditFacts.

(** *** Which jobs of the pass write a given balance *)

Section PassCredits.
Variable num : Type.
Variables (matchId : Z) (mt : Match.t) (h a : Z).
Variable uid : Z.
Implicit Types (s : MemStorage num) (q : list (job num)) (j : job num).

Lemma resolveBet_core k betId st s :
  option_map (fun b => Bet.with_status b "")
             (JsMap.get k (bets (fst (Storage.resolveBet betId st s))))
  = option_map (fun b => Bet.with_status b "") (JsMap.get k (bets s)).
Proof.
  destruct (Z.eq_dec k betId) as [->|Hne].
  - destruct (resolveBet_own_bet num betId st s) as [[_ E]|[_ E]]; rewrite E;
      [reflexivity|]. now destruct (JsMap.get betId (bets s)).
  - now rewrite resolveBet_other_bet.
Qed.

Lemma getUser_id s id u :
  JsMap.keyed_by User.id (users s) = true ->
  Storage.getUser id s = Some u -> User.id u = id.
Proof.
  intros Hk Hg. apply JsMapFacts.get_In in Hg.
  exact (JsMapFacts.keyed_by_In User.id _ _ _ Hk Hg).
Qed.

Lemma resolveBet_no_credit betId st s bet :
  JsMap.keyed_by User.id (users s) = true ->
  option_map (fun b => Bet.with_status b "") (JsMap.get betId (bets s))
  = Some (Bet.with_status bet "") ->
  Bet.userId bet <> uid ->
  filter (credits uid) (snd (Storage.resolveBet betId st s)) = [].
Proof.
  intros Hk Hcore Hne. apply filter_nil_forall. intros j Hin.
  apply resolveBet_jobs in Hin. destruct Hin as (cap & Hcap & _ & ->).
  rewrite Hcap in Hcore. unfold Bet.with_status in Hcore. simpl in Hcore.
  injection Hcore as _ Hu _ _ _.
  simpl. destruct (Storage.getUser (Bet.userId cap) s) as [u|] eqn:Eu;
    [|reflexivity].
  apply (getUser_id s _ _ Hk) in Eu. apply Z.eqb_neq. congruence.
Qed.

Lemma resolveBet_not_won_no_job betId st s :
  String.eqb st "WON" = false -> snd (Storage.resolveBet betId st s) = [].
Proof. intros E. unfold Storage.resolveBet. now rewrite E. Qed.

(** The jobs of the pass that write the balance of [uid] are, in the order of
the snapshot, one per pending bet of [uid] that the loop resolves to WON; each
holds a copy of its bet (up to the status) and the user as read during the
pass. *)
Lemma pass_credits u : forall l s q,
  JsMap.keyed_by User.id (users s) = true ->
  (forall b, In b l ->
     option_map (fun b => Bet.with_status b "") (JsMap.get (Bet.id b) (bets s))
     = Some (Bet.with_status b "")) ->
  Storage.getUser uid s = Some u ->
  exists js,
    filter (credits uid)
           (snd (fold_left (Storage.settleBet matchId mt h a) l (s, q)))
    = filter (credits uid) q ++ js
    /\ Forall2 (fun b j => exists cap,
                    Bet.potentialWin cap = Bet.potentialWin b
                    /\ j = AfterGetUser (Bet.id b) "WON" cap (Some u))
               (filter (Storage.wonFor s matchId mt h a uid) l) js.
Proof.
  induction l as [|b0 l IH]; intros s q Hk Hl Hu; cbn [fold_left].
  { exists []. split; [now rewrite app_nil_r|constructor]. }
  rewrite settleBet_unfold. simpl. unfold Storage.wonFor at 1.
  set (st := Storage.verdict s matchId mt h a (Bet.id b0)).
  pose proof (resolveBet_frame num (Bet.id b0) st s) as (Hus & _ & Hm & Hb & _).
  assert (Hw : forall s1, markets s1 = markets s -> betSelections s1 = betSelections s ->
                 filter (Storage.wonFor s1 matchId mt h a uid) l
                 = filter (Storage.wonFor s matchId mt h a uid) l).
  { intros s1 Hm1 Hb1. apply filter_ext. intros b. unfold Storage.wonFor.
    now rewrite (verdict_frame num s s1 matchId mt h a (Bet.id b) Hm1 Hb1). }
  destruct (String.eqb (Bet.status b0) "PENDING") eqn:Ep; simpl.
  - destruct (IH (fst (Storage.resolveBet (Bet.id b0) st s))
                 (q ++ snd (Storage.resolveBet (Bet.id b0) st s)))
      as (js & Hq & Hjs).
    + now rewrite Hus.
    + intros b Hin. rewrite resolveBet_core. apply Hl. now right.
    + unfold Storage.getUser in *. now rewrite Hus.
    + rewrite (Hw _ Hm Hb) in Hjs. rewrite Hq, filter_app.
      destruct (Bet.userId b0 =? uid) eqn:Eu; simpl.
      * apply Z.eqb_eq in Eu.
        destruct (String.eqb_spec st "WON") as [Est|Est].
        -- pose proof (Hl b0 (or_introl eq_refl)) as Hcore.
           destruct (JsMap.get (Bet.id b0) (bets s)) as [cap|] eqn:Ecap;
             [|discriminate].
           unfold Bet.with_status in Hcore. simpl in Hcore.
           injection Hcore as _ Hcu _ _ Hcp.
           exists (AfterGetUser (Bet.id b0) "WON" cap (Some u) :: js). split.
           ++ rewrite Est. unfold Storage.resolveBet. simpl. rewrite Ecap. simpl.
              rewrite Hcu, Eu, Hu. simpl.
              rewrite (getUser_id s uid u Hk Hu), Z.eqb_refl.
              now rewrite <- app_assoc.
           ++ constructor; [|exact Hjs]. now exists cap.
        -- exists js. split; [|exact Hjs].
           rewrite resolveBet_not_won_no_job; [now rewrite app_nil_r|].
           now apply String.eqb_neq.
      * apply Z.eqb_neq in Eu. exists js. split; [|exact Hjs].
        rewrite (resolveBet_no_credit (Bet.id b0) st s b0 Hk
                   (Hl b0 (or_introl eq_refl)) Eu).
        now rewrite app_nil_r.
  - apply IH; auto. intros b Hin. apply Hl. now right.
Qed.

End PassCredits.

(** ** [resolveBet] on its own *)

Section ResolveBet.
Variable num : Type.
Variable add : num -> num -> num.
Implicit Types (s : MemStorage num) (bet : Bet.t num) (u : User.t num).

Lemma settle_nil s : Storage.settle add (s, []) = Some s.
Proof. reflexivity. Qed.

Lemma set_bets_same s : Storage.set_bets s (bets s) = s.
Proof. now destruct s. Qed.

(** A call of [resolveBet] with a status other than WON has no [await] on its
path: it writes the status and nothing else. *)
Lemma resolveBet_not_won betId st s bet :
  st <> "WON" ->
  JsMap.get betId (bets s) = Some bet ->
  Storage.settle add (Storage.resolveBet betId st s)
  = Some (Storage.set_bets s (JsMap.set betId (Bet.with_status bet st) (bets s))).
Proof.
  intros Hst Hb. unfold Storage.resolveBet.
  destruct (String.eqb_spec st "WON") as [E|_]; [contradiction|].
  unfold Storage.resolveBet_store. rewrite Hb. apply settle_nil.
Qed.

(** A call of [resolveBet] with WON for a bet whose owner exists runs through
both [await]s: the owner is credited, then the status is written. *)
Lemma resolveBet_won betId s bet u :
  JsMap.get betId (bets s) = Some bet ->
  Storage.getUser (Bet.userId bet) s = Some u ->
  User.id u = Bet.userId bet ->
  Storage.settle add (Storage.resolveBet betId "WON" s)
  = Some (mkStorage
            (JsMap.set (Bet.userId bet)
               (User.with_balance u (add (User.balance u) (Bet.potentialWin bet)))
               (users s))
            (matches s) (markets s)
            (JsMap.set betId (Bet.with_status bet "WON") (bets s))
            (betSelections s)).
Proof.
  intros Hb Hu Hid. unfold Storage.resolveBet. simpl. rewrite Hb, Hu.
  unfold Storage.settle. simpl. rewrite Hid, Hu. simpl.
  unfold Storage.resolveBet_store. simpl. rewrite Hb. reflexivity.
Qed.

(** C3. For an existing bet whose owner exists (and is stored under the user
id the bet names), [resolveBet(betId, "WON")] adds exactly the bet's
potential win to the owner's balance, leaves every other user as it was and
sets the status of the bet to WON; with "PUSH" or "LOST" it sets the status to
that value and leaves the whole user map unchanged. *)
Theorem resolveBet_pays_only_won (s : MemStorage num) (betId : Z)
        (bet : Bet.t num) (u : User.t num) :
  JsMap.get betId (bets s) = Some bet ->
  Storage.getUser (Bet.userId bet) s = Some u ->
  User.id u = Bet.userId bet ->
  (exists s',
      Storage.settle add (Storage.resolveBet betId "WON" s) = Some s'
      /\ JsMap.get betId (bets s') = Some (Bet.with_status bet "WON")
      /\ users s'
         = JsMap.set (Bet.userId bet)
             (User.with_balance u (add (User.balance u) (Bet.potentialWin bet)))
             (users s)
      /\ Storage.getUser (Bet.userId bet) s'
         = Some (User.with_balance u (add (User.balance u) (Bet.potentialWin bet)))
      /\ (forall id, id <> Bet.userId bet ->
            Storage.getUser id s' = Storage.getUser id s))
  /\ (forall status, status = "PUSH" \/ status = "LOST" ->
      exists s',
        Storage.settle add (Storage.resolveBet betId status s) = Some s'
        /\ JsMap.get betId (bets s') = Some (Bet.with_status bet status)
        /\ users s' = users s).
Proof.
  intros Hb Hu Hid. split.
  - eexists. split; [apply (resolveBet_won betId s bet u Hb Hu Hid)|].
    simpl. split; [apply JsMapFacts.get_set_same|].
    split; [reflexivity|].
    unfold Storage.getUser. simpl.
    split; [apply JsMapFacts.get_set_same|].
    intros id Hne. now apply JsMapFacts.get_set_other.
  - intros status Hst.
    assert (Hnw : status <> "WON") by (destruct Hst as [-> | ->]; discriminate).
    eexists. split; [apply (resolveBet_not_won betId status s bet Hnw Hb)|].
    simpl. split; [apply JsMapFacts.get_set_same|reflexivity].
Qed.

Lemma set_bets_unchanged (s : MemStorage num) betId bet st :
  JsMap.get betId (bets s) = Some bet ->
  Storage.set_bets s (JsMap.set betId (Bet.with_status bet st) (bets s)) = s
  <-> st = Bet.status bet.
Proof.
  intros Hb. split.
  - intros E. apply (f_equal bets) in E. simpl in E.
    apply (f_equal (JsMap.get betId)) in E.
    rewrite JsMapFacts.get_set_same, Hb in E. injection E as E.
    apply (f_equal Bet.status) in E. exact E.
  - intros ->. rewrite with_status_same.
    rewrite (JsMapFacts.set_get_id _ _ _ Hb). apply set_bets_same.
Qed.

Lemma with_balance_same (u : User.t num) : User.with_balance u (User.balance u) = u.
Proof. now destruct u. Qed.

(** C4, as amended.  [resolveBet] does not look at the status a bet already
has.  For a bet that is no longer PENDING it still overwrites the status with
the new one.  When the new status is not WON it leaves all balances
unchanged, and the store is left as it was exactly when the new status is the
status the bet already has.  When the new status is WON it credits the owner
with the potential win once more, and the store is left as it was exactly
when the bet is already WON and the credit does not change the balance, or
the owner does not exist. *)
Theorem resolveBet_ignores_current_status (s : MemStorage num) (betId : Z)
        (bet : Bet.t num) (newStatus : string) :
  JsMap.get betId (bets s) = Some bet ->
  Bet.status bet <> "PENDING" ->
  exists s',
    Storage.settle add (Storage.resolveBet betId newStatus s) = Some s'
    /\ JsMap.get betId (bets s') = Some (Bet.with_status bet newStatus)
    /\ (newStatus <> "WON" -> users s' = users s)
    /\ (newStatus <> "WON" -> (s' = s <-> newStatus = Bet.status bet))
    /\ (newStatus = "WON" ->
        forall u, Storage.getUser (Bet.userId bet) s = Some u ->
                  User.id u = Bet.userId bet ->
                  Storage.getUser (Bet.userId bet) s'
                  = Some (User.with_balance u
                            (add (User.balance u) (Bet.potentialWin bet)))
                  /\ (s' = s
                      <-> Bet.status bet = "WON"
                          /\ add (User.balance u) (Bet.potentialWin bet)
                             = User.balance u))
    /\ (newStatus = "WON" ->
        Storage.getUser (Bet.userId bet) s = None ->
        users s' = users s /\ (s' = s <-> Bet.status bet = "WON")).
Proof.
  intros Hb _.
  destruct (string_dec newStatus "WON") as [->|Hnw].
  - destruct (Storage.getUser (Bet.userId bet) s) as [u|] eqn:Hu.
    + destruct (Z.eq_dec (User.id u) (Bet.userId bet)) as [Hid|Hid].
      * eexists. split; [apply (resolveBet_won betId s bet u Hb Hu Hid)|].
        simpl. split; [apply JsMapFacts.get_set_same|].
        split; [congruence|]. split; [congruence|]. split; [|discriminate].
        intros _ u' Hu' _. injection Hu' as <-. split.
        { unfold Storage.getUser. simpl. apply JsMapFacts.get_set_same. }
        split.
        { intros E. split.
          - apply (f_equal bets) in E. simpl in E.
            apply (f_equal (JsMap.get betId)) in E.
            rewrite JsMapFacts.get_set_same, Hb in E. injection E as E.
            apply (f_equal Bet.status) in E. symmetry. exact E.
          - apply (f_equal users) in E. simpl in E.
            apply (f_equal (JsMap.get (Bet.userId bet))) in E.
            unfold Storage.getUser in Hu.
            rewrite JsMapFacts.get_set_same, Hu in E. injection E as E.
            apply (f_equal User.balance) in E. exact E. }
        { intros [Est Ebal]. rewrite Ebal, with_balance_same.
          unfold Storage.getUser in Hu.
          rewrite (JsMapFacts.set_get_id _ _ _ Hu).
          rewrite <- Est, with_status_same, (JsMapFacts.set_get_id _ _ _ Hb).
          now destruct s. }
      * destruct (Storage.settle add (Storage.resolveBet betId "WON" s)) as [s'|] eqn:Es.
        2:{ unfold Storage.resolveBet in Es. simpl in Es. rewrite Hb, Hu in Es.
            unfold Storage.settle in Es. simpl in Es.
            destruct (Storage.getUser (User.id u) s); discriminate. }
        exists s'. split; [reflexivity|].
        unfold Storage.resolveBet in Es. simpl in Es. rewrite Hb, Hu in Es.
        unfold Storage.settle in Es. simpl in Es.
        split.
        { destruct (Storage.getUser (User.id u) s); simpl in Es;
            unfold Storage.resolveBet_store in Es; simpl in Es;
            rewrite Hb in Es; inversion Es; subst; simpl;
            apply JsMapFacts.get_set_same. }
        split; [congruence|]. split; [congruence|]. split; [|discriminate].
        intros _ u' Hu' Hid'. injection Hu' as <-. contradiction.
    + exists (Storage.set_bets s (JsMap.set betId (Bet.with_status bet "WON") (bets s))).
      split.
      * unfold Storage.resolveBet. simpl. rewrite Hb, Hu.
        unfold Storage.settle. simpl. unfold Storage.resolveBet_store.
        now rewrite Hb.
      * simpl. split; [apply JsMapFacts.get_set_same|].
        split; [congruence|]. split; [congruence|]. split; [discriminate|].
        intros _ _. split; [reflexivity|].
        rewrite (set_bets_unchanged s betId bet "WON" Hb). split; congruence.
  - eexists. split; [apply (resolveBet_not_won betId newStatus s bet Hnw Hb)|].
    simpl. split; [apply JsMapFacts.get_set_same|].
    split; [reflexivity|].
    split; [intros _; now apply set_bets_unchanged|].
    split; intros E; contradiction.
Qed.

(** C9. When no match carries the given id, or the match found is not
FINISHED, or one of its full-time scores is null, [resolveBetsForMatch]
returns at once: no job is scheduled and the store, with every bet and every
balance, is what it was. *)
Theorem resolveBetsForMatch_needs_final_result (s : MemStorage num) (matchId : Z) :
  Storage.findMatch matchId s = None
  \/ (exists mt, Storage.findMatch matchId s = Some mt
                 /\ (Match.status mt <> "FINISHED"
                     \/ Match.homeScore mt = None
                     \/ Match.awayScore mt = None)) ->
  Storage.resolveBetsForMatch matchId s = (s, [])
  /\ Storage.settle add (Storage.resolveBetsForMatch matchId s) = Some s.
Proof.
  intros H.
  assert (E : Storage.resolveBetsForMatch matchId s = (s, [])).
  { unfold Storage.resolveBetsForMatch.
    destruct H as [->|(mt & -> & H)]; [reflexivity|].
    destruct (String.eqb_spec (Match.status mt) "FINISHED") as [Ef|_];
      [|reflexivity]. simpl.
    destruct H as [H|[-> | H]]; [contradiction|reflexivity|].
    rewrite H. now destruct (Match.homeScore mt). }
  split; [exact E|]. rewrite E. apply settle_nil.
Qed.

(** On a store keyed by id, "no match carries the id" is what [getMatch]
reports. *)
Lemma findMatch_getMatch s matchId :
  JsMap.keyed_by Match.id (matches s) = true ->
  Storage.findMatch matchId s = Storage.getMatch matchId s.
Proof. intros Hk. unfold Storage.findMatch. now apply JsMapFacts.find_keyed_by. Qed.

End ResolveBet.

(** ** [resolveBetsForMatch] and [updateMatchStatus] *)

Section Settlement.
Variable num : Type.
Variable add : num -> num -> num.
Implicit Types (s : MemStorage num) (bet : Bet.t num) (u : User.t num).

Lemma settle_total (r : MemStorage num * list (job num)) :
  exists s',
    Storage.settle add r = Some s'
    /\ Storage.drain add (Storage.queue_weight (snd r)) (snd r) (fst r) = (s', []).
Proof.
  destruct r as [s q]. rewrite settle_drain. eexists. split; [reflexivity|].
  now apply settle_inv, settle_drain.
Qed.

Lemma resolveBetsForMatch_finished s matchId mt h a :
  Storage.findMatch matchId s = Some mt ->
  Match.status mt = "FINISHED" ->
  Match.homeScore mt = Some h -> Match.awayScore mt = Some a ->
  Storage.resolveBetsForMatch matchId s
  = fold_left (Storage.settleBet matchId mt h a) (JsMap.values (bets s)) (s, []).
Proof.
  intros Hf Hs Hh Ha. unfold Storage.resolveBetsForMatch.
  now rewrite Hf, Hs, Hh, Ha.
Qed.

Lemma resolveBetsForMatch_cases s matchId :
  Storage.resolveBetsForMatch matchId s = (s, [])
  \/ exists mt h a,
      Storage.findMatch matchId s = Some mt /\ Match.status mt = "FINISHED"
      /\ Match.homeScore mt = Some h /\ Match.awayScore mt = Some a.
Proof.
  unfold Storage.resolveBetsForMatch.
  destruct (Storage.findMatch matchId s) as [mt|]; [|now left].
  destruct (String.eqb_spec (Match.status mt) "FINISHED") as [Es|_]; [|now left].
  simpl.
  destruct (Match.homeScore mt) as [h|] eqn:Eh; [|now left].
  destruct (Match.awayScore mt) as [a|] eqn:Ea; [|now left].
  right. exists mt, h, a. repeat split; assumption.
Qed.

Lemma findMatch_id s matchId mt :
  Storage.findMatch matchId s = Some mt -> Match.id mt = matchId.
Proof.
  unfold Storage.findMatch. intros H. apply find_some in H.
  now apply Z.eqb_eq.
Qed.

(** The pass and the jobs it leaves behind bring a pending bet that is stored
under its own id to the verdict of the loop. *)
Lemma pass_pending_bet s matchId mt h a bet s' :
  JsMap.get (Bet.id bet) (bets s) = Some bet ->
  Bet.status bet = "PENDING" ->
  Storage.settle add
    (fold_left (Storage.settleBet matchId mt h a) (JsMap.values (bets s)) (s, []))
  = Some s' ->
  JsMap.get (Bet.id bet) (bets s')
  = Some (Bet.with_status bet (Storage.verdict s matchId mt h a (Bet.id bet))).
Proof.
  intros Hb Hp Hs.
  set (k := Bet.id bet) in *.
  set (st := Storage.verdict s matchId mt h a k).
  assert (Hc0 : on_course k st (Some bet) s []).
  { split; [intros j []|now left]. }
  pose proof (pass_on_course num matchId mt h a k st (Some bet)
                (JsMap.values (bets s)) s [] eq_refl Hc0) as Hc.
  pose proof (pass_under_way num matchId mt h a k st (Some bet)
                (JsMap.values (bets s)) s [] eq_refl Hc0) as Hu.
  simpl in Hc, Hu.
  destruct (fold_left (Storage.settleBet matchId mt h a) (JsMap.values (bets s)) (s, []))
    as [s1 q1].
  apply settle_inv in Hs.
  apply (drain_under_way num k st (Some bet) add _ q1 s1 s' Hs Hc).
  apply Hu. right. exists bet. repeat split; auto.
  apply JsMapFacts.In_values. exists k. now apply JsMapFacts.get_In.
Qed.

Lemma well_formed_bets s :
  well_formed s = true ->
  JsMap.nodup_keys (bets s) = true /\ JsMap.keyed_by Bet.id (bets s) = true
  /\ JsMap.keyed_by User.id (users s) = true
  /\ JsMap.keyed_by Match.id (matches s) = true.
Proof.
  unfold well_formed. rewrite !andb_true_iff. tauto.
Qed.

Lemma stored_under_own_id s bet :
  well_formed s = true ->
  In bet (JsMap.values (bets s)) ->
  JsMap.get (Bet.id bet) (bets s) = Some bet.
Proof.
  intros Hwf Hin. apply well_formed_bets in Hwf. destruct Hwf as (Hnd & Hk & _).
  apply JsMapFacts.In_values in Hin. destruct Hin as [k Hin].
  rewrite (JsMapFacts.keyed_by_In Bet.id _ _ _ Hk Hin).
  now apply JsMapFacts.In_get_nodup.
Qed.

(** On a well-formed store the pass and its jobs leave a bet that is not
pending as it is. *)
Lemma pass_settled_bet s matchId mt h a betId bet s' :
  well_formed s = true ->
  JsMap.get betId (bets s) = Some bet ->
  Bet.status bet <> "PENDING" ->
  Storage.settle add
    (fold_left (Storage.settleBet matchId mt h a) (JsMap.values (bets s)) (s, []))
  = Some s' ->
  JsMap.get betId (bets s') = Some bet.
Proof.
  intros Hwf Hb Hnp Hs.
  assert (Hl : forall b, In b (JsMap.values (bets s)) ->
                         Bet.status b = "PENDING" -> Bet.id b <> betId).
  { intros b Hin Hp E. apply (stored_under_own_id s b Hwf) in Hin.
    rewrite E in Hin. congruence. }
  pose proof (pass_untouched num matchId mt h a betId
                (JsMap.values (bets s)) s [] Hl) as [Hget Hq].
  simpl in Hget, Hq.
  destruct (fold_left (Storage.settleBet matchId mt h a) (JsMap.values (bets s)) (s, []))
    as [s1 q1].
  apply settle_inv in Hs. simpl in *.
  rewrite (drain_untouched_bet num add betId _ q1 s1 s' Hs); [congruence|].
  intros j Hin E. exact (Hq j Hin E).
Qed.

Lemma pass_no_pending matchId mt h a : forall l s (q : list (job num)),
  (forall b, In b l -> Bet.status b <> "PENDING") ->
  fold_left (Storage.settleBet matchId mt h a) l (s, q) = (s, q).
Proof.
  induction l as [|b l IH]; intros s q Hl; cbn [fold_left]; [reflexivity|].
  rewrite settleBet_unfold.
  destruct (String.eqb_spec (Bet.status b) "PENDING") as [E|_].
  - now elim (Hl b (or_introl eq_refl)).
  - apply IH. intros b' Hb'. apply Hl. now right.
Qed.

Lemma verdict_not_pending s matchId mt h a betId :
  Storage.verdict s matchId mt h a betId <> "PENDING".
Proof.
  destruct (verdict_is_final num s matchId mt h a betId) as [->|[->| ->]];
    discriminate.
Qed.

Lemma Forall2_singleton {A B : Type} (R : A -> B -> Prop) (x : A) (l : list B) :
  Forall2 R [x] l -> exists y, l = [y] /\ R x y.
Proof.
  intros H. inversion H as [|? y ? l' Hxy Hl']. inversion Hl'. now exists y.
Qed.

Lemma filter_andb {A : Type} (f g : A -> bool) (l : list A) :
  filter (fun x => f x && g x) l = filter g (filter f l).
Proof.
  induction l as [|x l IH]; simpl; [reflexivity|].
  destruct (f x); simpl; [|exact IH]. destruct (g x); now rewrite IH.
Qed.

(** What the pass does to a balance: of the pending bets of [uid] that the
loop resolves to WON, only the last one in the order of the map is paid.  All
of them read the balance before any of them writes it, so each write is the
old balance plus one potential win and the last write stays. *)
Lemma pass_final_balance s matchId mt h a uid u s' :
  well_formed s = true ->
  Storage.getUser uid s = Some u ->
  Storage.settle add
    (fold_left (Storage.settleBet matchId mt h a) (JsMap.values (bets s)) (s, []))
  = Some s' ->
  Storage.getUser uid s'
  = Some (match rev (filter (Storage.wonFor s matchId mt h a uid)
                            (JsMap.values (bets s))) with
          | [] => u
          | bet :: _ =>
              User.with_balance u (add (User.balance u) (Bet.potentialWin bet))
          end).
Proof.
  intros Hwf Hu Hs. destruct (well_formed_bets s Hwf) as (_ & _ & Hku & _).
  destruct (pass_credits num matchId mt h a uid u (JsMap.values (bets s)) s [])
    as (js & Hq & Hjs); auto.
  { intros b Hin. now rewrite (stored_under_own_id s b Hwf Hin). }
  pose proof (pass_frame num matchId mt h a (JsMap.values (bets s)) s [])
    as (Hus & _).
  destruct (fold_left (Storage.settleBet matchId mt h a) (JsMap.values (bets s)) (s, []))
    as [s1 q1].
  apply settle_inv in Hs. simpl in Hq, Hus. unfold Storage.getUser in *.
  destruct (rev (filter (Storage.wonFor s matchId mt h a uid) (JsMap.values (bets s))))
    as [|bet r] eqn:Er.
  - apply (f_equal (@rev _)) in Er. rewrite rev_involutive in Er. simpl in Er.
    rewrite Er in Hjs. assert (Ejs : js = []) by now inversion Hjs.
    rewrite Ejs in Hq.
    rewrite (drain_no_credit num add uid _ q1 s1 s' Hs Hq). congruence.
  - apply (f_equal (@rev _)) in Er. rewrite rev_involutive in Er. simpl in Er.
    rewrite Er in Hjs. apply Forall2_app_inv_l in Hjs.
    destruct Hjs as (k1s & last & Hk1 & Hlast & Ejs).
    destruct (Forall2_singleton _ _ _ Hlast) as (j & Elast & cap & Hcap & Ej).
    rewrite Ejs, Elast, Ej in Hq.
    rewrite (drain_last_credit num add uid (Bet.id bet) "WON" cap u u
               _ q1 s1 s' k1s [] Hs Hq).
    + now rewrite Hcap.
    + clear -Hk1. induction Hk1 as [|b j l l' (cap & _ & ->) _ IH];
        constructor; auto.
    + constructor.
    + congruence.
Qed.

(** C2. When [resolveBetsForMatch] runs for a match that is FINISHED with both
full-time scores present, every pending bet (stored under its own id) ends
with the status that the aggregation rule gives for those of its selections
whose market exists and belongs to that match: LOST if one of them is neither
a winner nor a push, otherwise PUSH if one of them is a push, otherwise WON,
also when there is no such selection.  Selections on other matches or on
missing markets do not enter. *)
Theorem resolveBetsForMatch_pending_bet (s : MemStorage num) (matchId : Z)
        (mt : Match.t) (homeScore awayScore : Z) (bet : Bet.t num) :
  Storage.findMatch matchId s = Some mt ->
  Match.status mt = "FINISHED" ->
  Match.homeScore mt = Some homeScore ->
  Match.awayScore mt = Some awayScore ->
  JsMap.get (Bet.id bet) (bets s) = Some bet ->
  Bet.status bet = "PENDING" ->
  exists s',
    Storage.settle add (Storage.resolveBetsForMatch matchId s) = Some s'
    /\ JsMap.get (Bet.id bet) (bets s')
       = Some (Bet.with_status bet
                 (Spec.expectedStatus s mt homeScore awayScore (Bet.id bet))).
Proof.
  intros Hf Hst Hh Ha Hb Hp.
  rewrite (resolveBetsForMatch_finished s matchId mt homeScore awayScore Hf Hst Hh Ha).
  destruct (settle_total
              (fold_left (Storage.settleBet matchId mt homeScore awayScore)
                         (JsMap.values (bets s)) (s, []))) as (s' & Hs & _).
  exists s'. split; [exact Hs|].
  rewrite (pass_pending_bet s matchId mt homeScore awayScore bet s' Hb Hp Hs).
  rewrite <- (findMatch_id s matchId mt Hf). now rewrite verdict_expected.
Qed.

(** C6. On a well-formed store [resolveBetsForMatch] leaves every bet that is
not pending (WON, LOST, PUSH) exactly as it is, and running it a second time
for the same match, once the first run and its jobs are through, changes
nothing: the store after the second run is the store after the first, with
the same status on every bet.  ([second_pass_at_any_time] below extends the
statement on statuses to a second run that starts earlier.) *)
Theorem resolveBetsForMatch_idempotent (s : MemStorage num) (matchId : Z) :
  well_formed s = true ->
  exists s1,
    Storage.settle add (Storage.resolveBetsForMatch matchId s) = Some s1
    /\ (forall betId bet,
          JsMap.get betId (bets s) = Some bet ->
          Bet.status bet <> "PENDING" ->
          JsMap.get betId (bets s1) = Some bet)
    /\ Storage.settle add (Storage.resolveBetsForMatch matchId s1) = Some s1.
Proof.
  intros Hwf.
  destruct (resolveBetsForMatch_cases s matchId) as [E|(mt & h & a & Hf & Hst & Hh & Ha)].
  - exists s. rewrite E. repeat split; auto.
  - rewrite (resolveBetsForMatch_finished s matchId mt h a Hf Hst Hh Ha).
    destruct (settle_total
                (fold_left (Storage.settleBet matchId mt h a)
                           (JsMap.values (bets s)) (s, []))) as (s1 & Hs & Hd).
    exists s1. split; [exact Hs|]. split.
    + intros betId bet Hb Hnp.
      exact (pass_settled_bet s matchId mt h a betId bet s1 Hwf Hb Hnp Hs).
    + pose proof (pass_frame num matchId mt h a (JsMap.values (bets s)) s [])
        as (_ & Hm1 & _ & _ & Hk1).
      destruct (fold_left (Storage.settleBet matchId mt h a)
                          (JsMap.values (bets s)) (s, [])) as [s0 q0] eqn:Ef.
      simpl in Hd, Hm1, Hk1.
      destruct (drain_frame num add _ _ _ _ Hd) as (Hm2 & _ & _ & Hk2).
      assert (Hf1 : Storage.findMatch matchId s1 = Some mt).
      { unfold Storage.findMatch in *. now rewrite Hm2, Hm1. }
      rewrite (resolveBetsForMatch_finished s1 matchId mt h a Hf1 Hst Hh Ha).
      rewrite pass_no_pending; [reflexivity|].
      intros b1 Hin Hp1.
      apply JsMapFacts.In_values in Hin. destruct Hin as [k Hin].
      destruct (well_formed_bets s Hwf) as (Hnd & Hkb & _).
      assert (Hnd1 : JsMap.nodup_keys (bets s1) = true).
      { rewrite (JsMapFacts.nodup_keys_ext (bets s1) (bets s)); [exact Hnd|congruence]. }
      pose proof (JsMapFacts.In_get_nodup k b1 (bets s1) Hnd1 Hin) as Hg1.
      destruct (JsMap.get k (bets s)) as [b|] eqn:Hg.
      * destruct (string_dec (Bet.status b) "PENDING") as [Hp|Hnp].
        -- pose proof (JsMapFacts.keyed_by_In Bet.id _ _ _ Hkb
                         (JsMapFacts.get_In _ _ _ Hg)) as Hid.
           rewrite <- Hid in Hg, Hg1. rewrite <- Ef in Hs.
           rewrite (pass_pending_bet s matchId mt h a b s1 Hg Hp Hs) in Hg1.
           inversion Hg1; subst b1. simpl in Hp1.
           exact (verdict_not_pending s matchId mt h a (Bet.id b) Hp1).
        -- rewrite <- Ef in Hs.
           rewrite (pass_settled_bet s matchId mt h a k b s1 Hwf Hg Hnp Hs) in Hg1.
           congruence.
      * apply JsMapFacts.get_None_keys in Hg. apply Hg.
        rewrite <- Hk1, <- Hk2. unfold JsMap.keys.
        change k with (fst (k, b1)). now apply in_map.
Qed.

(** A pending bet with no selection that counts for the finished match is
resolved to WON all the same. *)
Lemma uncounted_bet_expected_won s mt h a betId :
  Spec.countedMarkets s (Match.id mt) betId = [] ->
  Spec.expectedStatus s mt h a betId = "WON".
Proof. intros E. unfold Spec.expectedStatus. now rewrite E. Qed.

(** The balance of a user after [resolveBetsForMatch] for a finished match:
the balance before plus the potential win of the last of the user's bets that
the pass resolves to WON, and nothing for the others. *)
Lemma resolveBetsForMatch_pays_last_won_only s matchId mt h a uid u :
  well_formed s = true ->
  Storage.findMatch matchId s = Some mt ->
  Match.status mt = "FINISHED" ->
  Match.homeScore mt = Some h -> Match.awayScore mt = Some a ->
  Storage.getUser uid s = Some u ->
  exists s',
    Storage.settle add (Storage.resolveBetsForMatch matchId s) = Some s'
    /\ Storage.getUser uid s'
       = Some (match rev (filter (Storage.wonFor s matchId mt h a uid)
                                 (JsMap.values (bets s))) with
               | [] => u
               | bet :: _ =>
                   User.with_balance u
                     (add (User.balance u) (Bet.potentialWin bet))
               end).
Proof.
  intros Hwf Hf Hst Hh Ha Hu.
  rewrite (resolveBetsForMatch_finished s matchId mt h a Hf Hst Hh Ha).
  destruct (settle_total
              (fold_left (Storage.settleBet matchId mt h a)
                         (JsMap.values (bets s)) (s, []))) as (s' & Hs & _).
  exists s'. split; [exact Hs|].
  exact (pass_final_balance s matchId mt h a uid u s' Hwf Hu Hs).
Qed.

End Settlement.

(** ** A second pass that starts before the jobs of the first have run *)

Section Overlap.
Variable num : Type.
Variable add : num -> num -> num.
Implicit Types (s : MemStorage num) (q : list (job num)) (j : job num).

Lemma run_job_on_course k st v0 j rest s :
  on_course k st v0 s (j :: rest) ->
  on_course k st v0 (fst (Storage.run_job add j s))
            (rest ++ snd (Storage.run_job add j s)).
Proof.
  intros [Hq Hget]. split.
  - intros j' Hin Hk. apply in_app_or in Hin. destruct Hin as [Hin|Hin].
    + apply Hq; [now right|exact Hk].
    + destruct (run_job_passes_on num add j s j' Hin) as [Eb Es].
      rewrite Es. apply Hq; [now left|congruence].
  - destruct (Z.eq_dec (job_betId j) k) as [Ek|Hne].
    + destruct (run_job_own_bet num add j s) as [[_ E]|[_ E]];
        rewrite Ek in E; rewrite E; [exact Hget|].
      rewrite (Hq j (or_introl eq_refl) Ek). right.
      destruct Hget as [->| ->]; [reflexivity|now destruct v0].
    + now rewrite (run_job_other_bet num add k j s Hne).
Qed.

Lemma run_job_under_way k st v0 j rest s :
  on_course k st v0 s (j :: rest) ->
  under_way k st v0 s (j :: rest) ->
  under_way k st v0 (fst (Storage.run_job add j s))
            (rest ++ snd (Storage.run_job add j s)).
Proof.
  intros [Hq Hget] Hu.
  destruct (Z.eq_dec (job_betId j) k) as [Ek|Hne].
  - destruct (run_job_own_bet num add j s) as [[Hn E]|[_ E]]; rewrite Ek in E.
    + left. destruct (snd (Storage.run_job add j s)) as [|j' new] eqn:En;
        [congruence|].
      exists j'. split; [apply in_or_app; right; now left|].
      assert (Hin : In j' (snd (Storage.run_job add j s))) by (rewrite En; now left).
      destruct (run_job_passes_on num add j s j' Hin) as [Eb _]. congruence.
    + right. rewrite E, (Hq j (or_introl eq_refl) Ek).
      destruct Hget as [->| ->]; [reflexivity|now destruct v0].
  - destruct Hu as [[j' [[->|Hin] Hk]]|Hdone]; [contradiction| |].
    + left. exists j'. split; [apply in_or_app; now left|exact Hk].
    + right. now rewrite (run_job_other_bet num add k j s Hne).
Qed.

(** However many jobs have run, a bet on course stays on course and a bet
under way stays under way. *)
Lemma drain_keeps_course k st v0 fuel : forall q s,
  on_course k st v0 s q ->
  on_course k st v0 (fst (Storage.drain add fuel q s))
            (snd (Storage.drain add fuel q s))
  /\ (under_way k st v0 s q ->
      under_way k st v0 (fst (Storage.drain add fuel q s))
                (snd (Storage.drain add fuel q s))).
Proof.
  induction fuel as [|fuel IH]; intros [|j rest] s Hc; simpl; try (now split).
  pose proof (run_job_on_course k st v0 j rest s Hc) as Hc'.
  pose proof (run_job_under_way k st v0 j rest s Hc) as Hu'.
  destruct (Storage.run_job add j s) as [s1 new]. simpl in *.
  destruct (IH _ _ Hc') as [H1 H2]. split; [exact H1|].
  intros Hu. apply H2, Hu', Hu.
Qed.

Lemma run_job_idle k v0 j rest s :
  idle k v0 s (j :: rest) ->
  idle k v0 (fst (Storage.run_job add j s)) (rest ++ snd (Storage.run_job add j s)).
Proof.
  intros [Hget Hq]. split.
  - rewrite (run_job_other_bet num add k j s (Hq j (or_introl eq_refl))).
    exact Hget.
  - intros j' Hin. apply in_app_or in Hin. destruct Hin as [Hin|Hin].
    + apply Hq. now right.
    + destruct (run_job_passes_on num add j s j' Hin) as [-> _].
      apply Hq. now left.
Qed.

Lemma drain_keeps_idle k v0 fuel : forall q s,
  idle k v0 s q ->
  idle k v0 (fst (Storage.drain add fuel q s)) (snd (Storage.drain add fuel q s)).
Proof.
  induction fuel as [|fuel IH]; intros [|j rest] s Hi; simpl; auto.
  pose proof (run_job_idle k v0 j rest s Hi) as Hi'.
  destruct (Storage.run_job add j s) as [s1 new]. simpl in *. now apply IH.
Qed.

(** However many jobs have run, the maps that jobs do not write and the keys
of the bets are as before, and every bet is still stored under its id. *)
Lemma resolveBet_store_keyed betId st s :
  JsMap.keyed_by Bet.id (bets s) = true ->
  JsMap.keyed_by Bet.id (bets (Storage.resolveBet_store betId st s)) = true.
Proof.
  intros Hk. unfold Storage.resolveBet_store.
  destruct (JsMap.get betId (bets s)) as [bet|] eqn:E; simpl; [|exact Hk].
  apply JsMapFacts.keyed_by_set; [exact Hk|]. simpl.
  apply JsMapFacts.get_In in E.
  exact (JsMapFacts.keyed_by_In Bet.id _ _ _ Hk E).
Qed.

Lemma run_job_keyed j s :
  JsMap.keyed_by Bet.id (bets s) = true ->
  JsMap.keyed_by Bet.id (bets (fst (Storage.run_job add j s))) = true.
Proof.
  intros Hk.
  destruct j as [betId st bet [u|]|id bal [u|] betId st|betId st]; simpl; auto;
    now apply resolveBet_store_keyed.
Qed.

Lemma drain_keeps_frame fuel : forall q s,
  matches (fst (Storage.drain add fuel q s)) = matches s
  /\ markets (fst (Storage.drain add fuel q s)) = markets s
  /\ betSelections (fst (Storage.drain add fuel q s)) = betSelections s
  /\ JsMap.keys (bets (fst (Storage.drain add fuel q s))) = JsMap.keys (bets s)
  /\ (JsMap.keyed_by Bet.id (bets s) = true ->
      JsMap.keyed_by Bet.id (bets (fst (Storage.drain add fuel q s))) = true).
Proof.
  induction fuel as [|fuel IH]; intros [|j rest] s; simpl; auto 6.
  pose proof (run_job_frame num add j s) as (H1 & H2 & H3).
  pose proof (run_job_keys num add j s) as H4.
  pose proof (run_job_keyed j s) as H5.
  destruct (Storage.run_job add j s) as [s1 new]. simpl in *.
  destruct (IH (rest ++ new) s1) as (E1 & E2 & E3 & E4 & E5).
  repeat split; try congruence. auto.
Qed.

End Overlap.

Section OverlapPass.
Variable num : Type.
Variable add : num -> num -> num.
Variables (matchId : Z) (mt : Match.t) (h a : Z).
Implicit Types (s : MemStorage num) (q : list (job num)) (j : job num).

Lemma pass_idle k v0 : forall l s q,
  (forall bet, In bet l -> Bet.status bet = "PENDING" -> Bet.id bet <> k) ->
  idle k v0 s q ->
  idle k v0 (fst (fold_left (Storage.settleBet matchId mt h a) l (s, q)))
       (snd (fold_left (Storage.settleBet matchId mt h a) l (s, q))).
Proof.
  intros l s q Hl [Hget Hq].
  destruct (pass_untouched num matchId mt h a k l s q Hl) as [E1 E2].
  split; [congruence|].
  intros j Hin Hk. exact (Hq j (E2 j Hin Hk) Hk).
Qed.

Lemma pass_keyed : forall l s q,
  JsMap.keyed_by Bet.id (bets s) = true ->
  JsMap.keyed_by Bet.id
    (bets (fst (fold_left (Storage.settleBet matchId mt h a) l (s, q)))) = true.
Proof.
  induction l as [|bet l IH]; intros s q Hk; cbn [fold_left]; [exact Hk|].
  rewrite settleBet_unfold.
  destruct (String.eqb (Bet.status bet) "PENDING"); [|now apply IH].
  apply IH. unfold Storage.resolveBet.
  destruct (String.eqb _ "WON");
    [destruct (JsMap.get (Bet.id bet) (bets s))|]; simpl;
    try exact Hk; now apply resolveBet_store_keyed.
Qed.

(** The pass only appends to the queue it finds. *)
Lemma pass_queue_prefix : forall l s q,
  fold_left (Storage.settleBet matchId mt h a) l (s, q)
  = (fst (fold_left (Storage.settleBet matchId mt h a) l (s, [])),
     q ++ snd (fold_left (Storage.settleBet matchId mt h a) l (s, []))).
Proof.
  induction l as [|bet l IH]; intros s q; cbn [fold_left].
  - simpl. now rewrite app_nil_r.
  - rewrite !settleBet_unfold.
    destruct (String.eqb (Bet.status bet) "PENDING"); [|apply IH].
    rewrite IH. simpl app.
    rewrite (IH _ (snd (Storage.resolveBet (Bet.id bet) _ s))). simpl.
    now rewrite app_assoc.
Qed.

End OverlapPass.

Section OverlapTheorem.
Variable num : Type.
Variable add : num -> num -> num.
Implicit Types (s : MemStorage num) (q : list (job num)) (j : job num).

Lemma own_id_of_stored (m : JsMap.t (Bet.t num)) bet :
  JsMap.nodup_keys m = true -> JsMap.keyed_by Bet.id m = true ->
  In bet (JsMap.values m) -> JsMap.get (Bet.id bet) m = Some bet.
Proof.
  intros Hnd Hk Hin.
  apply JsMapFacts.In_values in Hin. destruct Hin as [k Hin].
  rewrite (JsMapFacts.keyed_by_In Bet.id _ _ _ Hk Hin).
  now apply JsMapFacts.In_get_nodup.
Qed.

(** The statuses do not depend on when the second pass starts.  Let the first
pass run and let any number [n] of its jobs run; start a second pass for the
same match on the store reached and let everything run.  Every bet ends as it
ends after a single pass.  (The balances do not: a bet whose WON status has
not been written yet is resolved, and paid, again.) *)
Lemma second_pass_at_any_time s matchId n :
  well_formed s = true ->
  exists s1 s2,
    Storage.settle add (Storage.resolveBetsForMatch matchId s) = Some s1
    /\ (let mid := Storage.drain add n
                     (snd (Storage.resolveBetsForMatch matchId s))
                     (fst (Storage.resolveBetsForMatch matchId s)) in
        Storage.settle add
          (fst (Storage.resolveBetsForMatch matchId (fst mid)),
           snd mid ++ snd (Storage.resolveBetsForMatch matchId (fst mid)))
        = Some s2)
    /\ forall k, JsMap.get k (bets s2) = JsMap.get k (bets s1).
Proof.
  intros Hwf.
  destruct (resolveBetsForMatch_cases num s matchId)
    as [E|(mt & h & a & Hf & Hst & Hh & Ha)].
  { exists s, s. rewrite E. simpl.
    assert (Ed : Storage.drain add n [] s = (s, [])) by now destruct n.
    rewrite Ed. simpl. rewrite E. simpl. repeat split. }
  rewrite (resolveBetsForMatch_finished num s matchId mt h a Hf Hst Hh Ha).
  set (r1 := fold_left (Storage.settleBet matchId mt h a) (JsMap.values (bets s)) (s, [])).
  destruct (settle_total num add r1) as (s1 & Hs1 & _).
  exists s1. cbv zeta.
  set (mid := Storage.drain add n (snd r1) (fst r1)).
  (* what the first pass and the jobs run so far have left alone *)
  pose proof (pass_frame num matchId mt h a (JsMap.values (bets s)) s [])
    as (_ & Hm1 & Hk1 & Hb1 & Hkeys1).
  fold r1 in Hm1, Hk1, Hb1, Hkeys1.
  destruct (drain_keeps_frame num add n (snd r1) (fst r1))
    as (Hm2 & Hk2 & Hb2 & Hkeys2 & Hkeyed2).
  fold mid in Hm2, Hk2, Hb2, Hkeys2, Hkeyed2.
  destruct (well_formed_bets num s Hwf) as (Hnd & Hkb & _ & _).
  assert (HndM : JsMap.nodup_keys (bets (fst mid)) = true).
  { rewrite (JsMapFacts.nodup_keys_ext (bets (fst mid)) (bets s)); [exact Hnd|].
    congruence. }
  assert (HkbM : JsMap.keyed_by Bet.id (bets (fst mid)) = true).
  { apply Hkeyed2. unfold r1. now apply pass_keyed. }
  assert (HfM : Storage.findMatch matchId (fst mid) = Some mt).
  { unfold Storage.findMatch in *. now rewrite Hm2, Hm1. }
  rewrite (resolveBetsForMatch_finished num (fst mid) matchId mt h a HfM Hst Hh Ha).
  rewrite <- (pass_queue_prefix num matchId mt h a (JsMap.values (bets (fst mid)))
                (fst mid) (snd mid)).
  set (r2 := fold_left (Storage.settleBet matchId mt h a)
                       (JsMap.values (bets (fst mid))) (fst mid, snd mid)).
  destruct (settle_total num add r2) as (s2 & Hs2 & Hd2).
  exists s2. split; [exact Hs1|]. split; [exact Hs2|].
  assert (HvM : forall k, Storage.verdict (fst mid) matchId mt h a k
                          = Storage.verdict s matchId mt h a k).
  { intros k. apply verdict_frame; congruence. }
  pose proof (pass_frame num matchId mt h a (JsMap.values (bets (fst mid)))
                (fst mid) (snd mid)) as (_ & _ & _ & _ & Hkeys3).
  fold r2 in Hkeys3.
  intros k.
  destruct (JsMap.get k (bets s)) as [b|] eqn:Hg.
  - destruct (string_dec (Bet.status b) "PENDING") as [Hp|Hnp].
    + (* a pending bet: on course and under way from the first pass on *)
      pose proof (JsMapFacts.keyed_by_In Bet.id _ _ _ Hkb
                    (JsMapFacts.get_In _ _ _ Hg)) as Hid.
      subst k.
      rewrite (pass_pending_bet num add s matchId mt h a b s1 Hg Hp Hs1).
      set (st := Storage.verdict s matchId mt h a (Bet.id b)).
      assert (Hc0 : on_course (Bet.id b) st (Some b) s []).
      { split; [intros j []|now left]. }
      pose proof (pass_on_course num matchId mt h a (Bet.id b) st (Some b)
                    (JsMap.values (bets s)) s [] eq_refl Hc0) as Hc1.
      pose proof (pass_under_way num matchId mt h a (Bet.id b) st (Some b)
                    (JsMap.values (bets s)) s [] eq_refl Hc0) as Hu1.
      simpl in Hc1, Hu1. fold r1 in Hc1, Hu1.
      assert (Hu1' : under_way (Bet.id b) st (Some b) (fst r1) (snd r1)).
      { apply Hu1. right. exists b. repeat split; auto.
        apply JsMapFacts.In_values. exists (Bet.id b).
        now apply JsMapFacts.get_In. }
      destruct (drain_keeps_course num add (Bet.id b) st (Some b) n
                  (snd r1) (fst r1) Hc1) as [HcM HuM].
      specialize (HuM Hu1'). fold mid in HcM, HuM.
      pose proof (pass_on_course num matchId mt h a (Bet.id b) st (Some b)
                    (JsMap.values (bets (fst mid))) (fst mid) (snd mid)
                    (HvM (Bet.id b)) HcM) as Hc2.
      pose proof (pass_under_way num matchId mt h a (Bet.id b) st (Some b)
                    (JsMap.values (bets (fst mid))) (fst mid) (snd mid)
                    (HvM (Bet.id b)) HcM (or_introl HuM)) as Hu2.
      simpl in Hc2, Hu2. fold r2 in Hc2, Hu2.
      exact (drain_under_way num (Bet.id b) st (Some b) add _ _ _ _ Hd2 Hc2 Hu2).
    + (* a settled bet: idle all along *)
      rewrite (pass_settled_bet num add s matchId mt h a k b s1 Hwf Hg Hnp Hs1).
      assert (Hi0 : idle k (Some b) s []) by (split; [exact Hg|intros j []]).
      assert (Hl1 : forall bet, In bet (JsMap.values (bets s)) ->
                                Bet.status bet = "PENDING" -> Bet.id bet <> k).
      { intros bet Hin Hp E. apply (own_id_of_stored _ _ Hnd Hkb) in Hin.
        rewrite E in Hin. congruence. }
      pose proof (pass_idle num matchId mt h a k (Some b) _ s [] Hl1 Hi0) as Hi1.
      fold r1 in Hi1.
      pose proof (drain_keeps_idle num add k (Some b) n _ _ Hi1) as HiM.
      fold mid in HiM.
      assert (Hl2 : forall bet, In bet (JsMap.values (bets (fst mid))) ->
                                Bet.status bet = "PENDING" -> Bet.id bet <> k).
      { intros bet Hin Hp E. apply (own_id_of_stored _ _ HndM HkbM) in Hin.
        rewrite E in Hin. destruct HiM as [HgM _]. congruence. }
      pose proof (pass_idle num matchId mt h a k (Some b) _ (fst mid) (snd mid)
                    Hl2 HiM) as Hi2.
      fold r2 in Hi2.
      pose proof (drain_keeps_idle num add k (Some b)
                    (Storage.queue_weight (snd r2)) _ _ Hi2) as [Hfin _].
      now rewrite Hd2 in Hfin.
  - (* no bet under this key, before or after *)
    destruct (settle_total num add r1) as (s1' & Hs1' & Hd1).
    assert (s1' = s1) by congruence. subst s1'.
    destruct (drain_frame num add _ _ _ _ Hd1) as (_ & _ & _ & HkeysA).
    destruct (drain_frame num add _ _ _ _ Hd2) as (_ & _ & _ & HkeysB).
    apply JsMapFacts.get_None_keys in Hg.
    assert (G1 : JsMap.get k (bets s1) = None).
    { apply JsMapFacts.get_None_keys. now rewrite HkeysA, Hkeys1. }
    assert (G2 : JsMap.get k (bets s2) = None).
    { apply JsMapFacts.get_None_keys.
      now rewrite HkeysB, Hkeys3, Hkeys2, Hkeys1. }
    congruence.
Qed.

End OverlapTheorem.

(** The remark on balances, on the store of scenario 1: match 1 is reported
finished 2-1, and a second pass starts when two jobs of the first have run,
that is when the balance has been written and the status has not.  The bet
ends WON as after a single pass, and its potential win is paid twice. *)
Lemma second_pass_in_between_pays_twice :
  let r1 := snd (Storage.updateMatchStatus 1 "FINISHED" (Some 2) (Some 1)
                   None None Scenario.single) in
  let mid := Storage.drain Qplus 2 (snd r1) (fst r1) in
  exists s2,
    Storage.settle Qplus
      (fst (Storage.resolveBetsForMatch 1 (fst mid)),
       snd mid ++ snd (Storage.resolveBetsForMatch 1 (fst mid)))
    = Some s2
    /\ option_map Bet.status (JsMap.get 1 (bets s2)) = Some "WON"
    /\ option_map User.balance (Storage.getUser 1 s2)
       = Some (1000 + 18.5 + 18.5)%Q.
Proof.
  cbv zeta. eexists. split; [vm_compute; reflexivity|]. split; reflexivity.
Qed.

(** ** A match is reported finished *)

Section Finish.
Variable num : Type.
Variable add : num -> num -> num.
Implicit Types (s : MemStorage num) (bet : Bet.t num) (u : User.t num).

(** The store in which [updateMatchStatus] runs [resolveBetsForMatch]. *)
Lemma updateMatchStatus_finished s id m0 (h a : option Z) hth hta :
  well_formed s = true ->
  Storage.getMatch id s = Some m0 ->
  exists upd,
    Match.status upd = "FINISHED"
    /\ Match.homeScore upd = Js.if_defined (option_map Some h) (Match.homeScore m0)
    /\ Match.awayScore upd = Js.if_defined (option_map Some a) (Match.awayScore m0)
    /\ Storage.updateMatchStatus id "FINISHED" h a hth hta s
       = (Some upd,
          Storage.resolveBetsForMatch id
            (Storage.set_matches s (JsMap.set id upd (matches s))))
    /\ Storage.findMatch id (Storage.set_matches s (JsMap.set id upd (matches s)))
       = Some upd
    /\ well_formed (Storage.set_matches s (JsMap.set id upd (matches s))) = true.
Proof.
  intros Hwf Hm. destruct (well_formed_bets num s Hwf) as (Hnd & Hkb & Hku & Hk).
  unfold Storage.updateMatchStatus. rewrite Hm. simpl.
  exists (Match.mk (Match.id m0) (Match.homeTeamId m0) (Match.awayTeamId m0)
            (Match.leagueId m0)
            (match h with Some x => Some x | None => Match.homeScore m0 end)
            (match a with Some x => Some x | None => Match.awayScore m0 end)
            (Js.if_defined hth (Match.htHomeScore m0))
            (Js.if_defined hta (Match.htAwayScore m0))
            "FINISHED" (Match.isCustom m0)).
  split; [reflexivity|].
  split; [now destruct h|]. split; [now destruct a|].
  split; [reflexivity|].
  match goal with
  | |- context [JsMap.set id ?m _] =>
      assert (Hk' : JsMap.keyed_by Match.id (JsMap.set id m (matches s)) = true)
  end.
  { apply JsMapFacts.keyed_by_set; [exact Hk|]. simpl.
    apply JsMapFacts.get_In in Hm.
    exact (JsMapFacts.keyed_by_In Match.id _ _ _ Hk Hm). }
  split.
  - rewrite findMatch_getMatch by exact Hk'.
    unfold Storage.getMatch. simpl. apply JsMapFacts.get_set_same.
  - unfold well_formed. simpl. now rewrite Hnd, Hkb, Hku, Hk'.
Qed.

End Finish.

(** C10, at the failing input.  Match 1 has finished; bets 1 and 2 are
pending, belong to user 1 and have no selection that counts for match 1
(potential wins 25 and 12).  Both end WON, as the claim says, but the balance
of user 1 ends at 1000 + 12 and not at 1000 + 25 + 12: the two unawaited
calls of [resolveBet] both read the balance 1000 during the pass, and the
credit of 25 for bet 1 is overwritten by the credit for bet 2
([resolveBetsForMatch_pays_last_won_only] is the general statement). *)
Theorem unrelated_bets_won_one_credit_lost :
  well_formed Scenario.unrelated = true
  /\ Spec.countedMarkets Scenario.unrelated 1 1 = []
  /\ Spec.countedMarkets Scenario.unrelated 1 2 = []
  /\ exists s',
      Storage.settle Qplus (Storage.resolveBetsForMatch 1 Scenario.unrelated)
      = Some s'
      /\ option_map Bet.status (JsMap.get 1 (bets s')) = Some "WON"
      /\ option_map Bet.status (JsMap.get 2 (bets s')) = Some "WON"
      /\ option_map User.balance (Storage.getUser 1 s') = Some (1000 + 12)%Q
      /\ ~ (1000 + 12 == 1000 + 25 + 12)%Q.
Proof.
  split; [reflexivity|]. split; [reflexivity|]. split; [reflexivity|].
  eexists. split; [vm_compute; reflexivity|].
  repeat split. discriminate.
Qed.

(** ** The claims at concrete stores *)

Lemma resolveBetsForMatch_pending_bet_witness :
  (exists s',
     Storage.settle Qplus (Storage.resolveBetsForMatch 1 Scenario.accumulator)
     = Some s'
     /\ JsMap.get 1 (bets s') = Some (Bet.mk 1 1 10%Q 2.8%Q 28%Q "PUSH"))
  /\ (exists s',
        Storage.settle Qplus (Storage.resolveBetsForMatch 1 Scenario.half_time)
        = Some s'
        /\ JsMap.get 1 (bets s') = Some (Bet.mk 1 1 10%Q 2.1%Q 21%Q "WON"))
  /\ (exists s',
        Storage.settle Qplus (Storage.resolveBetsForMatch 1 Scenario.half_time)
        = Some s'
        /\ JsMap.get 2 (bets s') = Some (Bet.mk 2 1 5%Q 4.2%Q 21%Q "LOST")).
Proof.
  split; [|split].
  - exact (resolveBetsForMatch_pending_bet Q Qplus Scenario.accumulator 1
             (Scenario.finished 1 1 1) 1 1 (Bet.mk 1 1 10%Q 2.8%Q 28%Q "PENDING")
             eq_refl eq_refl eq_refl eq_refl eq_refl eq_refl).
  - exact (resolveBetsForMatch_pending_bet Q Qplus Scenario.half_time 1
             (Match.mk 1 (Some 1) (Some 2) 1 (Some 2) (Some 1) (Some 1) (Some 0)
                       "FINISHED" false)
             2 1 (Bet.mk 1 1 10%Q 2.1%Q 21%Q "PENDING")
             eq_refl eq_refl eq_refl eq_refl eq_refl eq_refl).
  - exact (resolveBetsForMatch_pending_bet Q Qplus Scenario.half_time 1
             (Match.mk 1 (Some 1) (Some 2) 1 (Some 2) (Some 1) (Some 1) (Some 0)
                       "FINISHED" false)
             2 1 (Bet.mk 2 1 5%Q 4.2%Q 21%Q "PENDING")
             eq_refl eq_refl eq_refl eq_refl eq_refl eq_refl).
Defined.

Lemma resolveBet_pays_only_won_witness :
  (exists s',
      Storage.settle Qplus (Storage.resolveBet 1 "WON" Scenario.single) = Some s'
      /\ JsMap.get 1 (bets s') = Some (Bet.mk 1 1 10%Q 1.85%Q 18.5%Q "WON")
      /\ Storage.getUser 1 s'
         = Some (User.mk 1 "user" "password" (1000 + 18.5)%Q))
  /\ (exists s',
         Storage.settle Qplus (Storage.resolveBet 1 "LOST" Scenario.single) = Some s'
         /\ JsMap.get 1 (bets s') = Some (Bet.mk 1 1 10%Q 1.85%Q 18.5%Q "LOST")
         /\ users s' = users Scenario.single).
Proof.
  destruct (resolveBet_pays_only_won Q Qplus Scenario.single 1
              (Bet.mk 1 1 10%Q 1.85%Q 18.5%Q "PENDING") Scenario.user1
              eq_refl eq_refl eq_refl) as [Hwon Hother].
  split.
  - destruct Hwon as (s' & Hs & Hb & _ & Hu & _). exists s'. auto.
  - exact (Hother "LOST" (or_intror eq_refl)).
Defined.

(** C4, as the claim states it, fails.  Bet 1 of the store is already WON and
paid.  [resolveBet(1, "LOST")] turns it into LOST, and [resolveBet(1, "WON")]
pays the potential win of 18.5 a second time. *)
Lemma resolveBet_changes_settled_bet :
  well_formed Scenario.settled = true
  /\ option_map Bet.status (JsMap.get 1 (bets Scenario.settled)) = Some "WON"
  /\ (exists s',
         Storage.settle Qplus (Storage.resolveBet 1 "LOST" Scenario.settled) = Some s'
         /\ option_map Bet.status (JsMap.get 1 (bets s')) = Some "LOST")
  /\ (exists s',
         Storage.settle Qplus (Storage.resolveBet 1 "WON" Scenario.settled) = Some s'
         /\ option_map User.balance (Storage.getUser 1 Scenario.settled)
            = Some 1018.5%Q
         /\ option_map User.balance (Storage.getUser 1 s')
            = Some (1018.5 + 18.5)%Q
         /\ ~ (1018.5 + 18.5 == 1018.5)%Q).
Proof.
  split; [reflexivity|]. split; [reflexivity|]. split.
  - eexists. split; [vm_compute; reflexivity|]. reflexivity.
  - eexists. split; [vm_compute; reflexivity|].
    repeat split. discriminate.
Qed.

Lemma resolveBet_ignores_current_status_witness :
  exists s',
    Storage.settle Qplus (Storage.resolveBet 1 "LOST" Scenario.settled) = Some s'
    /\ JsMap.get 1 (bets s') = Some (Bet.mk 1 1 10%Q 1.85%Q 18.5%Q "LOST")
    /\ users s' = users Scenario.settled.
Proof.
  assert (Hnp : "WON" <> "PENDING") by discriminate.
  assert (Hnw : "LOST" <> "WON") by discriminate.
  destruct (resolveBet_ignores_current_status Q Qplus Scenario.settled 1
              (Bet.mk 1 1 10%Q 1.85%Q 18.5%Q "WON") "LOST" eq_refl Hnp)
    as (s' & Hs & Hb & Hu & _).
  exists s'. split; [exact Hs|]. split; [exact Hb|exact (Hu Hnw)].
Defined.

Lemma resolveBetsForMatch_idempotent_witness :
  well_formed Scenario.settled = true
  /\ exists s1,
      Storage.settle Qplus (Storage.resolveBetsForMatch 1 Scenario.settled) = Some s1
      /\ (forall betId bet,
            JsMap.get betId (bets Scenario.settled) = Some bet ->
            Bet.status bet <> "PENDING" ->
            JsMap.get betId (bets s1) = Some bet)
      /\ Storage.settle Qplus (Storage.resolveBetsForMatch 1 s1) = Some s1.
Proof.
  split; [reflexivity|].
  exact (resolveBetsForMatch_idempotent Q Qplus Scenario.settled 1 eq_refl).
Defined.

Lemma resolveBetsForMatch_needs_final_result_witness :
  Storage.resolveBetsForMatch 1 Scenario.single = (Scenario.single, [])
  /\ Storage.settle Qplus (Storage.resolveBetsForMatch 1 Scenario.single)
     = Some Scenario.single.
Proof.
  apply (resolveBetsForMatch_needs_final_result Q Qplus Scenario.single 1).
  right. exists (Scenario.upcoming 1). split; [reflexivity|].
  left. discriminate.
Defined.

(* ================================================================== *)
(** * Further properties of the storage module, the routes and the client *)

(** ** More facts about [JsMap] *)

Module JsMapMoreFacts.
Import JsMap JsMapMore.
Section Facts.
Context {V : Type}.
Implicit Types (m : JsMap.t V) (k : Z) (v : V).

Lemma get_delete_same k m : get k (delete k m) = None.
Proof.
  induction m as [|[k0 v0] rest IH]; simpl; [reflexivity|].
  destruct (Z.eqb_spec k0 k) as [->|Hne]; simpl; [exact IH|].
  destruct (Z.eqb_spec k0 k); [contradiction|exact IH].
Qed.

Lemma get_delete_other k k' m : k <> k' -> get k (delete k' m) = get k m.
Proof.
  intros Hne. induction m as [|[k0 v0] rest IH]; simpl; [reflexivity|].
  destruct (Z.eqb_spec k0 k') as [->|Hne0]; simpl.
  - destruct (Z.eqb_spec k' k); [congruence|exact IH].
  - now rewrite IH.
Qed.

Lemma delete_absent k m : get k m = None -> delete k m = m.
Proof.
  induction m as [|[k0 v0] rest IH]; simpl; [reflexivity|].
  destruct (Z.eqb_spec k0 k) as [->|Hne]; simpl; [discriminate|].
  intros H. now rewrite IH.
Qed.

Lemma In_delete k kv m : In kv (delete k m) <-> In kv m /\ fst kv <> k.
Proof.
  unfold delete. rewrite filter_In, negb_true_iff, Z.eqb_neq. tauto.
Qed.

Lemma values_set_fresh k v m :
  get k m = None -> values (set k v m) = values m ++ [v].
Proof.
  induction m as [|[k0 v0] rest IH]; simpl; [reflexivity|].
  destruct (Z.eqb_spec k0 k) as [->|Hne]; [discriminate|].
  intros H. simpl. f_equal. now apply IH.
Qed.

Lemma keys_set_fresh k v m :
  get k m = None -> keys (set k v m) = keys m ++ [k].
Proof.
  induction m as [|[k0 v0] rest IH]; simpl; [reflexivity|].
  destruct (Z.eqb_spec k0 k) as [->|Hne]; [discriminate|].
  intros H. simpl. f_equal. now apply IH.
Qed.

Lemma keys_below_In bound m k v :
  keys_below bound m = true -> In (k, v) m -> k < bound.
Proof.
  unfold keys_below. rewrite forallb_forall. intros H Hin.
  specialize (H _ Hin). now apply Z.ltb_lt in H.
Qed.

Lemma keys_below_get bound m k :
  keys_below bound m = true -> bound <= k -> get k m = None.
Proof.
  intros Hb Hk. destruct (get k m) as [v|] eqn:E; [|reflexivity].
  apply JsMapFacts.get_In in E. pose proof (keys_below_In _ _ _ _ Hb E). lia.
Qed.

Lemma keys_below_mono bound bound' m :
  bound <= bound' -> keys_below bound m = true -> keys_below bound' m = true.
Proof.
  unfold keys_below. rewrite !forallb_forall. intros Hle H kv Hin.
  specialize (H kv Hin). apply Z.ltb_lt in H. apply Z.ltb_lt. lia.
Qed.

Lemma keys_below_set bound m k v :
  keys_below bound m = true -> k < bound -> keys_below bound (set k v m) = true.
Proof.
  intros H Hk. induction m as [|[k0 v0] rest IH]; simpl in *.
  - rewrite andb_true_r. now apply Z.ltb_lt.
  - apply andb_true_iff in H. destruct H as [H0 H].
    destruct (Z.eqb_spec k0 k) as [->|Hne]; simpl.
    + now rewrite H0.
    + rewrite H0. now apply IH.
Qed.

Lemma keys_below_delete bound m k :
  keys_below bound m = true -> keys_below bound (delete k m) = true.
Proof.
  unfold keys_below. rewrite !forallb_forall. intros H kv Hin.
  apply In_delete in Hin. now apply H.
Qed.

Lemma nodup_keys_spec m : nodup_keys m = true <-> NoDup (keys m).
Proof.
  induction m as [|[k v] rest IH]; simpl.
  - split; [constructor|reflexivity].
  - rewrite andb_true_iff, negb_true_iff, IH. split.
    + intros [Hf Hn]. constructor; [|exact Hn]. intros Hin.
      apply JsMapFacts.existsb_keys in Hin. congruence.
    + intros H. inversion H as [|? ? Hnin Hn]; subst. split; [|exact Hn].
      destruct (existsb (Z.eqb k) (keys rest)) eqn:E; [|reflexivity].
      apply JsMapFacts.existsb_keys in E. contradiction.
Qed.

Lemma nodup_keys_set k v m :
  nodup_keys m = true -> nodup_keys (set k v m) = true.
Proof.
  intros Hn. destruct (get k m) as [v0|] eqn:E.
  - rewrite (JsMapFacts.nodup_keys_ext _ m); [exact Hn|].
    eapply JsMapFacts.keys_set_present; eassumption.
  - apply nodup_keys_spec. rewrite (keys_set_fresh _ _ _ E).
    apply nodup_keys_spec in Hn.
    apply NoDup_app; [exact Hn|repeat constructor; intros []|].
    intros x Hin [<-|[]]. apply JsMapFacts.get_None_keys in E. contradiction.
Qed.

Lemma keys_delete k m : keys (delete k m) = filter (fun x => negb (x =? k)) (keys m).
Proof.
  induction m as [|[k0 v0] rest IH]; simpl; [reflexivity|].
  destruct (k0 =? k); simpl; now rewrite IH.
Qed.

Lemma nodup_keys_delete k m :
  nodup_keys m = true -> nodup_keys (delete k m) = true.
Proof.
  rewrite !nodup_keys_spec, keys_delete. apply NoDup_filter.
Qed.

Lemma keyed_by_delete (id_of : V -> Z) k m :
  keyed_by id_of m = true -> keyed_by id_of (delete k m) = true.
Proof.
  unfold keyed_by. rewrite !forallb_forall. intros H kv Hin.
  apply In_delete in Hin. now apply H.
Qed.

End Facts.
End JsMapMoreFacts.

Module RelatedFacts.
Import JsMap JsMapMore.
Section Facts.
Context {V : Type} (R : V -> V -> Prop).
Implicit Types (m : JsMap.t V) (k : Z) (v : V).

Lemma related_refl m : (forall v, R v v) -> related R m m.
Proof.
  intros Hr. induction m as [|kv rest IH]; constructor; auto.
Qed.

Lemma related_trans m1 m2 m3 :
  (forall x y z, R x y -> R y z -> R x z) ->
  related R m1 m2 -> related R m2 m3 -> related R m1 m3.
Proof.
  intros Ht H12. revert m3.
  induction H12 as [|kv1 kv2 r1 r2 [Hk Hv] _ IH]; intros m3 H23.
  - inversion H23. constructor.
  - inversion H23 as [|? kv3 ? r3 [Hk' Hv'] Hrest]; subst.
    constructor; [split; [congruence|eauto]|]. now apply IH.
Qed.

Lemma related_set k v v0 m :
  (forall x, R x x) -> get k m = Some v0 -> R v0 v -> related R m (set k v m).
Proof.
  intros Hr. induction m as [|[k0 w] rest IH]; simpl; [discriminate|].
  destruct (Z.eqb_spec k0 k) as [->|Hne]; intros Hg Hv.
  - injection Hg as ->. constructor; [now split|]. now apply related_refl.
  - constructor; [now split|]. now apply IH.
Qed.

Lemma related_get k m m' :
  related R m m' ->
  match get k m with
  | Some v => exists v', get k m' = Some v' /\ R v v'
  | None => get k m' = None
  end.
Proof.
  induction 1 as [|[k1 v1] [k2 v2] r1 r2 [Hk Hv] _ IH]; simpl in *; [reflexivity|].
  subst k2. destruct (k1 =? k); [now exists v2|exact IH].
Qed.

Lemma related_keys m m' : related R m m' -> keys m' = keys m.
Proof.
  induction 1 as [|kv kv' r1 r2 [Hk _] _ IH]; simpl; [reflexivity|].
  now rewrite IH, Hk.
Qed.

Lemma related_keyed_by (id_of : V -> Z) m m' :
  (forall v v', R v v' -> id_of v = id_of v') ->
  related R m m' -> keyed_by id_of m = true -> keyed_by id_of m' = true.
Proof.
  intros Hid. unfold keyed_by.
  induction 1 as [|kv kv' r1 r2 [Hk Hv] _ IH]; simpl; [reflexivity|].
  rewrite !andb_true_iff. intros [H1 H2]. split; [|now apply IH].
  rewrite <- Hk, <- (Hid _ _ Hv). exact H1.
Qed.

Lemma related_nodup_keys m m' :
  related R m m' -> nodup_keys m' = nodup_keys m.
Proof.
  intros H. apply JsMapFacts.nodup_keys_ext. now apply related_keys.
Qed.

Lemma keys_below_keys bound m m' :
  keys m' = keys m -> keys_below bound m' = keys_below bound m.
Proof.
  unfold keys_below, keys. revert m'.
  induction m as [|kv rest IH]; intros [|kv' rest']; simpl; try discriminate;
    [reflexivity|].
  intros H. injection H as Hk Hrest. now rewrite Hk, (IH _ Hrest).
Qed.

Lemma related_In_values m m' v' :
  related R m m' -> In v' (values m') -> exists v, In v (values m) /\ R v v'.
Proof.
  unfold values.
  induction 1 as [|kv kv' r1 r2 [Hk Hv] _ IH]; simpl; [intros []|].
  intros [<-|Hin]; [now exists (snd kv); split; [left|]|].
  destruct (IH Hin) as [v [H1 H2]]. exists v. split; [now right|exact H2].
Qed.

End Facts.
End RelatedFacts.

(** ** What settlement writes *)

Section SettlementFrame.
Variable num : Type.
Variable add : num -> num -> num.
Implicit Types (s : MemStorage num) (j : job num) (q : list (job num)).

Lemma same_account_refl (u : User.t num) : same_account u u.
Proof. now repeat split. Qed.

Lemma same_account_trans (u1 u2 u3 : User.t num) :
  same_account u1 u2 -> same_account u2 u3 -> same_account u1 u3.
Proof. unfold same_account. intuition congruence. Qed.

Lemma same_account_with_balance (u : User.t num) b :
  same_account u (User.with_balance u b).
Proof. now repeat split. Qed.

Lemma same_wager_refl (b : Bet.t num) : same_wager b b.
Proof. now repeat split. Qed.

Lemma same_wager_trans (b1 b2 b3 : Bet.t num) :
  same_wager b1 b2 -> same_wager b2 b3 -> same_wager b1 b3.
Proof. unfold same_wager. intuition congruence. Qed.

Lemma same_wager_with_status (b : Bet.t num) st :
  same_wager b (Bet.with_status b st).
Proof. now repeat split. Qed.

Lemma settled_from_refl s : settled_from s s.
Proof.
  repeat split; apply RelatedFacts.related_refl;
    [apply same_account_refl|apply same_wager_refl].
Qed.

Lemma settled_from_trans s1 s2 s3 :
  settled_from s1 s2 -> settled_from s2 s3 -> settled_from s1 s3.
Proof.
  intros (A1 & A2 & A3 & A4 & A5) (B1 & B2 & B3 & B4 & B5).
  repeat split; try congruence.
  - eapply RelatedFacts.related_trans; eauto using same_account_trans.
  - eapply RelatedFacts.related_trans; eauto using same_wager_trans.
Qed.

Lemma resolveBet_store_settled betId st s :
  settled_from s (Storage.resolveBet_store betId st s).
Proof.
  unfold Storage.resolveBet_store.
  destruct (JsMap.get betId (bets s)) as [bet|] eqn:E; [|apply settled_from_refl].
  repeat split; simpl.
  - apply RelatedFacts.related_refl, same_account_refl.
  - eapply RelatedFacts.related_set;
      [apply same_wager_refl|exact E|apply same_wager_with_status].
Qed.

Lemma resolveBet_settled betId st s :
  settled_from s (fst (Storage.resolveBet betId st s)).
Proof.
  unfold Storage.resolveBet.
  destruct (String.eqb st "WON"); [|apply resolveBet_store_settled].
  destruct (JsMap.get betId (bets s));
    [apply settled_from_refl|apply resolveBet_store_settled].
Qed.

Lemma resolveBet_jobs_fit betId st s j s' :
  In j (snd (Storage.resolveBet betId st s)) -> job_fits s' j.
Proof.
  intros H. apply resolveBet_jobs in H. destruct H as (bet & _ & _ & ->).
  exact I.
Qed.

Lemma run_job_settled j s :
  job_fits s j -> settled_from s (fst (Storage.run_job add j s)).
Proof.
  destruct j as [betId st bet [u|]|id bal [u|] betId st|betId st]; simpl; intros Hf;
    try apply settled_from_refl; try apply resolveBet_store_settled.
  destruct Hf as (u' & Hg & Hs).
  repeat split; simpl.
  - eapply RelatedFacts.related_set; [apply same_account_refl|exact Hg|].
    eapply same_account_trans; [exact Hs|apply same_account_with_balance].
  - apply RelatedFacts.related_refl, same_wager_refl.
Qed.

Lemma run_job_new_fit j s j' :
  In j' (snd (Storage.run_job add j s)) ->
  job_fits (fst (Storage.run_job add j s)) j'.
Proof.
  destruct j as [betId st bet [u|]|id bal [u|] betId st|betId st]; simpl;
    try (intros [<-|[]]; exact I); try (intros H; now destruct H).
  intros [<-|[]]. simpl. unfold Storage.getUser.
  destruct (JsMap.get (User.id u) (users s)) as [u'|] eqn:E; [|exact I].
  exists u'. split; [reflexivity|apply same_account_refl].
Qed.

Lemma job_fits_settled s s' j :
  settled_from s s' -> job_fits s j -> job_fits s' j.
Proof.
  intros (_ & _ & _ & Hu & _).
  destruct j as [betId st bet u|id bal [u|] betId st|betId st]; simpl; auto.
  intros (u' & Hg & Hs).
  pose proof (RelatedFacts.related_get _ id _ _ Hu) as H. rewrite Hg in H.
  destruct H as (u2 & Hg2 & Hs2). exists u2. split; [exact Hg2|].
  eapply same_account_trans; [|exact Hs].
  unfold same_account in *. intuition congruence.
Qed.

Lemma drain_settled fuel : forall q s,
  Forall (job_fits s) q ->
  settled_from s (fst (Storage.drain add fuel q s)).
Proof.
  induction fuel as [|fuel IH]; intros [|j rest] s Hq; simpl;
    try apply settled_from_refl.
  inversion Hq as [|? ? Hj Hrest]; subst.
  pose proof (run_job_settled j s Hj) as Hstep.
  pose proof (run_job_new_fit j s) as Hnew.
  destruct (Storage.run_job add j s) as [s1 new]; simpl in *.
  eapply settled_from_trans; [exact Hstep|]. apply IH.
  apply Forall_app. split.
  - eapply Forall_impl; [|exact Hrest]. intros j0. now apply job_fits_settled.
  - apply Forall_forall. exact Hnew.
Qed.

Lemma pass_settled matchId mt h a : forall l s q,
  let r := fold_left (Storage.settleBet matchId mt h a) l (s, q) in
  settled_from s (fst r)
  /\ forall j, In j (snd r) -> In j q \/ forall s', job_fits s' j.
Proof.
  induction l as [|bet l IH]; intros s q; cbn [fold_left].
  - split; [apply settled_from_refl|auto].
  - rewrite settleBet_unfold.
    destruct (String.eqb (Bet.status bet) "PENDING"); [|apply IH].
    set (st := Storage.verdict s matchId mt h a (Bet.id bet)).
    pose proof (resolveBet_settled (Bet.id bet) st s) as Hs.
    pose proof (resolveBet_jobs_fit (Bet.id bet) st s) as Hj.
    destruct (Storage.resolveBet (Bet.id bet) st s) as [s1 new]; simpl in *.
    destruct (IH s1 (q ++ new)) as [H1 H2]. split.
    + eapply settled_from_trans; eassumption.
    + intros j Hin. destruct (H2 j Hin) as [Hq|Hf]; [|now right].
      apply in_app_or in Hq. destruct Hq as [Hq|Hq]; [now left|right].
      intros s'. now apply Hj.
Qed.

Lemma resolveBetsForMatch_settled matchId s :
  settled_from s (fst (Storage.resolveBetsForMatch matchId s))
  /\ forall j s', In j (snd (Storage.resolveBetsForMatch matchId s)) -> job_fits s' j.
Proof.
  unfold Storage.resolveBetsForMatch.
  destruct (Storage.findMatch matchId s) as [mt|];
    [|split; [apply settled_from_refl|intros ? ? []]].
  destruct (negb (String.eqb (Match.status mt) "FINISHED"));
    [split; [apply settled_from_refl|intros ? ? []]|].
  destruct (Match.homeScore mt) as [h|];
    [|split; [apply settled_from_refl|intros ? ? []]].
  destruct (Match.awayScore mt) as [a|];
    [|split; [apply settled_from_refl|intros ? ? []]].
  destruct (pass_settled matchId mt h a (JsMap.values (bets s)) s []) as [H1 H2].
  split; [exact H1|]. intros j s' Hin. destruct (H2 j Hin) as [[]|Hf]. apply Hf.
Qed.

Lemma settled_resolveBetsForMatch matchId s :
  settled_from s (Api.settled add (Storage.resolveBetsForMatch matchId s)).
Proof.
  destruct (resolveBetsForMatch_settled matchId s) as [H1 H2].
  unfold Api.settled. eapply settled_from_trans; [exact H1|].
  apply drain_settled. apply Forall_forall. intros j Hin. now apply H2.
Qed.

Lemma settled_resolveBet betId st s :
  settled_from s (Api.settled add (Storage.resolveBet betId st s)).
Proof.
  unfold Api.settled. eapply settled_from_trans; [apply resolveBet_settled|].
  apply drain_settled. apply Forall_forall. intros j Hin.
  eapply resolveBet_jobs_fit; eassumption.
Qed.

Lemma settle_settled (r : MemStorage num * list (job num)) :
  Storage.settle add r = Some (Api.settled add r).
Proof.
  destruct r as [s q]. apply settle_drain.
Qed.

Lemma settled_from_well_formed s s' :
  settled_from s s' -> well_formed s = true -> well_formed s' = true.
Proof.
  intros (Hm & _ & _ & Hu & Hb) Hwf.
  apply well_formed_bets in Hwf. destruct Hwf as (W1 & W2 & W3 & W4).
  unfold well_formed. rewrite !andb_true_iff. repeat split.
  - now rewrite (RelatedFacts.related_nodup_keys _ _ _ Hb).
  - eapply RelatedFacts.related_keyed_by; [|exact Hb|exact W2].
    now intros v v' [H _].
  - eapply RelatedFacts.related_keyed_by; [|exact Hu|exact W3].
    now intros v v' [H _].
  - now rewrite Hm.
Qed.

End SettlementFrame.

(** ** Finishing a match *)

Section FinishFacts.
Variable num : Type.
Variable add : num -> num -> num.
Implicit Types (s : MemStorage num).

Lemma stored_bet_id s k bet :
  well_formed s = true -> JsMap.get k (bets s) = Some bet -> Bet.id bet = k.
Proof.
  intros Hwf Hg. apply well_formed_bets in Hwf. destruct Hwf as (_ & Hk & _).
  eapply JsMapFacts.keyed_by_In; [exact Hk|]. now apply JsMapFacts.get_In.
Qed.

Lemma pass_every_bet s matchId mt h a s' :
  well_formed s = true ->
  Storage.settle add
    (fold_left (Storage.settleBet matchId mt h a) (JsMap.values (bets s)) (s, []))
  = Some s' ->
  forall k bet,
    JsMap.get k (bets s) = Some bet ->
    JsMap.get k (bets s')
    = Some (if String.eqb (Bet.status bet) "PENDING"
            then Bet.with_status bet (Storage.verdict s matchId mt h a k)
            else bet).
Proof.
  intros Hwf Hs k bet Hg.
  pose proof (stored_bet_id _ _ _ Hwf Hg) as Hid.
  destruct (String.eqb_spec (Bet.status bet) "PENDING") as [Hp|Hp].
  - subst k. eapply pass_pending_bet; eassumption.
  - eapply pass_settled_bet; eassumption.
Qed.

Lemma values_of_stored (m m' : JsMap.t (Bet.t num)) (P : Bet.t num -> Prop) :
  JsMap.nodup_keys m' = true -> JsMap.keys m' = JsMap.keys m ->
  (forall k bet, JsMap.get k m = Some bet ->
     exists bet', JsMap.get k m' = Some bet' /\ P bet') ->
  forall bet', In bet' (JsMap.values m') -> P bet'.
Proof.
  intros Hn Hk H bet' Hin.
  apply JsMapFacts.In_values in Hin. destruct Hin as [k Hin].
  pose proof (JsMapFacts.In_get_nodup _ _ _ Hn Hin) as Hg'.
  destruct (JsMap.get k m) as [bet|] eqn:Hg.
  - destruct (H _ _ Hg) as (b & Hb & HP). congruence.
  - apply JsMapFacts.get_None_keys in Hg. rewrite <- Hk in Hg.
    exfalso. apply Hg. unfold JsMap.keys. now apply (in_map fst) in Hin.
Qed.

Lemma pass_leaves_no_pending s matchId mt h a s' :
  well_formed s = true ->
  Storage.settle add
    (fold_left (Storage.settleBet matchId mt h a) (JsMap.values (bets s)) (s, []))
  = Some s' ->
  forall bet, In bet (JsMap.values (bets s')) -> Bet.status bet <> "PENDING".
Proof.
  intros Hwf Hs.
  pose proof (pass_every_bet _ _ _ _ _ _ Hwf Hs) as Hall.
  pose proof (settle_inv _ _ _ _ _ Hs) as Hd.
  apply drain_frame in Hd. destruct Hd as (_ & _ & _ & Hk).
  destruct (pass_frame num matchId mt h a (JsMap.values (bets s)) s [])
    as (_ & _ & _ & _ & Hk0).
  cbv zeta in Hk0. rewrite Hk0 in Hk.
  apply values_of_stored with (m := bets s).
  - rewrite (JsMapFacts.nodup_keys_ext _ (bets s)); [|exact Hk].
    now apply well_formed_bets in Hwf.
  - exact Hk.
  - intros k bet Hg. rewrite (Hall _ _ Hg). eexists. split; [reflexivity|].
    destruct (String.eqb_spec (Bet.status bet) "PENDING") as [Hp|Hp];
      [apply verdict_not_pending|exact Hp].
Qed.

Lemma resolveBetsForMatch_no_pending s matchId :
  (forall bet, In bet (JsMap.values (bets s)) -> Bet.status bet <> "PENDING") ->
  Storage.resolveBetsForMatch matchId s = (s, []).
Proof.
  intros Hnp. unfold Storage.resolveBetsForMatch.
  destruct (Storage.findMatch matchId s) as [mt|]; [|reflexivity].
  destruct (negb (String.eqb (Match.status mt) "FINISHED")); [reflexivity|].
  destruct (Match.homeScore mt) as [h|]; [|reflexivity].
  destruct (Match.awayScore mt) as [a|]; [|reflexivity].
  now apply pass_no_pending.
Qed.

(** The call [updateMatchStatus(id, "FINISHED", h, a, ...)] on a known match:
the match it writes and the pass it runs. *)
Lemma finish_unfold s id m0 (h a : Z) hth hta :
  well_formed s = true ->
  Storage.getMatch id s = Some m0 ->
  exists upd,
    let s1 := Storage.set_matches s (JsMap.set id upd (matches s)) in
    Storage.updateMatchStatus id "FINISHED" (Some h) (Some a) hth hta s
    = (Some upd,
       fold_left (Storage.settleBet id upd h a) (JsMap.values (bets s)) (s1, []))
    /\ well_formed s1 = true
    /\ Match.status upd = "FINISHED"
    /\ Match.homeScore upd = Some h /\ Match.awayScore upd = Some a.
Proof.
  intros Hwf Hm.
  destruct (updateMatchStatus_finished num s id m0 (Some h) (Some a) hth hta Hwf Hm)
    as (upd & Hst & Hh & Ha & Hu & Hf & Hwf1).
  exists upd. cbv zeta. simpl in Hh, Ha.
  rewrite Hu, (resolveBetsForMatch_finished _ _ _ _ _ _ Hf Hst Hh Ha).
  repeat split; assumption.
Qed.

Lemma wonFor_frame s s1 matchId mt h a uid (l : list (Bet.t num)) :
  markets s1 = markets s -> betSelections s1 = betSelections s ->
  filter (Storage.wonFor s1 matchId mt h a uid) l
  = filter (Storage.wonFor s matchId mt h a uid) l.
Proof.
  intros Hm Hb. apply filter_ext. intros bet. unfold Storage.wonFor.
  now rewrite (verdict_frame _ s s1 matchId mt h a (Bet.id bet) Hm Hb).
Qed.

(** X1. Finishing a match with both scores settles every pending bet of the
store, whichever matches its selections are on: a pending bet takes the
verdict of the loop over its selections, a settled bet stays as it is, and no
bet is left pending. *)
Theorem finish_settles_every_pending_bet s id m0 (h a : Z) hth hta :
  well_formed s = true ->
  Storage.getMatch id s = Some m0 ->
  exists upd s',
    fst (Storage.updateMatchStatus id "FINISHED" (Some h) (Some a) hth hta s)
    = Some upd
    /\ Storage.settle add
         (snd (Storage.updateMatchStatus id "FINISHED" (Some h) (Some a) hth hta s))
       = Some s'
    /\ (forall k bet,
          JsMap.get k (bets s) = Some bet ->
          JsMap.get k (bets s')
          = Some (if String.eqb (Bet.status bet) "PENDING"
                  then Bet.with_status bet (Storage.verdict s id upd h a k)
                  else bet))
    /\ (forall bet, In bet (JsMap.values (bets s')) -> Bet.status bet <> "PENDING").
Proof.
  intros Hwf Hm.
  destruct (finish_unfold s id m0 h a hth hta Hwf Hm) as (upd & Hu & Hwf1 & _).
  cbv zeta in Hu, Hwf1. rewrite Hu. cbn [fst snd].
  set (s1 := Storage.set_matches s (JsMap.set id upd (matches s))) in *.
  destruct (settle_total num add
              (fold_left (Storage.settleBet id upd h a) (JsMap.values (bets s))
                         (s1, []))) as (s' & Hs & _).
  exists upd, s'. repeat split; [exact Hs| |].
  - intros k bet Hg.
    rewrite (pass_every_bet s1 id upd h a s' Hwf1 Hs k bet Hg).
    now rewrite (verdict_frame _ s s1 id upd h a k eq_refl eq_refl).
  - now apply (pass_leaves_no_pending s1 id upd h a s' Hwf1 Hs).
Qed.

(** X2. Finishing a match with both scores pays each user at most once: the
balance becomes the old balance plus the potential win of the user's last
pending bet (in insertion order) that the pass resolves to WON, and stays as
it was for a user without such a bet. *)
Theorem finish_pays_each_user_the_last_won_bet s id m0 (h a : Z) hth hta :
  well_formed s = true ->
  Storage.getMatch id s = Some m0 ->
  exists upd s',
    fst (Storage.updateMatchStatus id "FINISHED" (Some h) (Some a) hth hta s)
    = Some upd
    /\ Storage.settle add
         (snd (Storage.updateMatchStatus id "FINISHED" (Some h) (Some a) hth hta s))
       = Some s'
    /\ forall uid u,
         Storage.getUser uid s = Some u ->
         Storage.getUser uid s'
         = Some (match rev (filter (Storage.wonFor s id upd h a uid)
                                   (JsMap.values (bets s))) with
                 | [] => u
                 | bet :: _ =>
                     User.with_balance u
                       (add (User.balance u) (Bet.potentialWin bet))
                 end).
Proof.
  intros Hwf Hm.
  destruct (finish_unfold s id m0 h a hth hta Hwf Hm) as (upd & Hu & Hwf1 & _).
  cbv zeta in Hu, Hwf1. rewrite Hu. cbn [fst snd].
  set (s1 := Storage.set_matches s (JsMap.set id upd (matches s))) in *.
  destruct (settle_total num add
              (fold_left (Storage.settleBet id upd h a) (JsMap.values (bets s))
                         (s1, []))) as (s' & Hs & _).
  exists upd, s'. repeat split; [exact Hs|].
  intros uid u Hg.
  rewrite (pass_final_balance num add s1 id upd h a uid u s' Hwf1 Hg Hs).
  now rewrite (wonFor_frame s s1 id upd h a uid _ eq_refl eq_refl).
Qed.

(** X3. [updateMatchStatus] settles nothing unless the match exists, the new
status is FINISHED and both scores are known afterwards: in every other case
it leaves no job behind and users, markets, bets and selections are as they
were. *)
Theorem updateMatchStatus_settles_only_finished_with_scores
        s id st (h a : option Z) hth hta :
  JsMap.keyed_by Match.id (matches s) = true ->
  st <> "FINISHED"
  \/ Storage.getMatch id s = None
  \/ (exists m0, Storage.getMatch id s = Some m0
                 /\ ((h = None /\ Match.homeScore m0 = None)
                     \/ (a = None /\ Match.awayScore m0 = None))) ->
  let r := snd (Storage.updateMatchStatus id st h a hth hta s) in
  snd r = []
  /\ users (fst r) = users s /\ markets (fst r) = markets s
  /\ bets (fst r) = bets s /\ betSelections (fst r) = betSelections s.
Proof.
  intros Hk Hcase. cbv zeta. unfold Storage.updateMatchStatus.
  destruct (Storage.getMatch id s) as [m0|] eqn:Hm; [|now repeat split].
  destruct (String.eqb_spec st "FINISHED") as [->|Hst]; [|now repeat split].
  destruct Hcase as [Hst|[Hno|(m & Hm' & Hsc)]]; [congruence|discriminate|].
  injection Hm' as <-.
  set (upd := Match.mk _ _ _ _ _ _ _ _ _ _).
  set (s1 := Storage.set_matches s (JsMap.set id upd (matches s))).
  assert (Hid : Match.id m0 = id).
  { eapply JsMapFacts.keyed_by_In; [exact Hk|]. now apply JsMapFacts.get_In. }
  assert (Hf : Storage.findMatch id s1 = Some upd).
  { rewrite findMatch_getMatch.
    - apply JsMapFacts.get_set_same.
    - now apply JsMapFacts.keyed_by_set. }
  cbn [snd]. unfold Storage.resolveBetsForMatch. rewrite Hf. cbn [Match.status upd].
  assert (Hnone : Match.homeScore upd = None \/ Match.awayScore upd = None).
  { destruct Hsc as [[-> H0]|[-> H0]]; [left|right]; exact H0. }
  simpl negb.
  destruct Hnone as [->| ->]; [now repeat split|].
  destruct (Match.homeScore upd); now repeat split.
Qed.

(** X4. A finished match is settled once: after [updateMatchStatus] has
finished a match with both scores, no later [updateMatchStatus] call, for any
match and with any status or scores, changes a bet or a balance. *)
Theorem finished_match_is_settled_once s id m0 (h a : Z) hth hta :
  well_formed s = true ->
  Storage.getMatch id s = Some m0 ->
  exists s1,
    Storage.settle add
      (snd (Storage.updateMatchStatus id "FINISHED" (Some h) (Some a) hth hta s))
    = Some s1
    /\ forall id' st' h' a' hth' hta',
         let r := snd (Storage.updateMatchStatus id' st' h' a' hth' hta' s1) in
         snd r = [] /\ bets (fst r) = bets s1 /\ users (fst r) = users s1.
Proof.
  intros Hwf Hm.
  destruct (finish_unfold s id m0 h a hth hta Hwf Hm) as (upd & Hu & Hwf1 & _).
  cbv zeta in Hu, Hwf1. rewrite Hu. cbn [fst snd].
  set (s0 := Storage.set_matches s (JsMap.set id upd (matches s))) in *.
  destruct (settle_total num add
              (fold_left (Storage.settleBet id upd h a) (JsMap.values (bets s))
                         (s0, []))) as (s1 & Hs & _).
  exists s1. split; [exact Hs|].
  pose proof (pass_leaves_no_pending s0 id upd h a s1 Hwf1 Hs) as Hnp.
  intros id' st' h' a' hth' hta'. cbv zeta. unfold Storage.updateMatchStatus.
  destruct (Storage.getMatch id' s1) as [m1|]; [|now repeat split].
  destruct (String.eqb st' "FINISHED"); [|now repeat split].
  cbn [snd]. rewrite resolveBetsForMatch_no_pending; [now repeat split|exact Hnp].
Qed.

End FinishFacts.

(** ** One bet on the finished match *)

Section FinishOneBet.
Variable num : Type.
Variable add : num -> num -> num.
Implicit Types (s : MemStorage num).




End FinishOneBet.

(** ** Settlement as a whole *)

Section SettlementTheorems.
Variable num : Type.
Variable add : num -> num -> num.
Implicit Types (s : MemStorage num).

Lemma map_ext_nodup {V : Type} (m m' : JsMap.t V) :
  JsMap.keys m' = JsMap.keys m -> JsMap.nodup_keys m = true ->
  (forall k, JsMap.get k m' = JsMap.get k m) -> m' = m.
Proof.
  revert m'. induction m as [|[k v] rest IH]; intros [|[k' v'] rest'] Hk Hn Hg;
    try discriminate; [reflexivity|].
  simpl in Hk. injection Hk as -> Hk.
  simpl in Hn. apply andb_true_iff in Hn. destruct Hn as [Hfresh Hn].
  apply negb_true_iff in Hfresh.
  assert (Hnin : ~ In k (JsMap.keys rest)).
  { intros Hin. apply JsMapFacts.existsb_keys in Hin. congruence. }
  pose proof (Hg k) as Hgk. simpl in Hgk. rewrite Z.eqb_refl in Hgk.
  injection Hgk as ->. f_equal. apply IH; [exact Hk|exact Hn|].
  intros k0. destruct (Z.eq_dec k k0) as [<-|Hne].
  - rewrite (proj2 (JsMapFacts.get_None_keys k rest) Hnin).
    apply JsMapFacts.get_None_keys. now rewrite Hk.
  - specialize (Hg k0). simpl in Hg.
    apply Z.eqb_neq in Hne. now rewrite Hne in Hg.
Qed.

Lemma settled_from_frame s s' :
  settled_from s s' ->
  matches s' = matches s /\ markets s' = markets s
  /\ betSelections s' = betSelections s
  /\ JsMap.keys (bets s') = JsMap.keys (bets s).
Proof.
  intros (H1 & H2 & H3 & _ & H5). repeat split; try assumption.
  now apply RelatedFacts.related_keys in H5.
Qed.

(** X5. Settlement creates nothing, deletes nothing and writes only statuses
and balances: after [resolveBetsForMatch], and after [resolveBet], once their
jobs have run, the matches, markets and selections are the same, the users
are the same up to their balances and the bets the same up to their statuses,
under the same keys in the same order. *)
Theorem settlement_writes_statuses_and_balances_only s matchId betId st :
  (exists s',
     Storage.settle add (Storage.resolveBetsForMatch matchId s) = Some s'
     /\ settled_from s s')
  /\ (exists s',
        Storage.settle add (Storage.resolveBet betId st s) = Some s'
        /\ settled_from s s').
Proof.
  split; eexists; (split; [apply settle_settled|]).
  - apply settled_resolveBetsForMatch.
  - apply settled_resolveBet.
Qed.

(** X6. A second pass for the same match that starts while the jobs of the
first are still running, after any number [n] of them, can only change
balances: bets, matches, markets and selections end as after a single
pass. *)
Theorem overlapping_passes_differ_in_balances_only s matchId n :
  well_formed s = true ->
  exists s1 s2,
    Storage.settle add (Storage.resolveBetsForMatch matchId s) = Some s1
    /\ (let mid := Storage.drain add n
                     (snd (Storage.resolveBetsForMatch matchId s))
                     (fst (Storage.resolveBetsForMatch matchId s)) in
        Storage.settle add
          (fst (Storage.resolveBetsForMatch matchId (fst mid)),
           snd mid ++ snd (Storage.resolveBetsForMatch matchId (fst mid)))
        = Some s2)
    /\ bets s2 = bets s1 /\ matches s2 = matches s1
    /\ markets s2 = markets s1 /\ betSelections s2 = betSelections s1.
Proof.
  intros Hwf.
  destruct (second_pass_at_any_time num add s matchId n Hwf)
    as (s1 & s2 & H1 & H2 & Hg).
  exists s1, s2. split; [exact H1|]. split; [exact H2|].
  cbv zeta in H2.
  set (r := Storage.resolveBetsForMatch matchId s) in *.
  set (mid := Storage.drain add n (snd r) (fst r)) in *.
  set (r2 := Storage.resolveBetsForMatch matchId (fst mid)) in *.
  destruct (settled_from_frame _ _ (proj1 (resolveBetsForMatch_settled num matchId s)))
    as (A1 & A2 & A3 & A4). fold r in A1, A2, A3, A4.
  assert (F1 : matches s1 = matches s /\ markets s1 = markets s
               /\ betSelections s1 = betSelections s
               /\ JsMap.keys (bets s1) = JsMap.keys (bets s)).
  { destruct r as [s0 q0]. apply settle_inv in H1. apply drain_frame in H1.
    simpl in *. destruct H1 as (B1 & B2 & B3 & B4).
    repeat split; congruence. }
  destruct (drain_keeps_frame num add n (snd r) (fst r)) as (C1 & C2 & C3 & C4 & _).
  fold mid in C1, C2, C3, C4.
  destruct (settled_from_frame _ _
              (proj1 (resolveBetsForMatch_settled num matchId (fst mid))))
    as (D1 & D2 & D3 & D4). fold r2 in D1, D2, D3, D4.
  apply settle_inv in H2. apply drain_frame in H2.
  destruct H2 as (E1 & E2 & E3 & E4).
  destruct F1 as (F1 & F2 & F3 & F4).
  repeat split; try congruence.
  apply map_ext_nodup; [congruence| |exact Hg].
  rewrite (JsMapFacts.nodup_keys_ext _ (bets s)); [|exact F4].
  now apply well_formed_bets in Hwf.
Qed.

End SettlementTheorems.

(** ** The other storage methods *)

Section CrudFacts.
Variable num : Type.
Implicit Types (s : MemStorage num) (sv : Server num).

Lemma consistent_spec sv :
  Crud.consistent sv = true <->
  JsMap.nodup_keys (users (store sv)) = true
  /\ JsMap.keyed_by User.id (users (store sv)) = true
  /\ JsMap.nodup_keys (matches (store sv)) = true
  /\ JsMap.keyed_by Match.id (matches (store sv)) = true
  /\ JsMap.nodup_keys (markets (store sv)) = true
  /\ JsMap.keyed_by Market.id (markets (store sv)) = true
  /\ JsMap.nodup_keys (bets (store sv)) = true
  /\ JsMap.keyed_by Bet.id (bets (store sv)) = true
  /\ JsMap.nodup_keys (betSelections (store sv)) = true
  /\ JsMap.keyed_by BetSelection.id (betSelections (store sv)) = true
  /\ JsMapMore.keys_below (currentMatchID (ids sv)) (matches (store sv)) = true
  /\ JsMapMore.keys_below (currentMarketID (ids sv)) (markets (store sv)) = true
  /\ JsMapMore.keys_below (currentBetID (ids sv)) (bets (store sv)) = true
  /\ JsMapMore.keys_below (currentBetSelectionID (ids sv))
                          (betSelections (store sv)) = true
  /\ forallb (fun selection =>
                BetSelection.betId selection <? currentBetID (ids sv))
             (JsMap.values (betSelections (store sv))) = true.
Proof.
  unfold Crud.consistent. cbv zeta. rewrite !andb_true_iff. tauto.
Qed.

Lemma consistent_well_formed sv :
  Crud.consistent sv = true -> well_formed (store sv) = true.
Proof.
  intros H. apply consistent_spec in H. unfold well_formed.
  rewrite !andb_true_iff. tauto.
Qed.

Ltac unpack H :=
  apply consistent_spec in H;
  destruct H as (U1 & U2 & M1 & M2 & K1 & K2 & B1 & B2 & S1 & S2
                 & L1 & L2 & L3 & L4 & L5).

Lemma set_present_below {V : Type} bound k (v v0 : V) (m : JsMap.t V) :
  JsMapMore.keys_below bound m = true -> JsMap.get k m = Some v0 ->
  JsMapMore.keys_below bound (JsMap.set k v m) = true.
Proof.
  intros Hb Hg. apply JsMapMoreFacts.keys_below_set; [exact Hb|].
  eapply JsMapMoreFacts.keys_below_In; [exact Hb|].
  apply JsMapFacts.get_In. exact Hg.
Qed.

Lemma set_fresh_below {V : Type} bound (v : V) (m : JsMap.t V) :
  JsMapMore.keys_below bound m = true ->
  JsMapMore.keys_below (bound + 1) (JsMap.set bound v m) = true.
Proof.
  intros Hb. apply JsMapMoreFacts.keys_below_set; [|lia].
  eapply JsMapMoreFacts.keys_below_mono; [|exact Hb]. lia.
Qed.

Lemma createMatch_consistent insertMatch sv :
  Crud.consistent sv = true ->
  Crud.consistent (snd (Crud.createMatch insertMatch sv)) = true.
Proof.
  intros H. unpack H. apply consistent_spec. simpl.
  repeat split; try assumption.
  - now apply JsMapMoreFacts.nodup_keys_set.
  - now apply JsMapFacts.keyed_by_set.
  - now apply set_fresh_below.
Qed.

Lemma createMarket_consistent insertMarket sv :
  Crud.consistent sv = true ->
  Crud.consistent (snd (Crud.createMarket insertMarket sv)) = true.
Proof.
  intros H. unpack H. apply consistent_spec. simpl.
  repeat split; try assumption.
  - now apply JsMapMoreFacts.nodup_keys_set.
  - now apply JsMapFacts.keyed_by_set.
  - now apply set_fresh_below.
Qed.

Lemma delete_all_keeps (P : JsMap.t (Market.t num) -> Prop) :
  (forall k m, P m -> P (JsMapMore.delete k m)) ->
  forall (l : list (Market.t num)) m,
    P m -> P (fold_left (fun m market => JsMapMore.delete (Market.id market) m) l m).
Proof.
  intros Hd. induction l as [|mk l IH]; intros m Hm; simpl; [exact Hm|].
  apply IH. now apply Hd.
Qed.

Lemma deleteMatch_consistent id sv :
  Crud.consistent sv = true ->
  Crud.consistent (mkServer (snd (Crud.deleteMatch id (store sv))) (ids sv)) = true.
Proof.
  intros H. unfold Crud.deleteMatch.
  destruct (Storage.getMatch id (store sv)); [|now destruct sv].
  unpack H. apply consistent_spec. simpl.
  repeat split; try assumption.
  - now apply JsMapMoreFacts.nodup_keys_delete.
  - now apply JsMapMoreFacts.keyed_by_delete.
  - apply (delete_all_keeps (fun m => JsMap.nodup_keys m = true)); [|exact K1].
    intros. now apply JsMapMoreFacts.nodup_keys_delete.
  - apply (delete_all_keeps (fun m => JsMap.keyed_by Market.id m = true)); [|exact K2].
    intros. now apply JsMapMoreFacts.keyed_by_delete.
  - now apply JsMapMoreFacts.keys_below_delete.
  - apply (delete_all_keeps (fun m => JsMapMore.keys_below _ m = true)); [|exact L2].
    intros. now apply JsMapMoreFacts.keys_below_delete.
Qed.

Lemma toggleMarketLock_consistent id isLocked sv :
  Crud.consistent sv = true ->
  Crud.consistent
    (mkServer (snd (Crud.toggleMarketLock id isLocked (store sv))) (ids sv)) = true.
Proof.
  intros H. unfold Crud.toggleMarketLock, Crud.getMarket.
  destruct (JsMap.get id (markets (store sv))) as [market|] eqn:E; [|now destruct sv].
  unpack H. apply consistent_spec. simpl.
  repeat split; try assumption.
  - now apply JsMapMoreFacts.nodup_keys_set.
  - apply JsMapFacts.keyed_by_set; [exact K2|]. simpl.
    eapply JsMapFacts.keyed_by_In; [exact K2|]. now apply JsMapFacts.get_In.
  - eapply set_present_below; eassumption.
Qed.

Lemma deleteBet_consistent id sv :
  Crud.consistent sv = true ->
  Crud.consistent (mkServer (snd (Crud.deleteBet id (store sv))) (ids sv)) = true.
Proof.
  intros H. unfold Crud.deleteBet.
  destruct (JsMap.get id (bets (store sv))); [|now destruct sv].
  unpack H. apply consistent_spec. simpl.
  repeat split; try assumption.
  - now apply JsMapMoreFacts.nodup_keys_delete.
  - now apply JsMapMoreFacts.keyed_by_delete.
  - now apply JsMapMoreFacts.keys_below_delete.
Qed.

Lemma updateUserBalance_consistent id balance sv :
  Crud.consistent sv = true ->
  Crud.consistent
    (mkServer (snd (Crud.updateUserBalance id balance (store sv))) (ids sv)) = true.
Proof.
  intros H. unfold Crud.updateUserBalance, Storage.getUser.
  destruct (JsMap.get id (users (store sv))) as [user|] eqn:E; [|now destruct sv].
  unpack H. apply consistent_spec. simpl.
  repeat split; try assumption.
  - now apply JsMapMoreFacts.nodup_keys_set.
  - apply JsMapFacts.keyed_by_set; [exact U2|]. simpl.
    eapply JsMapFacts.keyed_by_In; [exact U2|]. now apply JsMapFacts.get_In.
Qed.

(** The loop of [createBet] appends: the selection ids it hands out are not
in the map yet. *)
Lemma createSelections_appends betId :
  forall (l : list (InsertBetSelection.t num)) m n,
    JsMapMore.keys_below n m = true ->
    fold_left (Crud.createSelection betId) l (m, n)
    = (m ++ map (fun sel => (BetSelection.id sel, sel))
              (Crud.selectionsFrom betId n l),
       n + Z.of_nat (length l)).
Proof.
  induction l as [|si l IH]; intros m n Hb.
  - simpl. now rewrite app_nil_r, Z.add_0_r.
  - cbn [fold_left Crud.createSelection Crud.selectionsFrom map length].
    rewrite IH by now apply set_fresh_below.
    f_equal; [|lia].
    assert (Hg : JsMap.get n m = None)
      by (eapply JsMapMoreFacts.keys_below_get; [exact Hb|lia]).
    assert (Hset : forall v, JsMap.set n v m = m ++ [(n, v)]).
    { clear -Hg. intros v. induction m as [|[k0 v0] rest IHm]; simpl in *;
        [reflexivity|].
      destruct (k0 =? n); [discriminate|]. now rewrite IHm. }
    rewrite Hset, <- app_assoc. reflexivity.
Qed.

Lemma selectionsFrom_ids betId :
  forall (l : list (InsertBetSelection.t num)) n sel,
    In sel (Crud.selectionsFrom betId n l) ->
    n <= BetSelection.id sel < n + Z.of_nat (length l)
    /\ BetSelection.betId sel = betId.
Proof.
  induction l as [|si l IH]; intros n sel; simpl; [intros []|].
  intros [<-|Hin]; simpl; [split; [lia|reflexivity]|].
  destruct (IH _ _ Hin) as [H1 H2]. split; [lia|exact H2].
Qed.

Lemma selectionsFrom_nodup betId :
  forall (l : list (InsertBetSelection.t num)) n,
    NoDup (map BetSelection.id (Crud.selectionsFrom betId n l)).
Proof.
  induction l as [|si l IH]; intros n; simpl; constructor; [|apply IH].
  intros Hin. apply in_map_iff in Hin. destruct Hin as (sel & Hid & Hin).
  apply selectionsFrom_ids in Hin. simpl in Hid. lia.
Qed.

Lemma createBet_unfold insertBet selectionInserts sv :
  JsMapMore.keys_below (currentBetSelectionID (ids sv))
                       (betSelections (store sv)) = true ->
  let id := currentBetID (ids sv) in
  let bet :=
    Bet.mk id (InsertBet.userId insertBet) (InsertBet.stake insertBet)
           (InsertBet.totalOdds insertBet) (InsertBet.potentialWin insertBet)
           (Crud.or_string (InsertBet.status insertBet) "PENDING") in
  Crud.createBet insertBet selectionInserts sv
  = (bet,
     mkServer
       (mkStorage (users (store sv)) (matches (store sv)) (markets (store sv))
          (JsMap.set id bet (bets (store sv)))
          (betSelections (store sv)
           ++ map (fun sel => (BetSelection.id sel, sel))
                (Crud.selectionsFrom id (currentBetSelectionID (ids sv))
                                     selectionInserts)))
       (mkIds (currentUserID (ids sv)) (currentMatchID (ids sv))
              (currentMarketID (ids sv)) (id + 1)
              (currentBetSelectionID (ids sv)
               + Z.of_nat (length selectionInserts)))).
Proof.
  intros Hb. cbv zeta. unfold Crud.createBet. cbn [betSelections Storage.set_bets].
  rewrite createSelections_appends by exact Hb. reflexivity.
Qed.

Lemma createBet_consistent insertBet selectionInserts sv :
  Crud.consistent sv = true ->
  Crud.consistent (snd (Crud.createBet insertBet selectionInserts sv)) = true.
Proof.
  intros H. unpack H. rewrite createBet_unfold by exact L4.
  apply consistent_spec. cbn [snd store ids users matches markets bets betSelections
    currentMatchID currentMarketID currentBetID currentBetSelectionID].
  set (news := Crud.selectionsFrom _ _ _).
  assert (Hnew : forall sel, In sel news ->
            currentBetSelectionID (ids sv) <= BetSelection.id sel
              < currentBetSelectionID (ids sv) + Z.of_nat (length selectionInserts)
            /\ BetSelection.betId sel = currentBetID (ids sv))
    by (intros sel; apply selectionsFrom_ids).
  repeat split; try assumption.
  - now apply JsMapMoreFacts.nodup_keys_set.
  - now apply JsMapFacts.keyed_by_set.
  - apply JsMapMoreFacts.nodup_keys_spec. unfold JsMap.keys.
    rewrite map_app, map_map. simpl.
    apply NoDup_app; [now apply JsMapMoreFacts.nodup_keys_spec
                     |apply selectionsFrom_nodup|].
    intros k Hin1 Hin2. apply in_map_iff in Hin1. destruct Hin1 as ([k0 v0] & <- & Hin1).
    apply (JsMapMoreFacts.keys_below_In _ _ _ _ L4) in Hin1.
    apply in_map_iff in Hin2. destruct Hin2 as (sel & Hid & Hin2).
    apply Hnew in Hin2. simpl in *. lia.
  - unfold JsMap.keyed_by in *. rewrite forallb_app, S2. simpl.
    apply forallb_forall. intros kv Hin. apply in_map_iff in Hin.
    destruct Hin as (sel & <- & _). simpl. apply Z.eqb_refl.
  - now apply set_fresh_below.
  - unfold JsMapMore.keys_below in *. rewrite forallb_app. apply andb_true_iff. split.
    + apply forallb_forall. intros kv Hin.
      rewrite forallb_forall in L4. specialize (L4 _ Hin).
      apply Z.ltb_lt in L4. apply Z.ltb_lt. lia.
    + apply forallb_forall. intros kv Hin. apply in_map_iff in Hin.
      destruct Hin as (sel & <- & Hin). apply Hnew in Hin. simpl. apply Z.ltb_lt. lia.
  - unfold JsMap.values in *. rewrite map_app, forallb_app. apply andb_true_iff. split.
    + apply forallb_forall. intros v Hin.
      rewrite forallb_forall in L5. specialize (L5 _ Hin).
      apply Z.ltb_lt in L5. apply Z.ltb_lt. lia.
    + apply forallb_forall. intros v Hin. rewrite map_map in Hin. simpl in Hin.
      rewrite map_id in Hin. apply Hnew in Hin. apply Z.ltb_lt. lia.
Qed.

Lemma settled_from_consistent sv s' :
  settled_from (store sv) s' -> Crud.consistent sv = true ->
  Crud.consistent (mkServer s' (ids sv)) = true.
Proof.
  intros (Hm & Hk & Hs & Hu & Hb) H. unpack H. apply consistent_spec.
  cbn [store ids]. rewrite Hm, Hk, Hs.
  rewrite (RelatedFacts.related_nodup_keys _ _ _ Hu).
  rewrite (RelatedFacts.related_nodup_keys _ _ _ Hb).
  rewrite (RelatedFacts.keys_below_keys _ _ _ (RelatedFacts.related_keys _ _ _ Hb)).
  repeat split; try assumption.
  - eapply RelatedFacts.related_keyed_by; [|exact Hu|exact U2]. now intros v v' [E _].
  - eapply RelatedFacts.related_keyed_by; [|exact Hb|exact B2]. now intros v v' [E _].
Qed.

End CrudFacts.

Section CallFacts.
Variable num : Type.
Variables (add sub : num -> num -> num) (ltb : num -> num -> bool).
Implicit Types (s : MemStorage num) (sv : Server num).

Lemma settled_nil s : Api.settled add (s, []) = s.
Proof. reflexivity. Qed.

Lemma updateMatchStatus_consistent id st h a hth hta sv :
  Crud.consistent sv = true ->
  Crud.consistent
    (mkServer
       (Api.settled add
          (snd (Storage.updateMatchStatus id st h a hth hta (store sv))))
       (ids sv)) = true.
Proof.
  intros H. unfold Storage.updateMatchStatus.
  destruct (Storage.getMatch id (store sv)) as [m0|] eqn:Hm;
    [|cbn [snd]; rewrite settled_nil; now destruct sv].
  set (upd := Match.mk _ _ _ _ _ _ _ _ _ _).
  set (s1 := Storage.set_matches (store sv) (JsMap.set id upd (matches (store sv)))).
  assert (H1 : Crud.consistent (mkServer s1 (ids sv)) = true).
  { apply consistent_spec in H.
    destruct H as (U1 & U2 & M1 & M2 & K1 & K2 & B1 & B2 & S1 & S2
                   & L1 & L2 & L3 & L4 & L5).
    apply consistent_spec. simpl. repeat split; try assumption.
    - now apply JsMapMoreFacts.nodup_keys_set.
    - apply JsMapFacts.keyed_by_set; [exact M2|]. simpl.
      eapply JsMapFacts.keyed_by_In; [exact M2|]. now apply JsMapFacts.get_In.
    - eapply set_present_below; eassumption. }
  destruct (String.eqb st "FINISHED"); cbn [snd].
  - apply (settled_from_consistent num (mkServer s1 (ids sv))); [|exact H1].
    apply settled_resolveBetsForMatch.
  - rewrite settled_nil. exact H1.
Qed.

Lemma resolveBet_consistent betId st sv :
  Crud.consistent sv = true ->
  Crud.consistent
    (mkServer (Api.settled add (Storage.resolveBet betId st (store sv))) (ids sv))
  = true.
Proof.
  intros H. apply settled_from_consistent; [|exact H]. apply settled_resolveBet.
Qed.

Lemma placeBet_consistent betData selections sv :
  Crud.consistent sv = true ->
  Crud.consistent (snd (Routes.placeBet sub ltb betData selections sv)) = true.
Proof.
  intros H. unfold Routes.placeBet.
  destruct selections as [|marketId rest]; [exact H|].
  destruct (Storage.getUser 1 (store sv)) as [user|]; [|exact H].
  destruct (ltb (User.balance user) (BetData.stake betData)); [exact H|].
  destruct (Routes.validateSelections (marketId :: rest) (store sv))
    as [missing|validSelections]; [exact H|].
  pose proof (createBet_consistent num
                (InsertBet.mk (User.id user) (BetData.stake betData)
                              (BetData.totalOdds betData)
                              (BetData.potentialWin betData)
                              (BetData.status betData))
                validSelections sv H) as H1.
  destruct (Crud.createBet _ validSelections sv) as [bet sv1]. cbn [snd] in H1.
  pose proof (updateUserBalance_consistent num (User.id user)
                (sub (User.balance user) (BetData.stake betData)) sv1 H1) as H2.
  destruct (Crud.updateUserBalance _ _ (store sv1)) as [u2 s2]. exact H2.
Qed.

Lemma run_call_consistent c sv :
  Crud.consistent sv = true ->
  Crud.consistent (Api.run_call add sub ltb c sv) = true.
Proof.
  intros H. destruct c; cbn [Api.run_call].
  - now apply createMatch_consistent.
  - now apply updateMatchStatus_consistent.
  - now apply deleteMatch_consistent.
  - now apply createMarket_consistent.
  - now apply toggleMarketLock_consistent.
  - now apply createBet_consistent.
  - now apply resolveBet_consistent.
  - now apply deleteBet_consistent.
  - now apply updateUserBalance_consistent.
  - now apply placeBet_consistent.
Qed.

(** X7. Whatever calls are made on the storage, one after the other, the store
stays consistent: every map holds each key once, every record sits under its
own id, the counters are above every key handed out, and no selection names a
bet id that is still to come.  In particular the store is well formed in the
sense the settlement theorems assume. *)
Theorem calls_keep_the_store_consistent cs sv :
  Crud.consistent sv = true ->
  Crud.consistent (Api.run_calls add sub ltb cs sv) = true
  /\ well_formed (store (Api.run_calls add sub ltb cs sv)) = true.
Proof.
  unfold Api.run_calls. revert sv.
  induction cs as [|c cs IH]; intros sv H; cbn [fold_left].
  - split; [exact H|now apply consistent_well_formed].
  - apply IH. now apply run_call_consistent.
Qed.

End CallFacts.

Section CrudTheorems.
Variable num : Type.
Implicit Types (s : MemStorage num) (sv : Server num).

Lemma get_delete {V : Type} k k' (m : JsMap.t V) :
  JsMap.get k (JsMapMore.delete k' m)
  = if k =? k' then None else JsMap.get k m.
Proof.
  destruct (Z.eqb_spec k k') as [->|Hne].
  - apply JsMapMoreFacts.get_delete_same.
  - now apply JsMapMoreFacts.get_delete_other.
Qed.

Lemma get_delete_all k :
  forall (l : list (Market.t num)) (m : JsMap.t (Market.t num)),
  JsMap.get k (fold_left (fun m market => JsMapMore.delete (Market.id market) m) l m)
  = if existsb (fun market => Market.id market =? k) l then None
    else JsMap.get k m.
Proof.
  induction l as [|mk l IH]; intros m; simpl; [reflexivity|].
  rewrite IH, get_delete, (Z.eqb_sym k).
  destruct (Market.id mk =? k); simpl; [|reflexivity].
  now destruct (existsb _ l).
Qed.

Lemma deleted_market_ids s id k :
  JsMap.nodup_keys (markets s) = true ->
  JsMap.keyed_by Market.id (markets s) = true ->
  existsb (fun market => Market.id market =? k) (Crud.getMarketsByMatchId id s)
  = match JsMap.get k (markets s) with
    | Some market => Market.matchId market =? id
    | None => false
    end.
Proof.
  intros Hn Hk. unfold Crud.getMarketsByMatchId.
  destruct (JsMap.get k (markets s)) as [market|] eqn:Hg.
  - destruct (Market.matchId market =? id) eqn:Hm.
    + apply existsb_exists. exists market. split.
      * apply filter_In. split; [|exact Hm].
        apply JsMapFacts.In_values. exists k. now apply JsMapFacts.get_In.
      * apply Z.eqb_eq. eapply JsMapFacts.keyed_by_In; [exact Hk|].
        now apply JsMapFacts.get_In.
    + apply not_true_is_false. intros Hex. apply existsb_exists in Hex.
      destruct Hex as (mk & Hin & Hid). apply filter_In in Hin.
      destruct Hin as [Hin Hmk]. apply JsMapFacts.In_values in Hin.
      destruct Hin as [k0 Hin].
      pose proof (JsMapFacts.keyed_by_In _ _ _ _ Hk Hin) as Hk0.
      apply Z.eqb_eq in Hid. subst k0. rewrite Hid in Hin.
      pose proof (JsMapFacts.In_get_nodup _ _ _ Hn Hin) as Hg'. congruence.
  - apply not_true_is_false. intros Hex. apply existsb_exists in Hex.
    destruct Hex as (mk & Hin & Hid). apply filter_In in Hin.
    destruct Hin as [Hin _]. apply JsMapFacts.In_values in Hin.
    destruct Hin as [k0 Hin].
    pose proof (JsMapFacts.keyed_by_In _ _ _ _ Hk Hin) as Hk0.
    apply Z.eqb_eq in Hid. subst k0. rewrite Hid in Hin.
    apply JsMapFacts.get_None_keys in Hg. apply Hg.
    unfold JsMap.keys. now apply (in_map fst) in Hin.
Qed.

(** X8. [deleteMatch] of a known match removes the match and exactly the
markets of that match, and nothing else: other matches and markets stay, and
users, bets and the selections on the deleted markets stay as they are. *)
Theorem deleteMatch_removes_the_match_and_its_markets id s m0 :
  JsMap.nodup_keys (markets s) = true ->
  JsMap.keyed_by Market.id (markets s) = true ->
  Storage.getMatch id s = Some m0 ->
  exists s',
    Crud.deleteMatch id s = (true, s')
    /\ (forall k, Storage.getMatch k s'
                  = if k =? id then None else Storage.getMatch k s)
    /\ (forall k, Crud.getMarket k s'
                  = match Crud.getMarket k s with
                    | Some market =>
                        if Market.matchId market =? id then None else Some market
                    | None => None
                    end)
    /\ Crud.getMarketsByMatchId id s' = []
    /\ users s' = users s /\ bets s' = bets s
    /\ betSelections s' = betSelections s.
Proof.
  intros Hn Hk Hm. unfold Crud.deleteMatch. rewrite Hm.
  eexists. split; [reflexivity|].
  assert (Hget : forall k,
            JsMap.get k
              (fold_left (fun m market => JsMapMore.delete (Market.id market) m)
                         (Crud.getMarketsByMatchId id s) (markets s))
            = match JsMap.get k (markets s) with
              | Some market =>
                  if Market.matchId market =? id then None else Some market
              | None => None
              end).
  { intros k. rewrite get_delete_all, (deleted_market_ids s id k Hn Hk).
    destruct (JsMap.get k (markets s)) as [market|]; [|reflexivity].
    now destruct (Market.matchId market =? id). }
  repeat split.
  - intros k. unfold Storage.getMatch. simpl. apply get_delete.
  - intros k. unfold Crud.getMarket. simpl. apply Hget.
  - unfold Crud.getMarketsByMatchId. simpl.
    set (markets' := fold_left _ _ _) in *.
    destruct (filter _ (JsMap.values markets')) as [|mk rest] eqn:Hf; [reflexivity|].
    assert (Hin : In mk (filter (fun market => Market.matchId market =? id)
                                (JsMap.values markets')))
      by (rewrite Hf; now left).
    apply filter_In in Hin. destruct Hin as [Hin Hmk].
    apply JsMapFacts.In_values in Hin. destruct Hin as [k Hin].
    assert (Hn' : JsMap.nodup_keys markets' = true).
    { apply (delete_all_keeps num (fun m => JsMap.nodup_keys m = true)); [|exact Hn].
      intros. now apply JsMapMoreFacts.nodup_keys_delete. }
    pose proof (JsMapFacts.In_get_nodup _ _ _ Hn' Hin) as Hg. rewrite Hget in Hg.
    destruct (JsMap.get k (markets s)) as [market|]; [|discriminate].
    destruct (Market.matchId market =? id) eqn:E; [discriminate|]. congruence.
Qed.

Lemma selectionsFrom_fields betId :
  forall (l : list (InsertBetSelection.t num)) n,
    map BetSelection.marketId (Crud.selectionsFrom betId n l)
    = map InsertBetSelection.marketId l
    /\ map BetSelection.odds (Crud.selectionsFrom betId n l)
       = map InsertBetSelection.odds l.
Proof.
  induction l as [|si l IH]; intros n; simpl; [now split|].
  destruct (IH (n + 1)) as [H1 H2]. now rewrite H1, H2.
Qed.

Lemma createBet_round_trip insertBet selectionInserts sv :
  Crud.consistent sv = true ->
  let bet := fst (Crud.createBet insertBet selectionInserts sv) in
  let sv' := snd (Crud.createBet insertBet selectionInserts sv) in
  Bet.id bet = currentBetID (ids sv)
  /\ Crud.getBet (Bet.id bet) (store sv) = None
  /\ Crud.getBet (Bet.id bet) (store sv') = Some bet
  /\ Storage.selectionsOf (store sv') (Bet.id bet)
     = Crud.selectionsFrom (Bet.id bet) (currentBetSelectionID (ids sv))
                           selectionInserts
  /\ (forall k, k <> Bet.id bet ->
        Crud.getBet k (store sv') = Crud.getBet k (store sv)
        /\ Storage.selectionsOf (store sv') k = Storage.selectionsOf (store sv) k)
  /\ users (store sv') = users (store sv)
  /\ matches (store sv') = matches (store sv)
  /\ markets (store sv') = markets (store sv).
Proof.
  intros H. apply consistent_spec in H.
  destruct H as (U1 & U2 & M1 & M2 & K1 & K2 & B1 & B2 & S1 & S2
                 & L1 & L2 & L3 & L4 & L5).
  cbv zeta. rewrite createBet_unfold by exact L4. cbv zeta.
  cbn [fst snd Bet.id store bets betSelections users matches markets].
  unfold Crud.getBet, Storage.selectionsOf.
  cbn [bets betSelections].
  assert (Hold : forall k,
            filter (fun selection => BetSelection.betId selection =? k)
                   (JsMap.values
                      (betSelections (store sv)
                       ++ map (fun sel => (BetSelection.id sel, sel))
                            (Crud.selectionsFrom (currentBetID (ids sv))
                               (currentBetSelectionID (ids sv)) selectionInserts)))
            = filter (fun selection => BetSelection.betId selection =? k)
                     (JsMap.values (betSelections (store sv)))
              ++ (if k =? currentBetID (ids sv)
                  then Crud.selectionsFrom (currentBetID (ids sv))
                         (currentBetSelectionID (ids sv)) selectionInserts
                  else [])).
  { intros k. unfold JsMap.values. rewrite map_app, filter_app, map_map. simpl.
    rewrite map_id. f_equal.
    set (news := Crud.selectionsFrom _ _ _).
    assert (Hnew : forall sel, In sel news ->
                     BetSelection.betId sel = currentBetID (ids sv))
      by (intros sel Hin; now apply selectionsFrom_ids in Hin).
    clearbody news. induction news as [|sel news IH]; simpl.
    - now destruct (k =? _).
    - rewrite (Hnew sel) by now left. rewrite (Z.eqb_sym (currentBetID (ids sv))).
      rewrite IH by (intros; apply Hnew; now right).
      now destruct (k =? currentBetID (ids sv)). }
  repeat split.
  - eapply JsMapMoreFacts.keys_below_get; [exact L3|lia].
  - apply JsMapFacts.get_set_same.
  - rewrite Hold, Z.eqb_refl.
    replace (filter _ (JsMap.values (betSelections (store sv)))) with
      (@nil (BetSelection.t num)); [reflexivity|].
    symmetry. apply filter_nil_forall. intros sel Hin.
    rewrite forallb_forall in L5. specialize (L5 _ Hin).
    apply Z.ltb_lt in L5. apply Z.eqb_neq. lia.
  - now apply JsMapFacts.get_set_other.
  - rewrite Hold. apply Z.eqb_neq in H. rewrite H. apply app_nil_r.
Qed.

(** X9. [createBet] on a consistent store: the bet gets the next bet id, which
no stored bet has, and is stored under it; its selections are exactly the
inserted ones, in order, with the next selection ids and with the new bet's
id whatever [betId] they came with; every other bet and its selections, and
the users, matches and markets, stay as they are. *)
Theorem createBet_stores_the_bet_with_its_selections
        insertBet selectionInserts sv :
  Crud.consistent sv = true ->
  let bet := fst (Crud.createBet insertBet selectionInserts sv) in
  let sv' := snd (Crud.createBet insertBet selectionInserts sv) in
  Bet.id bet = currentBetID (ids sv)
  /\ Crud.getBet (Bet.id bet) (store sv) = None
  /\ Crud.getBet (Bet.id bet) (store sv') = Some bet
  /\ Forall (fun sel => BetSelection.betId sel = Bet.id bet)
            (Storage.selectionsOf (store sv') (Bet.id bet))
  /\ map BetSelection.marketId (Storage.selectionsOf (store sv') (Bet.id bet))
     = map InsertBetSelection.marketId selectionInserts
  /\ map BetSelection.odds (Storage.selectionsOf (store sv') (Bet.id bet))
     = map InsertBetSelection.odds selectionInserts
  /\ NoDup (map BetSelection.id (Storage.selectionsOf (store sv') (Bet.id bet)))
  /\ (forall k, k <> Bet.id bet ->
        Crud.getBet k (store sv') = Crud.getBet k (store sv)
        /\ Storage.selectionsOf (store sv') k = Storage.selectionsOf (store sv) k)
  /\ users (store sv') = users (store sv)
  /\ matches (store sv') = matches (store sv)
  /\ markets (store sv') = markets (store sv).
Proof.
  intros H.
  destruct (createBet_round_trip insertBet selectionInserts sv H)
    as (H1 & H2 & H3 & H4 & H5 & H6 & H7 & H8).
  cbv zeta. rewrite H4.
  destruct (selectionsFrom_fields
              (Bet.id (fst (Crud.createBet insertBet selectionInserts sv)))
              selectionInserts (currentBetSelectionID (ids sv))) as [F1 F2].
  repeat split; try assumption.
  - apply Forall_forall. intros sel Hin. now apply selectionsFrom_ids in Hin.
  - apply selectionsFrom_nodup.
  - now apply H5.
  - now apply H5.
Qed.

(** X10. [createMatch] stores a score of 0 as no score ([homeScore || null]):
a match created with 0 goals on either side is stored without that score,
and [resolveBetsForMatch] for it settles nothing, whatever its status. *)
Theorem createMatch_drops_a_zero_score insertMatch sv :
  Crud.consistent sv = true ->
  InsertMatch.homeScore insertMatch = Some 0
  \/ InsertMatch.awayScore insertMatch = Some 0 ->
  let mt := fst (Crud.createMatch insertMatch sv) in
  let s' := store (snd (Crud.createMatch insertMatch sv)) in
  Storage.getMatch (Match.id mt) s' = Some mt
  /\ (Match.homeScore mt = None \/ Match.awayScore mt = None)
  /\ Storage.resolveBetsForMatch (Match.id mt) s' = (s', []).
Proof.
  intros H Hz. apply consistent_spec in H.
  destruct H as (U1 & U2 & M1 & M2 & K1 & K2 & B1 & B2 & S1 & S2
                 & L1 & L2 & L3 & L4 & L5).
  cbv zeta. unfold Crud.createMatch. cbn [fst snd store Match.id].
  set (mt := Match.mk _ _ _ _ _ _ _ _ _ _).
  set (s' := Storage.set_matches _ _).
  assert (Hg : Storage.getMatch (currentMatchID (ids sv)) s' = Some mt)
    by apply JsMapFacts.get_set_same.
  assert (Hnone : Match.homeScore mt = None \/ Match.awayScore mt = None).
  { destruct Hz as [E|E]; [left|right]; simpl; now rewrite E. }
  repeat split; [exact Hg|exact Hnone|].
  unfold Storage.resolveBetsForMatch.
  rewrite findMatch_getMatch, Hg by now apply JsMapFacts.keyed_by_set.
  destruct (negb (String.eqb (Match.status mt) "FINISHED")); [reflexivity|].
  destruct Hnone as [->| ->]; [reflexivity|].
  now destruct (Match.homeScore mt).
Qed.

End CrudTheorems.

(** ** Placing a bet *)

Section RouteFacts.
Variable num : Type.
Variables (add sub : num -> num -> num) (ltb : num -> num -> bool).
Implicit Types (s : MemStorage num) (sv : Server num).


Lemma validateSelections_valid selections s valid :
  JsMap.keyed_by Market.id (markets s) = true ->
  Routes.validateSelections selections s = inr valid ->
  map InsertBetSelection.marketId valid = selections
  /\ Forall2 (fun selection marketId =>
                exists market,
                  Crud.getMarket marketId s = Some market
                  /\ InsertBetSelection.odds selection = Market.odds market)
             valid selections.
Proof.
  intros Hk. revert valid.
  induction selections as [|m rest IH]; simpl; intros valid.
  - intros H. injection H as <-. split; [reflexivity|constructor].
  - destruct (Crud.getMarket m s) as [market|] eqn:Hm; [|discriminate].
    destruct (Routes.validateSelections rest s) as [missing|valid0]; [discriminate|].
    intros H. injection H as <-. destruct (IH _ eq_refl) as [H1 H2].
    assert (Hid : Market.id market = m).
    { eapply JsMapFacts.keyed_by_In; [exact Hk|]. now apply JsMapFacts.get_In. }
    simpl. rewrite H1, Hid. split; [reflexivity|].
    constructor; [|exact H2]. now exists market.
Qed.


Lemma placeBet_created betData selections sv bet :
  fst (Routes.placeBet sub ltb betData selections sv) = Routes.Created bet ->
  exists user valid,
    Storage.getUser 1 (store sv) = Some user
    /\ ltb (User.balance user) (BetData.stake betData) = false
    /\ Routes.validateSelections selections (store sv) = inr valid
    /\ let insertBet :=
         InsertBet.mk (User.id user) (BetData.stake betData)
                      (BetData.totalOdds betData) (BetData.potentialWin betData)
                      (BetData.status betData) in
       bet = fst (Crud.createBet insertBet valid sv)
       /\ snd (Routes.placeBet sub ltb betData selections sv)
          = mkServer
              (snd (Crud.updateUserBalance (User.id user)
                      (sub (User.balance user) (BetData.stake betData))
                      (store (snd (Crud.createBet insertBet valid sv)))))
              (ids (snd (Crud.createBet insertBet valid sv))).
Proof.
  unfold Routes.placeBet.
  destruct selections as [|m rest]; [discriminate|].
  destruct (Storage.getUser 1 (store sv)) as [user|]; [|discriminate].
  destruct (ltb (User.balance user) (BetData.stake betData)) eqn:Hlt; [discriminate|].
  destruct (Routes.validateSelections (m :: rest) (store sv)) as [missing|valid];
    [discriminate|].
  destruct (Crud.createBet _ valid sv) as [bet0 sv1] eqn:Hc.
  destruct (Crud.updateUserBalance _ _ (store sv1)) as [u2 s2] eqn:Hu. cbn [fst snd].
  intros H. injection H as <-. exists user, valid. cbv zeta. rewrite Hc.
  cbn [fst snd]. rewrite Hu. repeat split; try reflexivity. exact Hlt.
Qed.

Lemma createBet_bets insertBet (valid : list (InsertBetSelection.t num)) sv :
  JsMapMore.keys_below (currentBetSelectionID (ids sv))
                       (betSelections (store sv)) = true ->
  bets (store (snd (Crud.createBet insertBet valid sv)))
  = JsMap.set (currentBetID (ids sv)) (fst (Crud.createBet insertBet valid sv))
              (bets (store sv)).
Proof.
  intros Hb. rewrite createBet_unfold by exact Hb. reflexivity.
Qed.

Lemma selectionsFrom_odds betId :
  forall (l : list (InsertBetSelection.t num)) n,
    Forall2 (fun sel ins => BetSelection.odds sel = InsertBetSelection.odds ins)
            (Crud.selectionsFrom betId n l) l.
Proof.
  induction l as [|v0 l IH]; intros n; simpl; constructor;
    [reflexivity|apply IH].
Qed.

(** X12. A bet accepted by [POST /api/bets] on a consistent store belongs to
user 1, takes the next bet id and carries the stake, total odds and potential
win of the request as sent, unchecked against each other; its selections are
the requested markets in order, each with the odds its market had at that
moment; the bet comes last in the list of the bets of user 1; user 1 is
debited the stake and nobody else's balance changes. *)
Theorem placeBet_stores_what_the_client_sent betData selections sv bet :
  Crud.consistent sv = true ->
  fst (Routes.placeBet sub ltb betData selections sv) = Routes.Created bet ->
  let sv' := snd (Routes.placeBet sub ltb betData selections sv) in
  exists user,
    Storage.getUser 1 (store sv) = Some user
    /\ bet = Bet.mk (currentBetID (ids sv)) 1 (BetData.stake betData)
                    (BetData.totalOdds betData) (BetData.potentialWin betData)
                    (Crud.or_string (BetData.status betData) "PENDING")
    /\ Crud.getBet (Bet.id bet) (store sv') = Some bet
    /\ map BetSelection.marketId (Storage.selectionsOf (store sv') (Bet.id bet))
       = selections
    /\ Forall2 (fun selection marketId =>
                  exists market,
                    Crud.getMarket marketId (store sv) = Some market
                    /\ BetSelection.odds selection = Market.odds market)
               (Storage.selectionsOf (store sv') (Bet.id bet)) selections
    /\ Crud.getBetsByUserId 1 (store sv')
       = Crud.getBetsByUserId 1 (store sv) ++ [bet]
    /\ Storage.getUser 1 (store sv')
       = Some (User.with_balance user
                 (sub (User.balance user) (BetData.stake betData)))
    /\ (forall uid, uid <> 1 ->
          Storage.getUser uid (store sv') = Storage.getUser uid (store sv)).
Proof.
  intros Hc Hcreated. cbv zeta.
  destruct (placeBet_created _ _ _ _ Hcreated)
    as (user & valid & Hu & Hlt & Hv & Hrest).
  cbv zeta in Hrest. destruct Hrest as [Hbet Hsv]. rewrite Hsv. clear Hsv.
  set (insertBet := InsertBet.mk _ _ _ _ _) in *.
  destruct (createBet_round_trip num insertBet valid sv Hc)
    as (R1 & R2 & R3 & R4 & R5 & R6 & R7 & R8).
  rewrite <- Hbet in *.
  set (sv1 := snd (Crud.createBet insertBet valid sv)) in *.
  pose proof Hc as Hc'. apply consistent_spec in Hc'.
  destruct Hc' as (U1 & U2 & M1 & M2 & K1 & K2 & B1 & B2 & S1 & S2
                   & L1 & L2 & L3 & L4 & L5).
  assert (Huid : User.id user = 1).
  { eapply JsMapFacts.keyed_by_In; [exact U2|]. now apply JsMapFacts.get_In. }
  destruct (validateSelections_valid selections (store sv) valid K2 Hv) as [V1 V2].
  destruct (selectionsFrom_fields num (Bet.id bet) valid
              (currentBetSelectionID (ids sv))) as [F1 F2].
  assert (Hu1 : Storage.getUser (User.id user) (store sv1) = Some user).
  { unfold Storage.getUser. rewrite R6, Huid. exact Hu. }
  assert (Hform : bet = Bet.mk (currentBetID (ids sv)) 1 (BetData.stake betData)
                               (BetData.totalOdds betData)
                               (BetData.potentialWin betData)
                               (Crud.or_string (BetData.status betData) "PENDING")).
  { rewrite Hbet. unfold Crud.createBet, insertBet. cbn [InsertBet.userId
      InsertBet.stake InsertBet.totalOdds InsertBet.potentialWin InsertBet.status].
    rewrite Huid.
    destruct (fold_left _ _ _). reflexivity. }
  pose proof (createBet_bets insertBet valid sv L4) as Hb1.
  rewrite <- Hbet in Hb1. fold sv1 in Hb1.
  exists user. unfold Crud.updateUserBalance. rewrite Hu1. cbn [snd store].
  unfold Storage.selectionsOf, Crud.getBet, Storage.getUser in *.
  cbn [Storage.set_users bets betSelections users].
  repeat split.
  - exact Hu.
  - exact Hform.
  - exact R3.
  - rewrite R4, F1. exact V1.
  - rewrite R4.
    pose proof (selectionsFrom_odds (Bet.id bet) valid
                  (currentBetSelectionID (ids sv))) as Hodds.
    clear -Hodds V2. revert selections V2.
    induction Hodds as [|sel ins l1 l2 Ho _ IH]; intros selections V2.
    + inversion V2. constructor.
    + inversion V2 as [|? m ? rest (market & Hm & Hmo) Hr]; subst.
      constructor; [|now apply IH]. exists market. split; [exact Hm|congruence].
  - unfold Crud.getBetsByUserId. cbn [Storage.set_users bets].
    rewrite Hb1, <- R1, JsMapMoreFacts.values_set_fresh by exact R2.
    rewrite filter_app. cbn [filter].
    replace (Bet.userId bet) with 1 by (rewrite Hform; reflexivity).
    reflexivity.
  - rewrite Huid. apply JsMapFacts.get_set_same.
  - intros uid Hne. rewrite Huid, JsMapFacts.get_set_other by exact Hne.
    now rewrite R6.
Qed.

End RouteFacts.

Section LockFacts.
Variable num : Type.
Variables (sub : num -> num -> num) (ltb : num -> num -> bool).
Implicit Types (s : MemStorage num) (sv : Server num).

(** What [POST /api/bets] reads of a market. *)
Lemma validateSelections_set_markets selections s m' :
  (forall k,
     option_map (fun market => (Market.id market, Market.odds market))
                (JsMap.get k m')
     = option_map (fun market => (Market.id market, Market.odds market))
                  (JsMap.get k (markets s))) ->
  Routes.validateSelections selections (Crud.set_markets s m')
  = Routes.validateSelections selections s.
Proof.
  intros Hm. induction selections as [|k rest IH]; simpl; [reflexivity|].
  unfold Crud.getMarket in *. cbn [Crud.set_markets markets].
  specialize (Hm k).
  destruct (JsMap.get k m') as [mk'|], (JsMap.get k (markets s)) as [mk|];
    try discriminate; [|reflexivity].
  simpl in Hm. injection Hm as Hid Hodds. now rewrite IH, Hid, Hodds.
Qed.

Lemma createBet_set_markets insertBet (valid : list (InsertBetSelection.t num)) sv m' :
  Crud.createBet insertBet valid (mkServer (Crud.set_markets (store sv) m') (ids sv))
  = (fst (Crud.createBet insertBet valid sv),
     mkServer (Crud.set_markets (store (snd (Crud.createBet insertBet valid sv))) m')
              (ids (snd (Crud.createBet insertBet valid sv)))).
Proof.
  unfold Crud.createBet. cbn [store ids Crud.set_markets Storage.set_bets bets
    betSelections users matches markets].
  destruct (fold_left _ valid _) as [selections n]. reflexivity.
Qed.

Lemma updateUserBalance_set_markets id balance s m' :
  snd (Crud.updateUserBalance id balance (Crud.set_markets s m'))
  = Crud.set_markets (snd (Crud.updateUserBalance id balance s)) m'.
Proof.
  unfold Crud.updateUserBalance, Storage.getUser. cbn [Crud.set_markets users].
  now destruct (JsMap.get id (users s)).
Qed.

Lemma placeBet_set_markets betData selections sv m' :
  (forall k,
     option_map (fun market => (Market.id market, Market.odds market))
                (JsMap.get k m')
     = option_map (fun market => (Market.id market, Market.odds market))
                  (JsMap.get k (markets (store sv)))) ->
  Routes.placeBet sub ltb betData selections
                  (mkServer (Crud.set_markets (store sv) m') (ids sv))
  = (fst (Routes.placeBet sub ltb betData selections sv),
     mkServer
       (Crud.set_markets (store (snd (Routes.placeBet sub ltb betData selections sv)))
                         m')
       (ids (snd (Routes.placeBet sub ltb betData selections sv)))).
Proof.
  intros Hm. unfold Routes.placeBet.
  destruct selections as [|k rest]; [reflexivity|].
  cbn [store ids]. rewrite (validateSelections_set_markets _ _ _ Hm).
  change (Storage.getUser 1 (Crud.set_markets (store sv) m'))
    with (Storage.getUser 1 (store sv)).
  destruct (Storage.getUser 1 (store sv)) as [user|]; [|reflexivity].
  destruct (ltb (User.balance user) (BetData.stake betData)); [reflexivity|].
  destruct (Routes.validateSelections (k :: rest) (store sv)) as [missing|valid];
    [reflexivity|].
  rewrite createBet_set_markets.
  destruct (Crud.createBet _ valid sv) as [bet sv1]. cbn [fst snd store ids].
  pose proof (updateUserBalance_set_markets (User.id user)
                (sub (User.balance user) (BetData.stake betData)) (store sv1) m')
    as Hu.
  destruct (Crud.updateUserBalance _ _ (Crud.set_markets (store sv1) m'))
    as [u2 s2].
  destruct (Crud.updateUserBalance _ _ (store sv1)) as [u3 s3].
  cbn [fst snd store ids] in *. now rewrite Hu.
Qed.

Lemma placeBet_markets betData selections sv :
  markets (store (snd (Routes.placeBet sub ltb betData selections sv)))
  = markets (store sv).
Proof.
  unfold Routes.placeBet.
  destruct selections as [|k rest]; [reflexivity|].
  destruct (Storage.getUser 1 (store sv)) as [user|]; [|reflexivity].
  destruct (ltb (User.balance user) (BetData.stake betData)); [reflexivity|].
  destruct (Routes.validateSelections (k :: rest) (store sv)) as [missing|valid];
    [reflexivity|].
  unfold Crud.createBet. destruct (fold_left _ valid _) as [selections n].
  unfold Crud.updateUserBalance. cbn [store].
  destruct (Storage.getUser _ _); reflexivity.
Qed.

Lemma toggleMarketLock_set_markets id isLocked s s1 :
  markets s1 = markets s ->
  snd (Crud.toggleMarketLock id isLocked s1)
  = Crud.set_markets s1 (markets (snd (Crud.toggleMarketLock id isLocked s))).
Proof.
  intros Hm. unfold Crud.toggleMarketLock, Crud.getMarket. rewrite Hm.
  destruct (JsMap.get id (markets s)) as [market|]; cbn [snd].
  - reflexivity.
  - rewrite <- Hm. now destruct s1.
Qed.

Lemma toggleMarketLock_reads id isLocked s k :
  option_map (fun market => (Market.id market, Market.odds market))
             (JsMap.get k (markets (snd (Crud.toggleMarketLock id isLocked s))))
  = option_map (fun market => (Market.id market, Market.odds market))
               (JsMap.get k (markets s)).
Proof.
  unfold Crud.toggleMarketLock, Crud.getMarket.
  destruct (JsMap.get id (markets s)) as [market|] eqn:E; [|reflexivity].
  cbn [snd Crud.set_markets markets].
  destruct (Z.eq_dec k id) as [->|Hne].
  - now rewrite JsMapFacts.get_set_same, E.
  - now rewrite JsMapFacts.get_set_other.
Qed.

(** X13. [POST /api/bets] never looks at the lock of a market: locking or
unlocking any market before the request changes neither the answer nor what
the request writes. *)
Theorem placeBet_ignores_the_lock betData selections sv id isLocked :
  let lock sv :=
    mkServer (snd (Crud.toggleMarketLock id isLocked (store sv))) (ids sv) in
  fst (Routes.placeBet sub ltb betData selections (lock sv))
  = fst (Routes.placeBet sub ltb betData selections sv)
  /\ snd (Routes.placeBet sub ltb betData selections (lock sv))
     = lock (snd (Routes.placeBet sub ltb betData selections sv)).
Proof.
  cbv beta zeta. cbn [store ids].
  rewrite (toggleMarketLock_set_markets id isLocked (store sv) (store sv) eq_refl).
  rewrite placeBet_set_markets by (intros k; apply toggleMarketLock_reads).
  cbn [fst snd]. split; [reflexivity|].
  now rewrite (toggleMarketLock_set_markets id isLocked (store sv) _
                 (placeBet_markets betData selections sv)).
Qed.

End LockFacts.

(** ** From the bet slip to the payout *)

Section PlaceAndFinish.
Variable num : Type.
Variables (add sub : num -> num -> num) (ltb : num -> num -> bool).
Implicit Types (s : MemStorage num) (sv : Server num).



End PlaceAndFinish.

(** ** The client *)

Section ClientFacts.

Lemma getMarketLabel_listed marketType :
  In marketType Spec.market_types ->
  ClientLabels.getMarketLabel marketType <> marketType.
Proof.
  unfold Spec.market_types. simpl. intros Hin.
  repeat (destruct Hin as [<-|Hin]; [vm_compute; discriminate|]).
  contradiction.
Qed.

Lemma getMarketLabel_unlisted marketType :
  ~ In marketType Spec.market_types ->
  ClientLabels.getMarketLabel marketType = marketType.
Proof.
  intros Hout. unfold ClientLabels.getMarketLabel. apply switch_default.
  exact Hout.
Qed.

Lemma listed_type_can_win marketType :
  In marketType Spec.market_types ->
  exists h a hh ha, Storage.isBetWinner marketType h a hh ha = true.
Proof.
  unfold Spec.market_types. simpl. intros Hin.
  repeat (destruct Hin as [<-|Hin];
          [first [ now exists 2, 0, 1, 0
                 | now exists 0, 2, 0, 1
                 | now exists 0, 0, 0, 0
                 | now exists 1, 1, 1, 1
                 | now exists 4, 1, 2, 1
                 | now exists 1, 4, 1, 2 ]|]).
  contradiction.
Qed.

(** X15. The label table of the client and the evaluator name the same market
types: [getMarketLabel] gives a market type a label of its own exactly when
some result makes [isBetWinner] accept that type; every other type is shown
as its raw tag and can never win. *)
Theorem getMarketLabel_labels_exactly_the_types_that_can_win marketType :
  ClientLabels.getMarketLabel marketType <> marketType
  <-> exists h a hh ha, Storage.isBetWinner marketType h a hh ha = true.
Proof.
  destruct (in_dec string_dec marketType Spec.market_types) as [Hin|Hout].
  - split; intros _; [now apply listed_type_can_win|now apply getMarketLabel_listed].
  - split.
    + intros H. now destruct (H (getMarketLabel_unlisted _ Hout)).
    + intros (h & a & hh & ha & Hw).
      rewrite (isBetWinner_unlisted _ h a hh ha Hout) in Hw. discriminate.
Qed.





End ClientFacts.

Section SlipFacts.
Variable num : Type.
Implicit Types (bets : list (SlipSelection.t num)).

Lemma hasBet_In id bets :
  BettingStore.hasBet id bets = true <-> In id (map SlipSelection.id bets).
Proof.
  unfold BettingStore.hasBet. rewrite existsb_exists, in_map_iff.
  split; intros (b & H1 & H2).
  - exists b. split; [now apply Z.eqb_eq|exact H1].
  - exists b. split; [exact H2|now apply Z.eqb_eq].
Qed.

Lemma removeBet_ids id bets :
  map SlipSelection.id (BettingStore.removeBet id bets)
  = filter (fun k => negb (k =? id)) (map SlipSelection.id bets).
Proof.
  unfold BettingStore.removeBet.
  induction bets as [|b rest IH]; simpl; [reflexivity|].
  destruct (SlipSelection.id b =? id); simpl; now rewrite IH.
Qed.

Lemma removeBet_absent id bets :
  BettingStore.hasBet id bets = false -> BettingStore.removeBet id bets = bets.
Proof.
  unfold BettingStore.hasBet, BettingStore.removeBet.
  induction bets as [|b rest IH]; simpl; [reflexivity|].
  destruct (SlipSelection.id b =? id); simpl; [discriminate|].
  intros H. now rewrite IH.
Qed.

Lemma hasBet_removeBet_other id id' bets :
  id <> id' ->
  BettingStore.hasBet id (BettingStore.removeBet id' bets)
  = BettingStore.hasBet id bets.
Proof.
  intros Hne. unfold BettingStore.hasBet, BettingStore.removeBet.
  induction bets as [|b rest IH]; [reflexivity|]. simpl.
  destruct (Z.eqb_spec (SlipSelection.id b) id') as [E|E]; simpl.
  - destruct (Z.eqb_spec (SlipSelection.id b) id) as [E'|_]; [congruence|].
    apply IH.
  - now rewrite IH.
Qed.

(** X17. The bet slip holds a market at most once and never a locked one:
[handleToggleBet] keeps the ids of the slip free of duplicates; on a locked
market it changes nothing; on an open market it flips whether the market is
on the slip, leaves the other selections in place, and a second click takes
back the first. *)
Theorem handleToggleBet_keeps_one_selection_per_market
        (market : Market.t num) matchId homeTeam awayTeam bets :
  NoDup (map SlipSelection.id bets) ->
  let toggle := BettingStore.handleToggleBet market matchId homeTeam awayTeam in
  NoDup (map SlipSelection.id (toggle bets))
  /\ (Market.isLocked market = true -> toggle bets = bets)
  /\ (Market.isLocked market = false ->
      BettingStore.hasBet (Market.id market) (toggle bets)
      = negb (BettingStore.hasBet (Market.id market) bets)
      /\ (forall id, id <> Market.id market ->
            BettingStore.hasBet id (toggle bets) = BettingStore.hasBet id bets)
      /\ (BettingStore.hasBet (Market.id market) bets = false ->
          toggle (toggle bets) = bets)).
Proof.
  intros Hnd. cbv zeta. unfold BettingStore.handleToggleBet.
  destruct (Market.isLocked market); [repeat split; [exact Hnd|discriminate]|].
  destruct (BettingStore.hasBet (Market.id market) bets) eqn:Hhas.
  - assert (Hgone : BettingStore.hasBet (Market.id market)
                      (BettingStore.removeBet (Market.id market) bets) = false).
    { apply not_true_is_false. intros H. apply hasBet_In in H.
      rewrite removeBet_ids in H. apply filter_In in H. destruct H as [_ H].
      now rewrite Z.eqb_refl in H. }
    repeat split; try discriminate.
    + rewrite removeBet_ids. now apply NoDup_filter.
    + exact Hgone.
    + intros id Hne. now apply hasBet_removeBet_other.
  - set (new := SlipSelection.mk _ _ _ _ _ _).
    assert (Hin : BettingStore.hasBet (Market.id market)
                    (BettingStore.addBet new bets) = true).
    { unfold BettingStore.hasBet, BettingStore.addBet. rewrite existsb_app.
      simpl. rewrite Z.eqb_refl. now rewrite orb_true_r. }
    repeat split; try discriminate.
    + unfold BettingStore.addBet. rewrite map_app. simpl.
      apply NoDup_app; [exact Hnd|repeat constructor; intros []|].
      intros k Hk [<-|[]].
      apply hasBet_In in Hk. congruence.
    + exact Hin.
    + intros id Hne. unfold BettingStore.hasBet, BettingStore.addBet.
      rewrite existsb_app. simpl.
      destruct (Z.eqb_spec (Market.id market) id) as [E|_]; [congruence|].
      now rewrite !orb_false_r.
    + intros _. rewrite Hin. unfold BettingStore.removeBet, BettingStore.addBet.
      rewrite filter_app. simpl. rewrite Z.eqb_refl. simpl. rewrite app_nil_r.
      now apply removeBet_absent.
Qed.

End SlipFacts.

(** ** Locks and deleted bets *)

Section LockAndDelete.
Variable num : Type.
Implicit Types (s : MemStorage num) (sv : Server num).

Lemma scanSelections_set_markets s m' matchId mt h a :
  (forall k,
     option_map (fun market => (Market.matchId market, Market.type market))
                (JsMap.get k m')
     = option_map (fun market => (Market.matchId market, Market.type market))
                  (JsMap.get k (markets s))) ->
  forall sels p,
    Storage.scanSelections (Crud.set_markets s m') matchId mt h a sels p
    = Storage.scanSelections s matchId mt h a sels p.
Proof.
  intros Hm. induction sels as [|sel rest IH]; intros p; [reflexivity|].
  cbn [Storage.scanSelections Crud.set_markets markets].
  specialize (Hm (BetSelection.marketId sel)).
  destruct (JsMap.get (BetSelection.marketId sel) m') as [mk'|],
           (JsMap.get (BetSelection.marketId sel) (markets s)) as [mk|];
    try discriminate; [|apply IH].
  simpl in Hm. injection Hm as Hmid Hty. rewrite Hmid, Hty.
  destruct (Market.matchId mk =? matchId); [|apply IH].
  destruct (Storage.isBetPush (Market.type mk) h a); [apply IH|].
  destruct (negb _); [reflexivity|apply IH].
Qed.

(** X18. [toggleMarketLock] changes the lock of one market and nothing else:
the market keeps its id, match, type and odds, every other market and the
rest of the store stay as they are, an unknown id changes nothing, and the
verdict of settlement on any bet is the same with or without the lock. *)
Theorem toggleMarketLock_changes_only_the_lock id isLocked s :
  let s' := snd (Crud.toggleMarketLock id isLocked s) in
  (forall k,
     Crud.getMarket k s'
     = if k =? id
       then option_map (fun market =>
                          Market.mk (Market.id market) (Market.matchId market)
                                    (Market.type market) (Market.odds market)
                                    isLocked)
                       (Crud.getMarket k s)
       else Crud.getMarket k s)
  /\ fst (Crud.toggleMarketLock id isLocked s) = Crud.getMarket id s'
  /\ JsMap.keys (markets s') = JsMap.keys (markets s)
  /\ users s' = users s /\ matches s' = matches s /\ bets s' = bets s
  /\ betSelections s' = betSelections s
  /\ forall matchId mt h a betId,
       Storage.verdict s' matchId mt h a betId
       = Storage.verdict s matchId mt h a betId.
Proof.
  cbv zeta.
  assert (Hget : forall k,
            Crud.getMarket k (snd (Crud.toggleMarketLock id isLocked s))
            = if k =? id
              then option_map (fun market =>
                                 Market.mk (Market.id market) (Market.matchId market)
                                           (Market.type market) (Market.odds market)
                                           isLocked)
                              (Crud.getMarket k s)
              else Crud.getMarket k s).
  { intros k. unfold Crud.toggleMarketLock, Crud.getMarket.
    destruct (JsMap.get id (markets s)) as [market|] eqn:E; cbn [snd].
    - cbn [Crud.set_markets markets].
      destruct (Z.eqb_spec k id) as [->|Hne].
      + now rewrite JsMapFacts.get_set_same, E.
      + now rewrite JsMapFacts.get_set_other.
    - destruct (Z.eqb_spec k id) as [->|Hne]; [now rewrite E|reflexivity]. }
  split; [exact Hget|].
  pose proof (toggleMarketLock_set_markets num id isLocked s s eq_refl) as Hs.
  repeat split; try (rewrite Hs; reflexivity).
  - rewrite Hget, Z.eqb_refl. unfold Crud.toggleMarketLock.
    now destruct (Crud.getMarket id s).
  - unfold Crud.toggleMarketLock, Crud.getMarket.
    destruct (JsMap.get id (markets s)) as [market|] eqn:E; [|reflexivity].
    cbn [snd Crud.set_markets markets].
    eapply JsMapFacts.keys_set_present. exact E.
  - intros matchId mt h a betId. rewrite Hs. unfold Storage.verdict.
    change (Storage.selectionsOf (Crud.set_markets s _) betId)
      with (Storage.selectionsOf s betId).
    rewrite scanSelections_set_markets; [reflexivity|].
    intros k. specialize (Hget k). unfold Crud.getMarket in Hget. rewrite Hget.
    destruct (k =? id); [|reflexivity].
    now destruct (JsMap.get k (markets s)).
Qed.

(** X19. [deleteBet] removes the bet and nothing else: no balance changes, so
the stake is not given back, and the selections of the bet stay in the store.
The id is not handed out again: a bet created afterwards gets a new id and
its own selections only, and the left-over selections stay as they were. *)
Theorem deleteBet_neither_refunds_nor_frees_the_id
        id sv bet insertBet selectionInserts :
  Crud.consistent sv = true ->
  Crud.getBet id (store sv) = Some bet ->
  let s1 := snd (Crud.deleteBet id (store sv)) in
  let created := Crud.createBet insertBet selectionInserts (mkServer s1 (ids sv)) in
  fst (Crud.deleteBet id (store sv)) = true
  /\ Crud.getBet id s1 = None
  /\ (forall k, k <> id -> Crud.getBet k s1 = Crud.getBet k (store sv))
  /\ users s1 = users (store sv)
  /\ betSelections s1 = betSelections (store sv)
  /\ Bet.id (fst created) <> id
  /\ Crud.getBet id (store (snd created)) = None
  /\ Storage.selectionsOf (store (snd created)) id
     = Storage.selectionsOf (store sv) id
  /\ map BetSelection.marketId
         (Storage.selectionsOf (store (snd created)) (Bet.id (fst created)))
     = map InsertBetSelection.marketId selectionInserts.
Proof.
  intros Hc Hg. cbv zeta.
  pose proof (deleteBet_consistent num id sv Hc) as Hc1.
  pose proof (createBet_round_trip num insertBet selectionInserts _ Hc1)
    as (R1 & R2 & R3 & R4 & R5 & _).
  cbn [ids store] in *.
  unfold Crud.deleteBet, Crud.getBet in *. rewrite Hg in *. cbn [fst snd] in *.
  cbn [Storage.set_bets bets users betSelections] in *.
  assert (Hlt : id < currentBetID (ids sv)).
  { apply consistent_spec in Hc.
    destruct Hc as (_ & _ & _ & _ & _ & _ & _ & _ & _ & _ & _ & _ & L3 & _).
    eapply JsMapMoreFacts.keys_below_In; [exact L3|].
    apply JsMapFacts.get_In. exact Hg. }
  assert (Hne : id <> Bet.id (fst (Crud.createBet insertBet selectionInserts
                   (mkServer (Storage.set_bets (store sv)
                                (JsMapMore.delete id (bets (store sv)))) (ids sv)))))
    by (rewrite R1; lia).
  destruct (R5 id Hne) as [R5a R5b].
  repeat split.
  - apply JsMapMoreFacts.get_delete_same.
  - intros k Hk. now apply JsMapMoreFacts.get_delete_other.
  - intros E. now apply Hne.
  - rewrite R5a. apply JsMapMoreFacts.get_delete_same.
  - rewrite R5b. reflexivity.
  - rewrite R4. apply selectionsFrom_fields.
Qed.

End LockAndDelete.

(** ** The theorems at work on the scenarios *)

Lemma calls_keep_the_store_consistent_witness :
  Crud.consistent ScenarioMore.open_server = true
  /\ Crud.consistent
       (Api.run_calls Qplus Qminus ScenarioMore.Qltb
          [ Api.PlaceBet ScenarioMore.bet_request [1];
            Api.UpdateMatchStatus 1 "FINISHED" (Some 2) (Some 1) None None;
            Api.DeleteMatch 1 ]
          ScenarioMore.open_server) = true
  /\ well_formed
       (store
          (Api.run_calls Qplus Qminus ScenarioMore.Qltb
             [ Api.PlaceBet ScenarioMore.bet_request [1];
               Api.UpdateMatchStatus 1 "FINISHED" (Some 2) (Some 1) None None;
               Api.DeleteMatch 1 ]
             ScenarioMore.open_server)) = true.
Proof.
  split; [reflexivity|].
  exact (calls_keep_the_store_consistent Q Qplus Qminus ScenarioMore.Qltb
           [ Api.PlaceBet ScenarioMore.bet_request [1];
             Api.UpdateMatchStatus 1 "FINISHED" (Some 2) (Some 1) None None;
             Api.DeleteMatch 1 ]
           ScenarioMore.open_server eq_refl).
Defined.

Lemma finish_settles_every_pending_bet_witness :
  well_formed Scenario.single = true
  /\ Storage.getMatch 1 Scenario.single = Some (Scenario.upcoming 1)
  /\ exists upd s',
       fst (Storage.updateMatchStatus 1 "FINISHED" (Some 2) (Some 1) None None
              Scenario.single) = Some upd
       /\ Storage.settle Qplus
            (snd (Storage.updateMatchStatus 1 "FINISHED" (Some 2) (Some 1)
                    None None Scenario.single)) = Some s'
       /\ (forall k bet,
             JsMap.get k (bets Scenario.single) = Some bet ->
             JsMap.get k (bets s')
             = Some (if String.eqb (Bet.status bet) "PENDING"
                     then Bet.with_status bet
                            (Storage.verdict Scenario.single 1 upd 2 1 k)
                     else bet))
       /\ (forall bet, In bet (JsMap.values (bets s')) ->
                       Bet.status bet <> "PENDING").
Proof.
  split; [reflexivity|]. split; [reflexivity|].
  exact (finish_settles_every_pending_bet Q Qplus Scenario.single 1
           (Scenario.upcoming 1) 2 1 None None eq_refl eq_refl).
Defined.

Lemma finish_pays_each_user_the_last_won_bet_witness :
  well_formed Scenario.single = true
  /\ Storage.getMatch 1 Scenario.single = Some (Scenario.upcoming 1)
  /\ exists upd s',
       fst (Storage.updateMatchStatus 1 "FINISHED" (Some 2) (Some 1) None None
              Scenario.single) = Some upd
       /\ Storage.settle Qplus
            (snd (Storage.updateMatchStatus 1 "FINISHED" (Some 2) (Some 1)
                    None None Scenario.single)) = Some s'
       /\ forall uid u,
            Storage.getUser uid Scenario.single = Some u ->
            Storage.getUser uid s'
            = Some (match rev (filter (Storage.wonFor Scenario.single 1 upd 2 1 uid)
                                      (JsMap.values (bets Scenario.single))) with
                    | [] => u
                    | bet :: _ =>
                        User.with_balance u
                          (Qplus (User.balance u) (Bet.potentialWin bet))
                    end).
Proof.
  split; [reflexivity|]. split; [reflexivity|].
  exact (finish_pays_each_user_the_last_won_bet Q Qplus Scenario.single 1
           (Scenario.upcoming 1) 2 1 None None eq_refl eq_refl).
Defined.

Lemma updateMatchStatus_settles_only_finished_with_scores_witness :
  JsMap.keyed_by Match.id (matches Scenario.single) = true
  /\ ("LIVE" <> "FINISHED"
      \/ Storage.getMatch 1 Scenario.single = None
      \/ (exists m0, Storage.getMatch 1 Scenario.single = Some m0
                     /\ ((Some 2 = None /\ Match.homeScore m0 = None)
                         \/ (Some 1 = None /\ Match.awayScore m0 = None))))
  /\ let r := snd (Storage.updateMatchStatus 1 "LIVE" (Some 2) (Some 1) None None
                     Scenario.single) in
     snd r = []
     /\ users (fst r) = users Scenario.single
     /\ markets (fst r) = markets Scenario.single
     /\ bets (fst r) = bets Scenario.single
     /\ betSelections (fst r) = betSelections Scenario.single.
Proof.
  assert (H : "LIVE" <> "FINISHED") by discriminate.
  split; [reflexivity|]. split; [left; exact H|].
  exact (updateMatchStatus_settles_only_finished_with_scores Q Scenario.single 1
           "LIVE" (Some 2) (Some 1) None None eq_refl (or_introl H)).
Defined.

Lemma finished_match_is_settled_once_witness :
  well_formed Scenario.single = true
  /\ Storage.getMatch 1 Scenario.single = Some (Scenario.upcoming 1)
  /\ exists s1,
       Storage.settle Qplus
         (snd (Storage.updateMatchStatus 1 "FINISHED" (Some 2) (Some 1) None None
                 Scenario.single)) = Some s1
       /\ forall id' st' h' a' hth' hta',
            let r := snd (Storage.updateMatchStatus id' st' h' a' hth' hta' s1) in
            snd r = [] /\ bets (fst r) = bets s1 /\ users (fst r) = users s1.
Proof.
  split; [reflexivity|]. split; [reflexivity|].
  exact (finished_match_is_settled_once Q Qplus Scenario.single 1
           (Scenario.upcoming 1) 2 1 None None eq_refl eq_refl).
Defined.

Lemma overlapping_passes_differ_in_balances_only_witness :
  well_formed Scenario.unrelated = true
  /\ exists s1 s2,
       Storage.settle Qplus (Storage.resolveBetsForMatch 1 Scenario.unrelated)
       = Some s1
       /\ (let mid := Storage.drain Qplus 1
                        (snd (Storage.resolveBetsForMatch 1 Scenario.unrelated))
                        (fst (Storage.resolveBetsForMatch 1 Scenario.unrelated)) in
           Storage.settle Qplus
             (fst (Storage.resolveBetsForMatch 1 (fst mid)),
              snd mid ++ snd (Storage.resolveBetsForMatch 1 (fst mid)))
           = Some s2)
       /\ bets s2 = bets s1 /\ matches s2 = matches s1
       /\ markets s2 = markets s1 /\ betSelections s2 = betSelections s1.
Proof.
  split; [reflexivity|].
  exact (overlapping_passes_differ_in_balances_only Q Qplus Scenario.unrelated 1 1
           eq_refl).
Defined.

Lemma deleteMatch_removes_the_match_and_its_markets_witness :
  JsMap.nodup_keys (markets (store ScenarioMore.open_server)) = true
  /\ JsMap.keyed_by Market.id (markets (store ScenarioMore.open_server)) = true
  /\ Storage.getMatch 1 (store ScenarioMore.open_server)
     = Some (Scenario.upcoming 1)
  /\ exists s',
       Crud.deleteMatch 1 (store ScenarioMore.open_server) = (true, s')
       /\ (forall k, Storage.getMatch k s'
                     = if k =? 1 then None
                       else Storage.getMatch k (store ScenarioMore.open_server))
       /\ (forall k, Crud.getMarket k s'
                     = match Crud.getMarket k (store ScenarioMore.open_server) with
                       | Some market =>
                           if Market.matchId market =? 1 then None else Some market
                       | None => None
                       end)
       /\ Crud.getMarketsByMatchId 1 s' = []
       /\ users s' = users (store ScenarioMore.open_server)
       /\ bets s' = bets (store ScenarioMore.open_server)
       /\ betSelections s' = betSelections (store ScenarioMore.open_server).
Proof.
  split; [reflexivity|]. split; [reflexivity|]. split; [reflexivity|].
  exact (deleteMatch_removes_the_match_and_its_markets Q 1
           (store ScenarioMore.open_server) (Scenario.upcoming 1)
           eq_refl eq_refl eq_refl).
Defined.

Lemma createBet_stores_the_bet_with_its_selections_witness :
  Crud.consistent ScenarioMore.open_server = true
  /\ (let bet :=
        fst (Crud.createBet ScenarioMore.away_bet [ScenarioMore.away_selection]
                            ScenarioMore.open_server) in
      let sv' :=
        snd (Crud.createBet ScenarioMore.away_bet [ScenarioMore.away_selection]
                            ScenarioMore.open_server) in
      Bet.id bet = currentBetID (ids ScenarioMore.open_server)
      /\ Crud.getBet (Bet.id bet) (store ScenarioMore.open_server) = None
      /\ Crud.getBet (Bet.id bet) (store sv') = Some bet
      /\ Forall (fun sel => BetSelection.betId sel = Bet.id bet)
                (Storage.selectionsOf (store sv') (Bet.id bet))
      /\ map BetSelection.marketId (Storage.selectionsOf (store sv') (Bet.id bet))
         = map InsertBetSelection.marketId [ScenarioMore.away_selection]
      /\ map BetSelection.odds (Storage.selectionsOf (store sv') (Bet.id bet))
         = map InsertBetSelection.odds [ScenarioMore.away_selection]
      /\ NoDup (map BetSelection.id
                    (Storage.selectionsOf (store sv') (Bet.id bet)))
      /\ (forall k, k <> Bet.id bet ->
            Crud.getBet k (store sv') = Crud.getBet k (store ScenarioMore.open_server)
            /\ Storage.selectionsOf (store sv') k
               = Storage.selectionsOf (store ScenarioMore.open_server) k)
      /\ users (store sv') = users (store ScenarioMore.open_server)
      /\ matches (store sv') = matches (store ScenarioMore.open_server)
      /\ markets (store sv') = markets (store ScenarioMore.open_server)).
Proof.
  split; [reflexivity|].
  exact (createBet_stores_the_bet_with_its_selections Q ScenarioMore.away_bet
           [ScenarioMore.away_selection] ScenarioMore.open_server eq_refl).
Defined.

Lemma createMatch_drops_a_zero_score_witness :
  Crud.consistent ScenarioMore.open_server = true
  /\ (InsertMatch.homeScore ScenarioMore.goalless = Some 0
      \/ InsertMatch.awayScore ScenarioMore.goalless = Some 0)
  /\ (let mt :=
        fst (Crud.createMatch ScenarioMore.goalless ScenarioMore.open_server) in
      let s' :=
        store (snd (Crud.createMatch ScenarioMore.goalless
                                     ScenarioMore.open_server)) in
      Storage.getMatch (Match.id mt) s' = Some mt
      /\ (Match.homeScore mt = None \/ Match.awayScore mt = None)
      /\ Storage.resolveBetsForMatch (Match.id mt) s' = (s', [])).
Proof.
  split; [reflexivity|]. split; [left; reflexivity|].
  exact (createMatch_drops_a_zero_score Q ScenarioMore.goalless
           ScenarioMore.open_server eq_refl (or_introl eq_refl)).
Defined.

Lemma placeBet_stores_what_the_client_sent_witness :
  Crud.consistent ScenarioMore.open_server = true
  /\ fst (Routes.placeBet Qminus ScenarioMore.Qltb ScenarioMore.bet_request [1]
                          ScenarioMore.open_server)
     = Routes.Created ScenarioMore.placed_bet
  /\ (let sv' :=
        snd (Routes.placeBet Qminus ScenarioMore.Qltb ScenarioMore.bet_request [1]
                             ScenarioMore.open_server) in
      exists user,
        Storage.getUser 1 (store ScenarioMore.open_server) = Some user
        /\ ScenarioMore.placed_bet
           = Bet.mk (currentBetID (ids ScenarioMore.open_server)) 1
                    (BetData.stake ScenarioMore.bet_request)
                    (BetData.totalOdds ScenarioMore.bet_request)
                    (BetData.potentialWin ScenarioMore.bet_request)
                    (Crud.or_string (BetData.status ScenarioMore.bet_request)
                                    "PENDING")
        /\ Crud.getBet (Bet.id ScenarioMore.placed_bet) (store sv')
           = Some ScenarioMore.placed_bet
        /\ map BetSelection.marketId
               (Storage.selectionsOf (store sv') (Bet.id ScenarioMore.placed_bet))
           = [1]
        /\ Forall2 (fun selection marketId =>
                      exists market,
                        Crud.getMarket marketId (store ScenarioMore.open_server)
                        = Some market
                        /\ BetSelection.odds selection = Market.odds market)
                   (Storage.selectionsOf (store sv') (Bet.id ScenarioMore.placed_bet))
                   [1]
        /\ Crud.getBetsByUserId 1 (store sv')
           = Crud.getBetsByUserId 1 (store ScenarioMore.open_server)
             ++ [ScenarioMore.placed_bet]
        /\ Storage.getUser 1 (store sv')
           = Some (User.with_balance user
                     (Qminus (User.balance user)
                             (BetData.stake ScenarioMore.bet_request)))
        /\ (forall uid, uid <> 1 ->
              Storage.getUser uid (store sv')
              = Storage.getUser uid (store ScenarioMore.open_server))).
Proof.
  split; [reflexivity|]. split; [reflexivity|].
  exact (placeBet_stores_what_the_client_sent Q Qminus ScenarioMore.Qltb
           ScenarioMore.bet_request [1] ScenarioMore.open_server
           ScenarioMore.placed_bet eq_refl eq_refl).
Defined.


Lemma handleToggleBet_keeps_one_selection_per_market_witness :
  NoDup (map SlipSelection.id ScenarioMore.empty_slip)
  /\ (let toggle :=
        BettingStore.handleToggleBet ScenarioMore.home_market 1 "Porto" "Benfica" in
      NoDup (map SlipSelection.id (toggle ScenarioMore.empty_slip))
      /\ (Market.isLocked ScenarioMore.home_market = true ->
          toggle ScenarioMore.empty_slip = ScenarioMore.empty_slip)
      /\ (Market.isLocked ScenarioMore.home_market = false ->
          BettingStore.hasBet (Market.id ScenarioMore.home_market)
                              (toggle ScenarioMore.empty_slip)
          = negb (BettingStore.hasBet (Market.id ScenarioMore.home_market)
                                      ScenarioMore.empty_slip)
          /\ (forall id, id <> Market.id ScenarioMore.home_market ->
                BettingStore.hasBet id (toggle ScenarioMore.empty_slip)
                = BettingStore.hasBet id ScenarioMore.empty_slip)
          /\ (BettingStore.hasBet (Market.id ScenarioMore.home_market)
                                  ScenarioMore.empty_slip = false ->
              toggle (toggle ScenarioMore.empty_slip) = ScenarioMore.empty_slip))).
Proof.
  split; [constructor|].
  exact (handleToggleBet_keeps_one_selection_per_market Q
           ScenarioMore.home_market 1 "Porto" "Benfica" ScenarioMore.empty_slip
           (NoDup_nil Z)).
Defined.

Lemma deleteBet_neither_refunds_nor_frees_the_id_witness :
  Crud.consistent ScenarioMore.placed_server = true
  /\ Crud.getBet 1 (store ScenarioMore.placed_server)
     = Some ScenarioMore.placed_bet
  /\ (let s1 := snd (Crud.deleteBet 1 (store ScenarioMore.placed_server)) in
      let created :=
        Crud.createBet ScenarioMore.away_bet [ScenarioMore.away_selection]
                       (mkServer s1 (ids ScenarioMore.placed_server)) in
      fst (Crud.deleteBet 1 (store ScenarioMore.placed_server)) = true
      /\ Crud.getBet 1 s1 = None
      /\ (forall k, k <> 1 ->
            Crud.getBet k s1 = Crud.getBet k (store ScenarioMore.placed_server))
      /\ users s1 = users (store ScenarioMore.placed_server)
      /\ betSelections s1 = betSelections (store ScenarioMore.placed_server)
      /\ Bet.id (fst created) <> 1
      /\ Crud.getBet 1 (store (snd created)) = None
      /\ Storage.selectionsOf (store (snd created)) 1
         = Storage.selectionsOf (store ScenarioMore.placed_server) 1
      /\ map BetSelection.marketId
             (Storage.selectionsOf (store (snd created)) (Bet.id (fst created)))
         = map InsertBetSelection.marketId [ScenarioMore.away_selection]).
Proof.
  split; [reflexivity|]. split; [reflexivity|].
  exact (deleteBet_neither_refunds_nor_frees_the_id Q 1 ScenarioMore.placed_server
           ScenarioMore.placed_bet ScenarioMore.away_bet
           [ScenarioMore.away_selection] eq_refl eq_refl).
Defined.



(** Why the amended claim speaks of the store once the jobs have run.  In
scenario 1 the call leaves one job behind.  The caller that awaits
[updateMatchStatus] is resumed when that job and the job it schedules have
run: by then the balance is written, and the bet stays PENDING until the
third job writes its status. *)
Lemma finished_2_1_status_is_written_last :
  let r := snd (Storage.updateMatchStatus 1 "FINISHED" (Some 2) (Some 1)
                  None None Scenario.single) in
  let mid := Storage.drain Qplus 2 (snd r) (fst r) in
  length (snd r) = 1%nat
  /\ option_map Bet.status (JsMap.get 1 (bets (fst mid))) = Some "PENDING"
  /\ option_map User.balance (Storage.getUser 1 (fst mid))
     = Some (1000 + 18.5)%Q
  /\ length (snd mid) = 1%nat.
Proof. repeat split. Qed.
